(** * combine_results: a shallow embedding of [scripts/combine_results.py]

    The script aggregates per-sample metrics and image sequences of several
    prediction methods into one HTML report.  Every function of the script
    is embedded below under its own name.  Library calls (numpy, OpenCV,
    csv, glob, os) are modelled at the level the script observes them:
    an image is its [shape[:2]], a float is an IEEE 754 number with the
    rounding of its format, the file system is a read-only record of
    oracles, and a raised Python exception is the [Raise] constructor of
    [result]. *)

From Stdlib Require Import String Ascii DecimalString.
From Stdlib Require Import Arith ZArith QArith Qround Qabs Lia Lqa Bool.
From Stdlib Require Import List Permutation Sorted.
Import ListNotations.

Local Open Scope nat_scope.
Local Open Scope list_scope.

(** ** Exceptions and results *)

Inductive exn : Type :=
| FileNotFoundError
| IndexError
| ValueError
| NameError
| ZeroDivisionError
| IOError
| cv2_error.

Inductive result (A : Type) : Type :=
| Ok (a : A)
| Raise (e : exn).

Arguments Ok {A} a.
Arguments Raise {A} e.

Definition is_ok {A} (r : result A) : bool :=
  match r with Ok _ => true | Raise _ => false end.

(** A Python [for] loop that builds a list and lets the first exception
    escape. *)
Fixpoint mapM {A B} (f : A -> result B) (l : list A) : result (list B) :=
  match l with
  | [] => Ok []
  | x :: r =>
      match f x with
      | Raise e => Raise e
      | Ok y =>
          match mapM f r with
          | Raise e => Raise e
          | Ok ys => Ok (y :: ys)
          end
      end
  end.

(** ** Images

    Only [image.shape[:2]] is observed by the script's control flow; images
    read by [cv2.imread] always have three channels. *)

Record image : Type := mk_image { height : nat; width : nat }.

Definition shape (im : image) : nat * nat := (height im, width im).

Definition shape_eqb (a b : nat * nat) : bool :=
  (fst a =? fst b) && (snd a =? snd b).

(** [cv2.resize(src, dsize)]: [dsize] is (width, height); the result has
    shape (height, width).  OpenCV rejects an empty source or target. *)
Definition cv2_resize (src : image) (dsize : nat * nat) : result image :=
  let dwidth := fst dsize in
  let dheight := snd dsize in
  if (dwidth =? 0) || (dheight =? 0) || (height src =? 0) || (width src =? 0)
  then Raise cv2_error
  else Ok (mk_image dheight dwidth).

(** [np.concatenate(arrays, axis=1)]: all heights must agree; widths add. *)
Definition np_concatenate_axis1 (arrays : list image) : result image :=
  match arrays with
  | [] => Raise ValueError
  | a :: rest =>
      if forallb (fun b => height b =? height a) rest
      then Ok (mk_image (height a) (fold_left (fun w b => w + width b) rest (width a)))
      else Raise ValueError
  end.

(** [zip] applied to the unpacked list of lists: the transposition, cut at
    the shortest list; [zip] of no list at all is empty. *)
Fixpoint zip_star {A} (ls : list (list A)) : list (list A) :=
  match ls with
  | [] => []
  | l :: ls' =>
      match ls' with
      | [] => map (fun x => [x]) l
      | _ :: _ => map (fun p => fst p :: snd p) (combine l (zip_star ls'))
      end
  end.

(** ** concat_images (lines 85-109) *)

(** One step of the double loop of lines 90-96; [None] is Python's [None]. *)
Definition min_step (acc : option nat * option nat) (im : image)
  : option nat * option nat :=
  match acc with
  | (Some min_height, Some min_width) =>
      (Some (Nat.min min_height (height im)), Some (Nat.min min_width (width im)))
  | _ => (Some (height im), Some (width im))
  end.

Definition min_shape (all_images : list (list image)) : option nat * option nat :=
  fold_left (fun acc all_image => fold_left min_step all_image acc)
            all_images (None, None).

(** Lines 98-101.  The arguments of [cv2.resize] are passed in the order
    (min_height, min_width), as the source does. *)
Definition maybe_resize (mins : option nat * option nat) (im : image) : result image :=
  match mins with
  | (Some min_height, Some min_width) =>
      if shape_eqb (shape im) (min_height, min_width) then Ok im
      else cv2_resize im (min_height, min_width)
  | _ => Raise cv2_error
  end.

Definition concat_images (all_images : list (list image)) : result (list image) :=
  let mins := min_shape all_images in
  match mapM (mapM (maybe_resize mins)) all_images with
  | Raise e => Raise e
  | Ok resized_all_images => mapM np_concatenate_axis1 (zip_star resized_all_images)
  end.

(** The length of the shortest list, as [zip] sees it. *)
Fixpoint min_len {A} (ls : list (list A)) : nat :=
  match ls with
  | [] => 0
  | l :: ls' =>
      match ls' with
      | [] => length l
      | _ :: _ => Nat.min (length l) (min_len ls')
      end
  end.

(** [m] is the minimum of [f] over all images of all sequences. *)
Definition is_min (f : image -> nat) (all_images : list (list image)) (m : nat) : Prop :=
  (exists im, In im (concat all_images) /\ f im = m) /\
  (forall im, In im (concat all_images) -> m <= f im).

Definition positive (im : image) : Prop := 0 < height im /\ 0 < width im.

(** ** Python list and string helpers *)

(** [sorted]: a stable sort that compares with [<] only.  An element is
    inserted before the first element that is not smaller than it. *)
Fixpoint insert_sorted {A} (ltb : A -> A -> bool) (x : A) (l : list A) : list A :=
  match l with
  | [] => [x]
  | y :: r => if ltb y x then y :: insert_sorted ltb x r else x :: l
  end.

Definition sorted {A} (ltb : A -> A -> bool) (l : list A) : list A :=
  fold_right (insert_sorted ltb) [] l.

Definition in_list (x : string) (l : list string) : bool :=
  existsb (String.eqb x) l.

(** [list.remove(x)]: removes the first occurrence. *)
Fixpoint list_remove (x : string) (l : list string) : list string :=
  match l with
  | [] => []
  | y :: r => if String.eqb x y then r else y :: list_remove x r
  end.

(** [sorted(set(l))] on strings. *)
Definition sorted_set (l : list string) : list string :=
  sorted String.ltb (nodup string_dec l).

Definition chars (s : string) : list ascii := list_ascii_of_string s.
Definition str (l : list ascii) : string := string_of_list_ascii l.

Definition slash : ascii := "/"%char.
Definition dot : ascii := "."%char.

Definition starts_with_slash (s : string) : bool :=
  match s with
  | String c _ => Ascii.eqb c slash
  | EmptyString => false
  end.

Definition ends_with_slash (s : string) : bool :=
  match rev (chars s) with
  | c :: _ => Ascii.eqb c slash
  | [] => false
  end.

(** [os.path.join(a, b)] of posixpath. *)
Definition path_join (a b : string) : string :=
  if starts_with_slash b then b
  else if String.eqb a "" || ends_with_slash a then String.append a b
  else String.append a (String slash b).

Definition path_join3 (a b c : string) : string := path_join (path_join a b) c.
Definition path_join4 (a b c d : string) : string := path_join (path_join3 a b c) d.

(** Splits at the last occurrence of [sep]: the part up to and including
    it, and the part after it; [None] when [sep] does not occur. *)
Fixpoint rsplit_at (sep : ascii) (l : list ascii) : option (list ascii * list ascii) :=
  match l with
  | [] => None
  | c :: r =>
      match rsplit_at sep r with
      | Some (h, t) => Some (c :: h, t)
      | None => if Ascii.eqb c sep then Some ([c], r) else None
      end
  end.

Fixpoint drop_while (p : ascii -> bool) (l : list ascii) : list ascii :=
  match l with
  | [] => []
  | c :: r => if p c then drop_while p r else l
  end.

Definition rstrip_slash (l : list ascii) : list ascii :=
  rev (drop_while (fun c => Ascii.eqb c slash) (rev l)).

(** [os.path.split] of posixpath. *)
Definition os_path_split (p : string) : string * string :=
  match rsplit_at slash (chars p) with
  | None => (EmptyString, p)
  | Some (head, tail) =>
      if forallb (fun c => Ascii.eqb c slash) head then (str head, str tail)
      else (str (rstrip_slash head), str tail)
  end.

(** [os.path.basename] of posixpath. *)
Definition os_path_basename (p : string) : string :=
  match rsplit_at slash (chars p) with
  | None => p
  | Some (_, tail) => str tail
  end.

(** [os.path.splitext] of posixpath: the extension starts at the last dot
    of the last path component, unless only dots precede it there. *)
Definition os_path_splitext (p : string) : string * string :=
  let (dir, base) :=
    match rsplit_at slash (chars p) with
    | None => ([], chars p)
    | Some (d, b) => (d, b)
    end in
  match rsplit_at dot base with
  | None => (p, EmptyString)
  | Some (pre_dot, after) =>
      let pre := removelast pre_dot in
      if forallb (fun c => Ascii.eqb c dot) pre then (p, EmptyString)
      else (str (dir ++ pre), str (dot :: after))
  end.

(** [s.split('/')]. *)
Fixpoint split_slash_aux (cur : list ascii) (l : list ascii) : list string :=
  match l with
  | [] => [str (rev cur)]
  | c :: r =>
      if Ascii.eqb c slash then str (rev cur) :: split_slash_aux [] r
      else split_slash_aux (c :: cur) r
  end.

Definition split_slash (s : string) : list string := split_slash_aux [] (chars s).

(** [l[-2]]. *)
Definition second_to_last {A} (l : list A) : result A :=
  match rev l with
  | _ :: x :: _ => Ok x
  | _ => Raise IndexError
  end.

(** [l[0]]. *)
Definition first {A} (l : list A) : result A :=
  match l with
  | x :: _ => Ok x
  | [] => Raise IndexError
  end.

(** [s[:-n]] for [n > 0]. *)
Definition drop_last (n : nat) (s : string) : string :=
  let l := chars s in str (firstn (length l - n) l).

(** [glob.escape]: each of the characters star, question mark and opening
    bracket is wrapped in brackets. *)
Definition is_magic (c : ascii) : bool :=
  Ascii.eqb c "*"%char || Ascii.eqb c "?"%char || Ascii.eqb c "["%char.

Definition glob_escape (s : string) : string :=
  str (flat_map (fun c => if is_magic c then ["["%char; c; "]"%char] else [c]) (chars s)).

(** [str(n)] and ['%05d' % n] for a non-negative integer. *)
Definition str_of_nat (n : nat) : string := NilEmpty.string_of_uint (Nat.to_uint n).

Definition fmt_05d (n : nat) : string :=
  let s := str_of_nat n in
  String.append (str (repeat "0"%char (5 - String.length s))) s.

(** ** Floating-point numbers

    numpy computes on IEEE 754 numbers: float32 for the cells of a metrics
    matrix, their sum, mean and standard deviation, float64 for the
    standard error.  A finite number is the rational it stands for (the
    sign of a zero is not kept); every operation rounds its exact result to
    the nearest number of its format, ties to even, and overflows to an
    infinity.  Dividing by zero raises nothing in numpy: it gives an
    infinity or NaN. *)

Inductive float : Type :=
| Num (q : Q)
| PInf
| NInf
| NaN.

Definition Qltb (a b : Q) : bool := negb (Qle_bool b a).

(** [==] and [<] on floats: NaN is neither equal to nor less than
    anything, itself included. *)
Definition f_eqb (a b : float) : bool :=
  match a, b with
  | Num x, Num y => Qeq_bool x y
  | PInf, PInf => true
  | NInf, NInf => true
  | _, _ => false
  end.

Definition f_ltb (a b : float) : bool :=
  match a, b with
  | NaN, _ => false
  | _, NaN => false
  | Num x, Num y => Qltb x y
  | NInf, NInf => false
  | NInf, _ => true
  | _, NInf => false
  | PInf, _ => false
  | _, PInf => true
  end.

Definition f_isnan (a : float) : bool :=
  match a with NaN => true | _ => false end.

(** A binary format: the number of significant bits and the largest
    exponent. *)
Record format : Type := mk_format { prec : Z; emax : Z }.

Definition binary32 : format := mk_format 24 127.

Definition pow2 (e : Z) : Q :=
  if (0 <=? e)%Z then inject_Z (2 ^ e) else Qmake 1 (Z.to_pos (2 ^ (- e))).

(** The exponent of a positive rational: [pow2 e <= q < pow2 (e + 1)]. *)
Definition ilog2 (q : Q) : Z :=
  let k := (Z.log2 (Qnum q) - Z.log2 (Zpos (Qden q)))%Z in
  if Qle_bool (pow2 k) q then k else (k - 1)%Z.

(** The nearest integer, the even one of two equally near. *)
Definition nearest_even (y : Q) : Z :=
  let m := Qfloor y in
  match Qcompare (y - inject_Z m) (1 # 2) with
  | Lt => m
  | Gt => (m + 1)%Z
  | Eq => if Z.even m then m else (m + 1)%Z
  end.

(** The exponent of the last bit of a number with exponent [e]; it stops
    at the subnormal numbers. *)
Definition quantum (f : format) (e : Z) : Z :=
  Z.max (e - prec f + 1) (2 - emax f - prec f).

Definition finish (f : format) (m u : Z) : float :=
  let r := (inject_Z m * pow2 u)%Q in
  if Qle_bool (pow2 (emax f + 1)) r then PInf else Num (Qred r).

Definition round_pos (f : format) (q : Q) : float :=
  let u := quantum f (ilog2 q) in
  finish f (nearest_even (q / pow2 u)) u.

Definition f_neg (a : float) : float :=
  match a with
  | Num q => Num (Qred (- q))
  | PInf => NInf
  | NInf => PInf
  | NaN => NaN
  end.

(** Rounding to nearest, ties to even. *)
Definition round (f : format) (q : Q) : float :=
  match Qcompare q 0 with
  | Eq => Num 0
  | Gt => round_pos f q
  | Lt => f_neg (round_pos f (- q))
  end.

Definition f_add (f : format) (a b : float) : float :=
  match a, b with
  | NaN, _ => NaN
  | _, NaN => NaN
  | Num x, Num y => round f (x + y)
  | PInf, NInf => NaN
  | NInf, PInf => NaN
  | PInf, _ => PInf
  | _, PInf => PInf
  | NInf, _ => NInf
  | _, NInf => NInf
  end.


Definition f_sign (a : float) : comparison :=
  match a with
  | Num q => Qcompare q 0
  | PInf => Gt
  | NInf => Lt
  | NaN => Eq
  end.

Definition inf_of (s : comparison) : float :=
  match s with Gt => PInf | Lt => NInf | Eq => NaN end.

Definition sign_mul (s t : comparison) : comparison :=
  match s, t with
  | Eq, _ => Eq
  | _, Eq => Eq
  | Gt, Gt => Gt
  | Lt, Lt => Gt
  | _, _ => Lt
  end.


Definition f_div (f : format) (a b : float) : float :=
  match a, b with
  | NaN, _ => NaN
  | _, NaN => NaN
  | Num x, Num y =>
      if Qeq_bool y 0 then inf_of (Qcompare x 0) else round f (x / y)
  | Num _, _ => Num 0
  | _, Num y =>
      inf_of (sign_mul (f_sign a) (match Qcompare y 0 with Lt => Lt | _ => Gt end))
  | _, _ => NaN
  end.



(** The conversion of an integer count. *)
Definition f_of_nat (f : format) (n : nat) : float := round f (inject_Z (Z.of_nat n)).

(** ** The environment of a run

    Everything the script reads from outside: the file system and the
    behaviour of the libraries on the data found there. *)

Definition matrix : Type := list (list float).

(** The tuples sorted on line 156: mean, original index, name, directory. *)
Definition sort_key : Type := float * nat * string * string.

Record World : Type := mk_World {
  (** whether a path names an existing regular file *)
  isfile : string -> bool;
  (** the image OpenCV decodes from an existing file; [None] when the file
      is not a readable image *)
  image_data : string -> option image;
  (** the rows [csv.reader(f, delimiter=TAB, quotechar='|')] yields for an
      existing file *)
  csv_rows : string -> list (list string);
  (** numpy's conversion of a text cell to float32 ([nan] and [inf] are
      numbers to it); [None] when the text is not a number *)
  float32_of_str : string -> option float;
  (** whether [np.array] refuses rows of different lengths: numpy 1.24 and
      later raise [ValueError], earlier versions build a one-dimensional
      array of lists *)
  ragged_is_error : bool;
  (** numpy's sum of the float32 numbers of a non-empty array: every
      addition is rounded to float32, and the order of the additions, on
      which the result depends, is numpy's own *)
  np_add_reduce : list float -> float;
  (** what [sorted] makes of two or more tuples some of which hold a NaN
      mean: [<] is then no ordering and Python promises no result *)
  sorted_with_nan : list sort_key -> list sort_key;
  (** [os.listdir]; [None] when the directory does not exist *)
  listdir : string -> option (list string);
  (** [glob.glob] of a pattern, in the order the file system lists it *)
  glob : string -> list string;
  (** exit status of the ffmpeg process writing the given file *)
  ffmpeg_returncode : string -> list image -> nat;
  (** whether moviepy manages to write the given clip *)
  moviepy_write_gif : string -> list image -> result unit
}.

(** ** load_metrics (lines 11-18) *)

Definition open_csv (w : World) (fname : string) : result (list (list string)) :=
  if isfile w fname then Ok (csv_rows w fname) else Raise FileNotFoundError.

(** [np.array(rows)[1:, 1:-1]]: the two-dimensional index needs a
    rectangular, non-empty list of rows; row 0 and, of each other row, the
    first and the last cell are dropped.  With rows of different lengths
    numpy either refuses to build the array ([ValueError]) or builds a
    one-dimensional array of lists, which the index does not fit
    ([IndexError]), depending on its version. *)
Definition slice_1_m1 {A} (r : list A) : list A := removelast (tl r).

Definition np_array_slice (w : World) (rows : list (list string))
  : result (list (list string)) :=
  match rows with
  | [] => Raise IndexError
  | header :: data =>
      if forallb (fun r => length r =? length header) data
      then Ok (map slice_1_m1 data)
      else if ragged_is_error w then Raise ValueError
      else Raise IndexError
  end.

(** [.astype(np.float32)] *)
Definition astype_float32 (w : World) (cells : list (list string)) : result matrix :=
  mapM (mapM (fun c => match float32_of_str w c with
                       | Some q => Ok q
                       | None => Raise ValueError
                       end)) cells.

Definition load_metrics (w : World) (prefix_fname : string) : result matrix :=
  match open_csv w (String.append prefix_fname ".csv") with
  | Raise e => Raise e
  | Ok rows =>
      match np_array_slice w rows with
      | Raise e => Raise e
      | Ok cells => astype_float32 w cells
      end
  end.

(** ** load_images (lines 21-27) *)

(** [cv2.imread] does not raise: it returns [None] for a file that is
    missing or cannot be decoded. *)
Definition cv2_imread (w : World) (fname : string) : option image :=
  if isfile w fname then image_data w fname else None.

(** [cv2.cvtColor] keeps the shape and rejects an empty source. *)
Definition cv2_cvtColor (src : option image) : result image :=
  match src with
  | Some im => Ok im
  | None => Raise cv2_error
  end.

Definition load_images (w : World) (image_fnames : list string) : result (list image) :=
  mapM (fun image_fname => cv2_cvtColor (cv2_imread w image_fname)) image_fnames.

(** ** Statistics of a metrics matrix (lines 194-196)

    [np.mean] and [np.std] work in the float32 of the matrix: numpy sums
    the cells, divides by their number, and for the standard deviation
    takes the deviations from that mean, squares them, sums the squares,
    divides by the number of cells less [ddof] and takes the square root.
    A matrix without cells gives 0/0, which is NaN. *)

Definition cells_of (metric : matrix) : list float := concat metric.

(** [np.sum] over float32 numbers; the sum of no number is 0. *)
Definition np_sum (w : World) (a : list float) : float :=
  match a with
  | [] => Num 0
  | _ :: _ => np_add_reduce w a
  end.

(** [np.mean(metric)]: over all cells. *)
Definition np_mean (w : World) (metric : matrix) : float :=
  f_div binary32 (np_sum w (cells_of metric))
        (f_of_nat binary32 (length (cells_of metric))).



(** [num_samples = len(metric)]: the number of rows. *)
Definition num_rows (metric : matrix) : nat := length metric.






(** ** The report and the files written *)

(** A cell of a table row: a text, an integer, a float printed with four
    decimals (the mean, or the standard error of the given matrix), or
    Python's [None]. *)
Inductive cell : Type :=
| CStr (s : string)
| CInt (n : nat)
| CMean4 (mean : float)      (* ['%.4f' % metric_mean] *)
| CSe4 (metric : matrix)     (* ['%.4f' % metric_se] of this matrix *)
| CNone.

(** Modelled from the spec: the module [video_prediction.html] (class
    [HTML] with [add_header1], [add_header3], [add_table], [add_row],
    [add_images], [save]) is not part of the sources.  The spec describes it
    as a renderer whose operations are side-effecting with no return
    contract beyond success, so each call is recorded as an event, next to
    the progress lines printed and the calls by which the script writes
    files itself: [WriteJpg] is a call [cv2.imwrite(fname, image, ...)],
    [WriteGif] an animation written through moviepy or ffmpeg. *)
Inductive event : Type :=
| AddHeader1
| AddHeader3 (task_name metric_name : string)
| AddTable
| AddRow (txts : list cell) (colspans : option (list nat))
| AddImages (ims : list (option string)) (txts : list cell) (links : list (option string))
| Save
| PrintProgress (first_sample last_sample : Z)
| WriteJpg (fname : string) (im : image)
| WriteGif (fname : string) (frames : list image).

Definition log : Type := list event.

(** A computation that appends to the log and may raise; the log survives
    an exception, as files already written do. *)
Definition M (A : Type) : Type := log -> result A * log.

Definition ret {A} (a : A) : M A := fun s => (Ok a, s).

Definition bind {A B} (m : M A) (k : A -> M B) : M B :=
  fun s =>
    match m s with
    | (Ok a, s') => k a s'
    | (Raise e, s') => (Raise e, s')
    end.

Definition lift {A} (r : result A) : M A := fun s => (r, s).

Definition emit (e : event) : M unit := fun s => (Ok tt, s ++ [e]).

Declare Scope comb_scope.
Delimit Scope comb_scope with comb.
Notation "x <- m ;; k" := (bind m (fun x => k))
  (at level 61, m at next level, right associativity) : comb_scope.
Notation "m ;;; k" := (bind m (fun _ => k))
  (at level 61, right associativity) : comb_scope.
Local Open Scope comb_scope.

(** A [for] loop threading the loop-carried variables [acc]. *)
Fixpoint for_each {A S} (l : list A) (body : A -> S -> M S) (acc : S) : M S :=
  match l with
  | [] => ret acc
  | x :: r => acc' <- body x acc ;; for_each r body acc'
  end.

(** ** save_images, save_gif, ffmpeg_save_gif (lines 30-82)

    [save_images] creates the directory of its first path only and ignores
    what [cv2.imwrite] returns: a call for a path in a missing directory
    writes no file and goes unnoticed by the script, so the log holds the
    calls, not the files.  The encoder is taken to accept every path; an
    OpenCV without encoder for the extension of a path would raise, which
    the paths of [main], found by patterns ending in [.jpg], do not cause. *)

Definition save_images (image_fnames : list string) (images : list image) : M unit :=
  _ <- lift (first image_fnames) ;;
  for_each (combine image_fnames images)
           (fun p _ => emit (WriteJpg (fst p) (snd p))) tt.

Definition save_gif (w : World) (gif_fname : string) (images : list image) : M unit :=
  _ <- lift (moviepy_write_gif w gif_fname images) ;;
  emit (WriteGif gif_fname images).

Definition ffmpeg_save_gif (w : World) (gif_fname : string) (images : list image) : M unit :=
  _ <- lift (first images) ;;
  if ffmpeg_returncode w gif_fname images =? 0
  then emit (WriteGif gif_fname images)
  else lift (Raise IOError).

(** ** Command line (lines 113-123) *)

Record Args : Type := mk_Args {
  results_dir : string;
  arg_method_dirs : option (list string);
  arg_method_names : option (list string);
  web_dir : option string;
  sort_by : option (string * string);
  use_ffmpeg : bool;
  batch_size : Z;
  show_se : bool;
  only_metrics : bool
}.

(** ** Method discovery (lines 130-147) *)

(** Lines 132-140, on the listing of the results directory. *)
Definition default_method_dirs (listing : list string) : list string :=
  let unsorted_method_dirs :=
    if in_list "web" listing then list_remove "web" listing else listing in
  let '(unsorted_method_dirs, method_dirs) :=
    fold_left
      (fun st first_method_dir =>
         if in_list first_method_dir (fst st)
         then (list_remove first_method_dir (fst st), snd st ++ [first_method_dir])
         else st)
      ["ground_truth"%string; "repeat"%string]
      (unsorted_method_dirs, []) in
  method_dirs ++ sorted String.ltb unsorted_method_dirs.

Definition discover_methods (w : World) (args : Args) : result (list string * list string) :=
  match
    match arg_method_dirs args with
    | None =>
        match listdir w (results_dir args) with
        | None => Raise FileNotFoundError
        | Some listing => Ok (default_method_dirs listing)
        end
    | Some l => Ok l
    end
  with
  | Raise e => Raise e
  | Ok method_dirs =>
      let method_names :=
        match arg_method_names args with
        | None => method_dirs
        | Some l => l
        end in
      Ok (method_names, map (path_join (results_dir args)) method_dirs)
  end.

(** ** Sorting the methods (lines 149-157) *)

(** Python's [<] on 4-tuples: the first position whose entries are not
    [==] decides, by [<] on these entries. *)
Definition tuple_ltb (a b : sort_key) : bool :=
  let '(c1, i1, n1, d1) := a in
  let '(c2, i2, n2, d2) := b in
  if negb (f_eqb c1 c2) then f_ltb c1 c2
  else if negb (i1 =? i2) then i1 <? i2
  else if negb (String.eqb n1 n2) then String.ltb n1 n2
  else String.ltb d1 d2.

(** [zip] of four lists. *)
Definition zip4 (cs : list float) (ids : list nat) (names dirs : list string)
  : list sort_key :=
  map (fun p => (fst (fst (fst p)), snd (fst (fst p)), snd (fst p), snd p))
      (combine (combine (combine cs ids) names) dirs).

(** Unpacking [zip] of the unpacked sorted tuples into four variables:
    with no tuple at all there is nothing to unpack. *)
Definition unzip4 (l : list sort_key)
  : result (list float * list nat * list string * list string) :=
  match l with
  | [] => Raise ValueError
  | _ :: _ =>
      Ok (map (fun t => fst (fst (fst t))) l,
          map (fun t => snd (fst (fst t))) l,
          map (fun t => snd (fst t)) l,
          map (fun t => snd t) l)
  end.

Definition key_isnan (t : sort_key) : bool := f_isnan (fst (fst (fst t))).

(** [sorted] on the tuples of line 156.  Without a NaN mean [<] orders
    the tuples and the result is the stable sort; a list of fewer than two
    tuples comes back as it is. *)
Definition sorted_keys (w : World) (l : list sort_key) : list sort_key :=
  if (2 <=? length l) && existsb key_isnan l
  then sorted_with_nan w l
  else sorted tuple_ltb l.

(** Line 155-156, given the means of line 154. *)
Definition sort_methods (w : World) (sort_criterion : list float)
    (method_names method_dirs : list string)
  : result (list float * list nat * list string * list string) :=
  unzip4 (sorted_keys w
            (zip4 sort_criterion (seq 0 (length method_names)) method_names method_dirs)).

(** Lines 152-154. *)
Definition load_sort_criterion (w : World) (task_name metric_name : string)
    (method_names method_dirs : list string) : result (list float) :=
  mapM (fun p =>
          match load_metrics w (path_join4 (snd p) task_name "metrics" metric_name) with
          | Raise e => Raise e
          | Ok metric => Ok (np_mean w metric)
          end)
       (combine method_names method_dirs).

(** ** main: the metrics table (lines 149-206) *)

(** The local variables of [main] that outlive the table.  [method_ids]
    and [num_samples] are assigned on some paths only: [None] is an unbound
    name. *)
Record Locals : Type := mk_Locals {
  method_ids : option (list nat);
  method_names : list string;
  method_dirs : list string;
  num_samples : option nat
}.

(** Lines 149-157. *)
Definition main_sort (w : World) (args : Args) (names dirs : list string) : M Locals :=
  match sort_by args with
  | None => ret (mk_Locals None names dirs None)
  | Some (task_name, metric_name) =>
      sort_criterion <- lift (load_sort_criterion w task_name metric_name names dirs) ;;
      r <- lift (sort_methods w sort_criterion names dirs) ;;
      emit (AddHeader3 task_name metric_name) ;;;
      ret (mk_Locals (Some (snd (fst (fst r)))) (snd (fst r)) (snd r) None)
  end.

(** Lines 160-168: the (task name, metric name) pairs of the first method. *)
Definition infer_metric_names (w : World) (dirs : list string)
  : result (list (string * string)) :=
  match first dirs with
  | Raise e => Raise e
  | Ok dir0 =>
      mapM (fun metric_fname =>
              let (head, tail) := os_path_split metric_fname in
              match second_to_last (split_slash head) with
              | Raise e => Raise e
              | Ok task_name => Ok (task_name, fst (os_path_splitext tail))
              end)
           (sorted String.ltb (glob w (String.append (glob_escape dir0) "/*/metrics/*.csv")))
  end.

Definition se_span (args : Args) : nat := if show_se args then 2 else 1.

(** Lines 174-180. *)
Definition header_step (args : Args) (st : list string * list nat) (task_name : string)
  : list string * list nat :=
  if negb (String.eqb task_name (last (fst st) EmptyString))
  then (fst st ++ [task_name], snd st ++ [se_span args])
  else (fst st, removelast (snd st) ++ [last (snd st) 0 + se_span args]).

(** Lines 182-186. *)
Definition subheader_cells (args : Args) (pairs : list (string * string)) : list cell :=
  [CStr "id"; CStr "method"] ++
  flat_map (fun p =>
              CStr (String.append (snd p) " (mean)") ::
              (if show_se args then [CStr (String.append (snd p) " (se)")] else []))
           pairs.

(** Lines 192-200: the loop-carried variables are [metric_txts] and
    [num_samples]. *)
Definition metric_step (w : World) (args : Args) (method_dir : string)
    (p : string * string) (acc : list cell * option nat) : M (list cell * option nat) :=
  metric <- lift (load_metrics w (path_join4 method_dir (fst p) "metrics" (snd p))) ;;
  ret (fst acc ++ CMean4 (np_mean w metric) :: (if show_se args then [CSe4 metric] else []),
       Some (num_rows metric)).

(** Lines 189-202 for one method. *)
Definition method_step (w : World) (args : Args) (pairs : list (string * string))
    (m : nat * string * string) (ns : option nat) : M (option nat) :=
  acc <- for_each pairs (metric_step w args (snd m))
                  ([CInt (fst (fst m)); CStr (snd (fst m))], ns) ;;
  emit (AddRow (fst acc) None) ;;;
  ret (snd acc).

Definition zip3 (ids : list nat) (names dirs : list string) : list (nat * string * string) :=
  combine (combine ids names) dirs.

(** Lines 160-203. *)
Definition main_table (w : World) (args : Args) (loc : Locals) : M Locals :=
  pairs <- lift (infer_metric_names w (method_dirs loc)) ;;
  emit AddTable ;;;
  let hdr := fold_left (header_step args) (map fst pairs) ([EmptyString], [2]) in
  emit (AddRow (map CStr (fst hdr)) (Some (snd hdr))) ;;;
  emit (AddRow (subheader_cells args pairs) None) ;;;
  ids <- lift (match method_ids loc with
               | Some ids => Ok ids
               | None => Raise NameError
               end) ;;
  ns <- for_each (zip3 ids (method_names loc) (method_dirs loc))
                 (method_step w args pairs) (num_samples loc) ;;
  emit Save ;;;
  ret (mk_Locals (method_ids loc) (method_names loc) (method_dirs loc) ns).

(** ** main: the image sequences (lines 208-272) *)

Record Headers : Type := mk_Headers {
  header_txts : list string;
  subheader_txts : list string;
  header_colspans : list nat;
  subheader_colspans : list nat
}.

Record RowCells : Type := mk_RowCells {
  ims : list (option string);
  txts : list cell;
  links : list (option string)
}.

Definition cat (parts : list string) : string := String.concat EmptyString parts.

(** Line 236: the file name without extension and without its last nine
    characters. *)
Definition output_kind (output_fname : string) : string :=
  drop_last 9 (fst (os_path_splitext (os_path_basename output_fname))).

(** Lines 241-246 for one output name and one method; the loop-carried
    variables are [output_fnames] and [all_output_images]. *)
Definition output_step (w : World) (task_name : string) (sample_ind : nat)
    (output_name : string) (p : string * string)
    (acc : list string * list (list image)) : M (list string * list (list image)) :=
  let output_fnames :=
    sorted String.ltb
      (glob w (cat [glob_escape (path_join (snd p) task_name); "/outputs/";
                    output_name; "_"; fmt_05d sample_ind; "_??.jpg"]%string)) in
  output_images <- lift (load_images w output_fnames) ;;
  ret (output_fnames, snd acc ++ [output_images]).

(** Lines 225-264 for one task of one sample. *)
Definition task_step (w : World) (args : Args) (loc : Locals) (image_dir : string)
    (sample_ind : nat) (task_name : string) (st : Headers * RowCells)
  : M (Headers * RowCells) :=
  dir0 <- lift (first (method_dirs loc)) ;;
  let base0 := glob_escape (path_join dir0 task_name) in
  let input_fnames :=
    sorted String.ltb
      (glob w (cat [base0; "/inputs/*_"; fmt_05d sample_ind; "_??.jpg"]%string)) in
  input_images <- lift (load_images w input_fnames) ;;
  let input_fnames :=
    map (fun f => path_join3 task_name "inputs" (os_path_basename f)) input_fnames in
  save_images (map (path_join image_dir) input_fnames) input_images ;;;
  let output_fnames :=
    sorted String.ltb
      (glob w (cat [base0; "/outputs/*_"; fmt_05d sample_ind; "_??.jpg"]%string)) in
  let output_names := sorted_set (map output_kind output_fnames) in
  r <- for_each output_names
         (fun output_name =>
            for_each (combine (method_names loc) (method_dirs loc))
                     (output_step w task_name sample_ind output_name))
         (output_fnames, []) ;;
  all_output_images <- lift (concat_images (snd r)) ;;
  output_fname0 <- lift (first (fst r)) ;;
  let output_fname :=
    String.append (drop_last 3 (fst (os_path_splitext output_fname0))) ".gif" in
  (if use_ffmpeg args
   then ffmpeg_save_gif w (path_join image_dir output_fname) all_output_images
   else save_gif w (path_join image_dir output_fname) all_output_images) ;;;
  hdr <- (if sample_ind =? 0
          then
            ids <- lift (match method_ids loc with
                         | Some ids => Ok ids
                         | None => Raise NameError
                         end) ;;
            ret (mk_Headers
                   (header_txts (fst st) ++ [task_name])
                   (subheader_txts (fst st) ++
                      ["inputs"%string;
                       cat ["outputs (methods "; String.concat "," (map str_of_nat ids); ")"]%string])
                   (header_colspans (fst st) ++ [length input_fnames + 1])
                   (subheader_colspans (fst st) ++ [length input_fnames; 1]))
          else ret (fst st)) ;;
  ret (hdr,
       mk_RowCells
         (ims (snd st) ++ map Some input_fnames ++ [Some output_fname])
         (txts (snd st) ++ repeat CNone (length input_fnames + 1))
         (links (snd st) ++ map Some input_fnames ++ [Some output_fname])).

(** Lines 219-271 for one sample. *)
Definition sample_step (w : World) (args : Args) (loc : Locals) (image_dir : string)
    (task_names : list string) (sample_ind : nat) (hdr : Headers) : M Headers :=
  _ <- lift (if (batch_size args =? 0)%Z then Raise ZeroDivisionError else Ok tt) ;;
  (if (Z.of_nat sample_ind mod batch_size args =? 0)%Z
   then emit (PrintProgress (Z.of_nat sample_ind) (Z.of_nat sample_ind + batch_size args))
   else ret tt) ;;;
  st <- for_each task_names (task_step w args loc image_dir sample_ind)
                 (hdr, mk_RowCells [None] [CInt sample_ind] [None]) ;;
  (if sample_ind =? 0
   then
     emit (AddRow (map CStr (header_txts (fst st))) (Some (header_colspans (fst st)))) ;;;
     emit (AddRow (map CStr (subheader_txts (fst st))) (Some (subheader_colspans (fst st))))
   else ret tt) ;;;
  emit (AddImages (ims (snd st)) (txts (snd st)) (links (snd st))) ;;;
  (if (Z.of_nat (sample_ind + 1) mod batch_size args =? 0)%Z
   then emit Save
   else ret tt) ;;;
  ret (fst st).

Definition the_web_dir (args : Args) : string :=
  match web_dir args with
  | Some d => d
  | None => path_join (results_dir args) "web"
  end.

(** Lines 208-272. *)
Definition main_images (w : World) (args : Args) (loc : Locals) : M unit :=
  dir0 <- lift (first (method_dirs loc)) ;;
  task_names <- lift (mapM (fun outputs_dir => second_to_last (split_slash outputs_dir))
                           (sorted String.ltb
                              (glob w (String.append (glob_escape dir0) "/*/outputs")))) ;;
  let image_dir := path_join (the_web_dir args) "images" in
  emit AddTable ;;;
  n <- lift (match num_samples loc with
             | Some n => Ok n
             | None => Raise NameError
             end) ;;
  _ <- for_each (seq 0 n) (sample_step w args loc image_dir task_names)
                (mk_Headers [EmptyString] ["id"%string] [1] [1]) ;;
  emit Save.

(** ** main (lines 112-272) *)

Definition main (w : World) (args : Args) : M unit :=
  emit AddHeader1 ;;;
  nd <- lift (discover_methods w args) ;;
  loc <- main_sort w args (fst nd) (snd nd) ;;
  loc <- main_table w args loc ;;
  if only_metrics args then ret tt else main_images w args loc.

(** The exit status of the interpreter: 0 when [main] returns, 1 when an
    exception escapes it. *)
Definition exit_status (r : result unit * log) : nat :=
  match fst r with
  | Ok _ => 0
  | Raise _ => 1
  end.

Definition run (w : World) (args : Args) : result unit * log := main w args [].

(** ** A small results directory

    Two methods [a] and [b] under [r], one task [pred] with one metric
    [mse] over three samples; each sample has one input frame and two output
    frames of kind [gen]. *)

Fixpoint assoc {B} (d : B) (tbl : list (string * B)) (k : string) : B :=
  match tbl with
  | [] => d
  | (k', v) :: r => if String.eqb k k' then v else assoc d r k
  end.

Definition ex_files : list (string * option image) :=
  [("r/a/pred/metrics/mse.csv", None);
   ("r/b/pred/metrics/mse.csv", None);
   ("r/b/pred/inputs/in_00000_00.jpg", Some (mk_image 8 8));
   ("r/b/pred/inputs/in_00001_00.jpg", Some (mk_image 8 8));
   ("r/b/pred/inputs/in_00002_00.jpg", Some (mk_image 8 8));
   ("r/a/pred/outputs/gen_00000_00.jpg", Some (mk_image 10 10));
   ("r/a/pred/outputs/gen_00000_01.jpg", Some (mk_image 10 10));
   ("r/a/pred/outputs/gen_00001_00.jpg", Some (mk_image 10 10));
   ("r/a/pred/outputs/gen_00001_01.jpg", Some (mk_image 10 10));
   ("r/a/pred/outputs/gen_00002_00.jpg", Some (mk_image 10 10));
   ("r/a/pred/outputs/gen_00002_01.jpg", Some (mk_image 10 10));
   ("r/b/pred/outputs/gen_00000_00.jpg", Some (mk_image 8 8));
   ("r/b/pred/outputs/gen_00000_01.jpg", Some (mk_image 8 8));
   ("r/b/pred/outputs/gen_00001_00.jpg", Some (mk_image 8 8));
   ("r/b/pred/outputs/gen_00001_01.jpg", Some (mk_image 8 8));
   ("r/b/pred/outputs/gen_00002_00.jpg", Some (mk_image 8 8));
   ("r/b/pred/outputs/gen_00002_01.jpg", Some (mk_image 8 8))]%string.

Definition ex_csv : list (string * list (list string)) :=
  [("r/a/pred/metrics/mse.csv",
    [["id"; "t0"; "t1"; "mean"]; ["0"; "1"; "3"; "2"]; ["1"; "2"; "4"; "3"];
     ["2"; "3"; "2"; "2.5"]]);
   ("r/b/pred/metrics/mse.csv",
    [["id"; "t0"; "t1"; "mean"]; ["0"; "0"; "1"; "0.5"]; ["1"; "1"; "2"; "1.5"];
     ["2"; "1"; "1"; "1"]])]%string.

Definition ex_floats : list (string * option float) :=
  [("0", Some (Num 0)); ("1", Some (Num 1)); ("2", Some (Num 2)); ("3", Some (Num 3));
   ("4", Some (Num 4)); ("0.5", Some (Num (1 # 2))); ("1.5", Some (Num (3 # 2)));
   ("2.5", Some (Num (5 # 2)))]%string.

(** The float32 sum taken from left to right, starting from 0. *)
Definition sum_left (a : list float) : float := fold_left (f_add binary32) a (Num 0).


Definition ex_glob : list (string * list string) :=
  [("r/a/*/metrics/*.csv", ["r/a/pred/metrics/mse.csv"]);
   ("r/b/*/metrics/*.csv", ["r/b/pred/metrics/mse.csv"]);
   ("r/a/*/outputs", ["r/a/pred/outputs"]);
   ("r/b/*/outputs", ["r/b/pred/outputs"]);
   ("r/b/pred/inputs/*_00000_??.jpg", ["r/b/pred/inputs/in_00000_00.jpg"]);
   ("r/b/pred/inputs/*_00001_??.jpg", ["r/b/pred/inputs/in_00001_00.jpg"]);
   ("r/b/pred/inputs/*_00002_??.jpg", ["r/b/pred/inputs/in_00002_00.jpg"]);
   ("r/b/pred/outputs/*_00000_??.jpg",
    ["r/b/pred/outputs/gen_00000_01.jpg"; "r/b/pred/outputs/gen_00000_00.jpg"]);
   ("r/b/pred/outputs/*_00001_??.jpg",
    ["r/b/pred/outputs/gen_00001_01.jpg"; "r/b/pred/outputs/gen_00001_00.jpg"]);
   ("r/b/pred/outputs/*_00002_??.jpg",
    ["r/b/pred/outputs/gen_00002_01.jpg"; "r/b/pred/outputs/gen_00002_00.jpg"]);
   ("r/a/pred/outputs/gen_00000_??.jpg",
    ["r/a/pred/outputs/gen_00000_00.jpg"; "r/a/pred/outputs/gen_00000_01.jpg"]);
   ("r/a/pred/outputs/gen_00001_??.jpg",
    ["r/a/pred/outputs/gen_00001_00.jpg"; "r/a/pred/outputs/gen_00001_01.jpg"]);
   ("r/a/pred/outputs/gen_00002_??.jpg",
    ["r/a/pred/outputs/gen_00002_00.jpg"; "r/a/pred/outputs/gen_00002_01.jpg"]);
   ("r/b/pred/outputs/gen_00000_??.jpg",
    ["r/b/pred/outputs/gen_00000_00.jpg"; "r/b/pred/outputs/gen_00000_01.jpg"]);
   ("r/b/pred/outputs/gen_00001_??.jpg",
    ["r/b/pred/outputs/gen_00001_00.jpg"; "r/b/pred/outputs/gen_00001_01.jpg"]);
   ("r/b/pred/outputs/gen_00002_??.jpg",
    ["r/b/pred/outputs/gen_00002_00.jpg"; "r/b/pred/outputs/gen_00002_01.jpg"])]%string.

(** The example worlds run numpy 1.24 or later, add from left to right,
    and their [sorted] leaves tuples with a NaN mean where they stand. *)
Definition ex_world : World :=
  mk_World
    (fun p => existsb (fun e => String.eqb p (fst e)) ex_files)
    (assoc None ex_files)
    (assoc [] ex_csv)
    (assoc None ex_floats)
    true
    sum_left
    (fun l => l)
    (fun d => if String.eqb d "r" then Some ["b"; "web"; "a"]%string else None)
    (assoc [] ex_glob)
    (fun _ _ => 0)
    (fun _ _ => Ok tt).

(** [combine_results.py r --sort_by pred mse] *)
Definition ex_args_sorted : Args :=
  mk_Args "r" None None None (Some ("pred", "mse")%string) false 16 false false.

(** [combine_results.py r] *)
Definition ex_args_plain : Args :=
  mk_Args "r" None None None None false 16 false false.

(** ** Vocabulary of the statements *)

(** Frame sequences used as examples: two sequences of two frames with
    sizes (10,10) and (8,12); the same with a square smaller size; and a
    sequence of two frames next to one of three, of different sizes. *)
Definition ex_10_8 : list (list image) :=
  [[mk_image 10 10; mk_image 10 10]; [mk_image 8 12; mk_image 8 12]].

(** The first example with its sizes read as (width, height). *)
Definition ex_10_8_wh : list (list image) :=
  [[mk_image 10 10; mk_image 10 10]; [mk_image 12 8; mk_image 12 8]].

Definition ex_10_8_square : list (list image) :=
  [[mk_image 10 10; mk_image 10 10]; [mk_image 8 8; mk_image 8 8]].

Definition ex_2_3_mixed : list (list image) :=
  [[mk_image 8 10; mk_image 8 10]; [mk_image 10 10; mk_image 10 10; mk_image 10 10]].

(** [a] may stand before [b] in the output of [sorted]: [b < a] is false. *)
Definition not_after {A} (ltb : A -> A -> bool) (a b : A) : Prop := ltb b a = false.

Definition string_le (a b : string) : Prop := String.leb a b = true.

(** The directories that method discovery orders: the listing without the
    report directory. *)
Definition candidates (listing : list string) : list string := list_remove "web" listing.

(** Those of [ground_truth], [repeat] that the listing contains, in this
    order. *)
Definition present_first (listing : list string) : list string :=
  filter (fun f => in_list f listing) ["ground_truth"; "repeat"]%string.

Definition idx (t : sort_key) : nat := snd (fst (fst t)).

(** The tuple line 156 builds for the method of original index [i]. *)
Definition tuple_of (crit : list float) (names dirs : list string) (i : nat) : sort_key :=
  (nth i crit (Num 0), i, nth i names EmptyString, nth i dirs EmptyString).

(** The order of the floats that are numbers or infinities. *)
Definition f_lt (a b : float) : Prop := f_ltb a b = true.
Definition f_eq (a b : float) : Prop := f_eqb a b = true.
Definition f_le (a b : float) : Prop := f_lt a b \/ f_eq a b.

Definition not_nan (a : float) : Prop := f_isnan a = false.

(** Method [i] stands before method [j]: smaller mean, or equal mean and
    smaller original index. *)
Definition key_before (crit : list float) (i j : nat) : Prop :=
  f_lt (nth i crit (Num 0)) (nth j crit (Num 0)) \/
  (f_eq (nth i crit (Num 0)) (nth j crit (Num 0)) /\ i < j).

Definition key_le (a b : sort_key) : Prop :=
  f_lt (fst (fst (fst a))) (fst (fst (fst b))) \/
  (f_eq (fst (fst (fst a))) (fst (fst (fst b))) /\ idx a <= idx b).





(** The sample indices of the image rows of a report: the first caption of
    each [add_images] call. *)
Definition sample_rows (s : log) : list nat :=
  flat_map (fun e => match e with
                     | AddImages _ (CInt i :: _) _ => [i]
                     | _ => []
                     end) s.

Definition is_add_images (e : event) : bool :=
  match e with AddImages _ _ _ => true | _ => false end.

(** Computations that add no image row to the report. *)
Definition quiet {A} (m : M A) : Prop :=
  forall s r s', m s = (r, s') -> sample_rows s' = sample_rows s.

Fixpoint last_opt {A} (l : list A) : option A :=
  match l with
  | [] => None
  | x :: r =>
      match r with
      | [] => Some x
      | _ :: _ => last_opt r
      end
  end.

(** The file prefix line 193 loads for a method directory and a
    (task, metric) pair. *)
Definition metrics_path (method_dir : string) (p : string * string) : string :=
  path_join4 method_dir (fst p) "metrics" (snd p).

(** The local variables of the example run after line 157 and after the
    metrics table, and the log after the metrics table. *)
Definition ex_locals : Locals :=
  mk_Locals (Some [1; 0]) ["b"; "a"]%string ["r/b"; "r/a"]%string None.

Definition ex_locals_after : Locals :=
  mk_Locals (Some [1; 0]) ["b"; "a"]%string ["r/b"; "r/a"]%string (Some 3).

Definition ex_log_after : log :=
  snd (main_table ex_world ex_args_sorted ex_locals [AddHeader1; AddHeader3 "pred" "mse"]).



(** ** Vocabulary of further statements *)

(** Two sequences of two frames whose first frames have the minimal shape
    and whose second frames do not; and sequences of 2 and 3 frames of one
    shape. *)
Definition ex_per_step : list (list image) :=
  [[mk_image 8 10; mk_image 10 10]; [mk_image 8 10; mk_image 10 10]].

Definition ex_2_3_same : list (list image) :=
  [[mk_image 8 8; mk_image 8 8]; [mk_image 8 8; mk_image 8 8; mk_image 8 8]].

(** A world in which every file exists and holds the given table. *)
Definition world_of_csv (rows : list (list string)) : World :=
  mk_World (fun _ => true) (fun _ => None) (fun _ => rows) (assoc None ex_floats)
           true sum_left (fun l => l)
           (fun _ => None) (fun _ => []) (fun _ _ => 0) (fun _ _ => Ok tt).

(** The same under a numpy before 1.24. *)
Definition world_of_csv_old_numpy (rows : list (list string)) : World :=
  mk_World (fun _ => true) (fun _ => None) (fun _ => rows) (assoc None ex_floats)
           false sum_left (fun l => l)
           (fun _ => None) (fun _ => []) (fun _ _ => 0) (fun _ _ => Ok tt).

(** The header row of the metrics table (lines 172-180): names and column
    spans. *)
Definition table_header (args : Args) (task_names : list string) : list string * list nat :=
  fold_left (header_step args) task_names ([EmptyString], [2]).

(** The cells lines 197-199 append for one metric. *)
Definition metric_cells (w : World) (args : Args) (metric : matrix) : list cell :=
  CMean4 (np_mean w metric) :: (if show_se args then [CSe4 metric] else []).

(** [m] only appends events that satisfy [P] to the log. *)
Definition only_emits {A} (P : event -> Prop) (m : M A) : Prop :=
  forall s r s', m s = (r, s') -> exists t, s' = s ++ t /\ Forall P t.

(** Events of the image phase: image rows, files written, progress lines. *)
Definition is_image_event (e : event) : bool :=
  match e with
  | AddImages _ _ _ | WriteJpg _ _ | WriteGif _ _ | PrintProgress _ _ => true
  | _ => false
  end.

Definition is_save (e : event) : bool :=
  match e with Save => true | _ => false end.

Definition count_saves (s : log) : nat := length (filter is_save s).

(** An image row whose images, captions and links line up. *)
Definition aligned (e : event) : Prop :=
  match e with
  | AddImages ims txts links => ims = links /\ length txts = length ims
  | _ => True
  end.

(** The metrics file of a (task, metric) pair under a method directory, as
    the layout names it. *)
Definition metric_file (method_dir : string) (p : string * string) : string :=
  cat [method_dir; "/"; fst p; "/metrics/"; snd p; ".csv"]%string.

(** A task name without slash and not empty; a metric name without slash
    that does not consist of dots only. *)
Definition well_named (p : string * string) : Prop :=
  fst p <> EmptyString /\ ~ In slash (chars (fst p)) /\
  ~ In slash (chars (snd p)) /\
  exists c, In c (chars (snd p)) /\ c <> dot.

(** A world whose every glob pattern matches the given files. *)
Definition world_of_glob (files : list string) : World :=
  mk_World (fun _ => true) (fun _ => None) (fun _ => []) (fun _ => None)
           true sum_left (fun l => l)
           (fun _ => None) (fun _ => files) (fun _ _ => 0) (fun _ _ => Ok tt).

Definition ex_found : list (string * string) :=
  [("pred", "ssim"); ("pred", "mse"); ("eval", "psnr")]%string.

(** The glob patterns of lines 227-228 and 234-235 for the first method
    directory, and the paths under the image directory of line 231-232. *)
Definition inputs_pattern (dir0 task_name : string) (sample_ind : nat) : string :=
  cat [glob_escape (path_join dir0 task_name); "/inputs/*_"; fmt_05d sample_ind;
       "_??.jpg"]%string.

Definition outputs_pattern (dir0 task_name : string) (sample_ind : nat) : string :=
  cat [glob_escape (path_join dir0 task_name); "/outputs/*_"; fmt_05d sample_ind;
       "_??.jpg"]%string.

Definition web_input_fnames (image_dir task_name : string) (input_fnames : list string)
  : list string :=
  map (path_join image_dir)
      (map (fun f => path_join3 task_name "inputs" (os_path_basename f)) input_fnames).

(** The example world with one input frame of sample 0 and no output
    frames. *)
Definition ex_world_inputs_only : World :=
  mk_World (isfile ex_world) (image_data ex_world) (csv_rows ex_world)
           (float32_of_str ex_world) true sum_left (fun l => l) (listdir ex_world)
           (fun p => if String.eqb p "r/b/pred/inputs/*_00000_??.jpg"
                     then ["r/b/pred/inputs/in_00000_00.jpg"%string] else [])
           (fun _ _ => 0) (fun _ _ => Ok tt).

Definition ex_row_start (sample_ind : nat) : Headers * RowCells :=
  (mk_Headers [EmptyString] ["id"%string] [1] [1],
   mk_RowCells [None] [CInt sample_ind] [None]).

(** * Properties *)

(** ** Loops that build lists *)

Lemma mapM_length {A B} (f : A -> result B) l l' :
  mapM f l = Ok l' -> length l' = length l.
Proof.
  revert l'; induction l as [|x r IH]; simpl; intros l' H.
  - injection H as <-; reflexivity.
  - destruct (f x); [|discriminate].
    destruct (mapM f r); [|discriminate].
    injection H as <-; simpl; f_equal; auto.
Qed.

Lemma mapM_ok_map {A B} (f : A -> result B) (g : A -> B) l :
  (forall x, In x l -> f x = Ok (g x)) -> mapM f l = Ok (map g l).
Proof.
  induction l as [|x r IH]; simpl; intros H; [reflexivity|].
  rewrite (H x (or_introl eq_refl)), IH; auto.
Qed.

Lemma mapM_Forall2 {A B} (f : A -> result B) l l' :
  mapM f l = Ok l' -> Forall2 (fun x y => f x = Ok y) l l'.
Proof.
  revert l'; induction l as [|x r IH]; simpl; intros l' H.
  - injection H as <-; constructor.
  - destruct (f x) eqn:E; [|discriminate].
    destruct (mapM f r); [|discriminate].
    injection H as <-; constructor; auto.
Qed.

Lemma mapM_raise {A B} (f : A -> result B) l e x :
  In x l -> f x = Raise e -> (forall y e', f y = Raise e' -> e' = e) ->
  mapM f l = Raise e.
Proof.
  intros Hin Hx Hall; induction l as [|y r IH]; simpl in *; [contradiction|].
  destruct (f y) eqn:E.
  - destruct Hin as [->|Hin]; [congruence|].
    rewrite (IH Hin); reflexivity.
  - f_equal; eauto.
Qed.

Lemma mapM_total {A B} (f : A -> result B) l :
  (forall x, In x l -> exists y, f x = Ok y) -> exists l', mapM f l = Ok l'.
Proof.
  induction l as [|x r IH]; simpl; intros H; [eauto|].
  destruct (H x (or_introl eq_refl)) as (y & ->).
  destruct IH as (ys & ->); eauto.
Qed.

(** ** concat_images *)

Lemma zip_star_length {A} (ls : list (list A)) :
  length (zip_star ls) = min_len ls.
Proof.
  induction ls as [|l ls' IH]; [reflexivity|].
  destruct ls' as [|l' ls''].
  - simpl; apply length_map.
  - change (zip_star (l :: l' :: ls'')) with
      (map (fun p => fst p :: snd p) (combine l (zip_star (l' :: ls'')))).
    rewrite length_map, length_combine, IH. reflexivity.
Qed.

Lemma zip_star_tuples {A} (ls : list (list A)) t :
  In t (zip_star ls) ->
  length t = length ls /\ forall x, In x t -> In x (concat ls).
Proof.
  revert t; induction ls as [|l ls' IH]; intros t Hin; [contradiction|].
  destruct ls' as [|l' ls''].
  - simpl in Hin. apply in_map_iff in Hin as (x & <- & Hx).
    split; [reflexivity|]. intros y [<-|[]]. simpl. rewrite app_nil_r; exact Hx.
  - change (zip_star (l :: l' :: ls'')) with
      (map (fun p => fst p :: snd p) (combine l (zip_star (l' :: ls'')))) in Hin.
    apply in_map_iff in Hin as ([x t'] & <- & Hp).
    pose proof (in_combine_l _ _ _ _ Hp) as Hx.
    pose proof (in_combine_r _ _ _ _ Hp) as Ht.
    destruct (IH _ Ht) as [Hlen Hsub].
    split; [simpl; f_equal; exact Hlen|].
    change (concat (l :: l' :: ls'')) with (l ++ concat (l' :: ls'')).
    intros y [<-|Hy]; apply in_or_app; [left; exact Hx | right; apply Hsub; exact Hy].
Qed.

Lemma min_len_uniform {A} (ls : list (list A)) L :
  ls <> [] -> Forall (fun s => length s = L) ls -> min_len ls = L.
Proof.
  induction ls as [|l ls' IH]; intros Hne HF; [congruence|].
  inversion HF as [|? ? Hl HF']; subst.
  destruct ls' as [|l' ls'']; [reflexivity|].
  change (min_len (l :: l' :: ls'')) with (Nat.min (length l) (min_len (l' :: ls''))).
  rewrite IH; [apply Nat.min_id | discriminate | exact HF'].
Qed.

Lemma min_len_same_lengths {A B} (ls : list (list A)) (ls' : list (list B)) :
  Forall2 (fun s s' => length s' = length s) ls ls' -> min_len ls' = min_len ls.
Proof.
  induction 1 as [|s s' r r' Hs Hr IH]; [reflexivity|].
  destruct Hr as [|t t' q q' Ht Hq]; [simpl; exact Hs|].
  change (Nat.min (length s') (min_len (t' :: q')) = Nat.min (length s) (min_len (t :: q))).
  rewrite IH, Hs. reflexivity.
Qed.

Lemma min_shape_concat ims :
  min_shape ims = fold_left min_step (concat ims) (None, None).
Proof.
  unfold min_shape. generalize (@None nat, @None nat).
  induction ims as [|s r IH]; intros acc; simpl; [reflexivity|].
  rewrite fold_left_app. apply IH.
Qed.

Lemma fold_min_step_some l mh mw :
  exists mh' mw',
    fold_left min_step l (Some mh, Some mw) = (Some mh', Some mw') /\
    mh' <= mh /\ mw' <= mw /\
    (forall im, In im l -> mh' <= height im /\ mw' <= width im) /\
    (mh' = mh \/ exists im, In im l /\ height im = mh') /\
    (mw' = mw \/ exists im, In im l /\ width im = mw').
Proof.
  revert mh mw; induction l as [|im r IH]; intros mh mw; simpl.
  - exists mh, mw. split; [reflexivity|]. split; [lia|]. split; [lia|].
    split; [intros ? []|]. split; left; reflexivity.
  - destruct (IH (Nat.min mh (height im)) (Nat.min mw (width im)))
      as (mh' & mw' & E & Hh & Hw & Hall & Eh & Ew).
    exists mh', mw'; rewrite E; split; [reflexivity|].
    split; [lia|]. split; [lia|]. split; [|split].
    + intros im' [<-|Hin]; [lia | auto].
    + destruct Eh as [->|(im' & Hin & Him)]; [|right; eauto].
      destruct (Nat.min_spec mh (height im)) as [[_ ->]|[_ ->]]; [left; reflexivity|].
      right; exists im; auto.
    + destruct Ew as [->|(im' & Hin & Him)]; [|right; eauto].
      destruct (Nat.min_spec mw (width im)) as [[_ ->]|[_ ->]]; [left; reflexivity|].
      right; exists im; auto.
Qed.

(** The double loop of lines 90-96 computes the two global minima. *)
Lemma min_shape_spec ims :
  match concat ims with
  | [] => min_shape ims = (None, None)
  | _ :: _ => exists mh mw, min_shape ims = (Some mh, Some mw) /\
                            is_min height ims mh /\ is_min width ims mw
  end.
Proof.
  rewrite min_shape_concat. unfold is_min.
  destruct (concat ims) as [|im r]; [reflexivity|].
  simpl.
  destruct (fold_min_step_some r (height im) (width im))
    as (mh & mw & E & Hh & Hw & Hall & Eh & Ew).
  exists mh, mw; rewrite E; split; [reflexivity|]. split; split.
  - destruct Eh as [->|(im' & Hin & Him)]; [exists im; auto | exists im'; auto].
  - intros im' [<-|Hin]; [lia | apply Hall; exact Hin].
  - destruct Ew as [->|(im' & Hin & Him)]; [exists im; auto | exists im'; auto].
  - intros im' [<-|Hin]; [lia | apply Hall; exact Hin].
Qed.

Lemma is_min_unique f ims m m' : is_min f ims m -> is_min f ims m' -> m = m'.
Proof.
  intros [(a & Ha & <-) Hle] [(b & Hb & <-) Hle'].
  specialize (Hle _ Hb); specialize (Hle' _ Ha); lia.
Qed.

Lemma resize_pass mins (g : image -> image) ims :
  (forall im, In im (concat ims) -> maybe_resize mins im = Ok (g im)) ->
  mapM (mapM (maybe_resize mins)) ims = Ok (map (map g) ims).
Proof.
  intros H. apply mapM_ok_map. intros s Hs. apply mapM_ok_map.
  intros im Him. apply H. apply in_concat. exists s; auto.
Qed.

Lemma sum_widths_uniform c rest w0 :
  (forall b, In b rest -> b = c) ->
  fold_left (fun w b => w + width b) rest w0 = w0 + width c * length rest.
Proof.
  revert w0; induction rest as [|b r IH]; intros w0 H; simpl; [lia|].
  rewrite IH by (intros; apply H; right; assumption).
  rewrite (H b (or_introl eq_refl)). lia.
Qed.

Lemma np_concatenate_uniform c t :
  t <> [] -> (forall b, In b t -> b = c) ->
  np_concatenate_axis1 t = Ok (mk_image (height c) (width c * length t)).
Proof.
  destruct t as [|a rest]; [congruence|]. intros _ H. simpl.
  assert (Ha : a = c) by (apply H; left; reflexivity). subst a.
  replace (forallb (fun b => height b =? height c) rest) with true.
  - rewrite (sum_widths_uniform c) by (intros; apply H; right; assumption).
    do 2 f_equal. lia.
  - symmetry. apply forallb_forall. intros b Hb.
    rewrite (H b (or_intror Hb)). apply Nat.eqb_refl.
Qed.

(** A frame that already has the minimal shape is kept; with equal minima
    the swapped arguments of [cv2.resize] do not show. *)
Lemma maybe_resize_fits mh mw im :
  shape im = (mh, mw) \/ (mh = mw /\ 0 < mh /\ positive im) ->
  maybe_resize (Some mh, Some mw) im = Ok (mk_image mh mw).
Proof.
  unfold maybe_resize, shape_eqb, shape, positive. simpl. intros [E|(-> & Hm & Hh & Hw)].
  - injection E as <- <-. rewrite !Nat.eqb_refl. simpl. destruct im; reflexivity.
  - destruct ((height im =? mw) && (width im =? mw)) eqn:E.
    + apply andb_true_iff in E as [E1 E2].
      apply Nat.eqb_eq in E1, E2. destruct im; simpl in *; subst; reflexivity.
    + unfold cv2_resize. simpl.
      destruct mw; [lia|]. destruct (height im); [lia|]. destruct (width im); [lia|].
      reflexivity.
Qed.

(** Whenever [concat_images] returns, it returns as many frames as the
    shortest sequence has. *)
Lemma concat_images_length ims frames :
  concat_images ims = Ok frames -> length frames = min_len ims.
Proof.
  unfold concat_images. intros H.
  destruct (mapM (mapM (maybe_resize (min_shape ims))) ims) as [resized|] eqn:E;
    [|discriminate].
  rewrite (mapM_length _ _ _ H), zip_star_length.
  apply min_len_same_lengths.
  apply mapM_Forall2 in E. eapply Forall2_impl; [|exact E].
  intros s s' Hs. simpl in Hs. apply (mapM_length _ _ _ Hs).
Qed.

(** Sequences of any lengths whose frames need no resize, or whose two
    minima coincide, are composed into frames of the minimal height and of
    the minimal width times the number of sequences. *)
Lemma concat_images_fits ims :
  ims <> [] ->
  (forall mh mw, is_min height ims mh -> is_min width ims mw ->
     Forall (Forall (fun im => shape im = (mh, mw))) ims \/
     (mh = mw /\ Forall (Forall positive) ims)) ->
  exists frames,
    concat_images ims = Ok frames /\
    length frames = min_len ims /\
    forall mh mw, is_min height ims mh -> is_min width ims mw ->
      Forall (fun f => height f = mh /\ width f = mw * length ims) frames.
Proof.
  intros Hne Hfit.
  assert (Hg : exists c, forall im, In im (concat ims) ->
                 maybe_resize (min_shape ims) im = Ok c /\
                 forall mh mw, is_min height ims mh -> is_min width ims mw ->
                               c = mk_image mh mw).
  { pose proof (min_shape_spec ims) as Hm.
    destruct (concat ims) as [|im0 r] eqn:Ec.
    - exists (mk_image 0 0). intros ? [].
    - destruct Hm as (mh & mw & Em & Hh & Hw).
      exists (mk_image mh mw). intros im Him. split.
      + rewrite Em. apply maybe_resize_fits.
        rewrite <- Ec in Him.
        destruct (Hfit mh mw Hh Hw) as [Hu|[-> Hp]].
        * left. apply in_concat in Him as (s & Hs & Him).
          rewrite Forall_forall in Hu. specialize (Hu s Hs).
          rewrite Forall_forall in Hu. auto.
        * assert (Hpos : forall im', In im' (concat ims) -> positive im').
          { intros im' Him'. apply in_concat in Him' as (s & Hs & Him').
            rewrite Forall_forall in Hp. specialize (Hp s Hs).
            rewrite Forall_forall in Hp. auto. }
          right. split; [reflexivity|]. split; [|auto].
          destruct Hh as [(a & Ha & <-) _]. apply (Hpos a Ha).
      + intros mh' mw' Hh' Hw'.
        rewrite (is_min_unique _ _ _ _ Hh Hh'), (is_min_unique _ _ _ _ Hw Hw').
        reflexivity. }
  destruct Hg as (c & Hc).
  assert (E : concat_images ims =
              Ok (map (fun _ => mk_image (height c) (width c * length ims))
                      (zip_star (map (map (fun _ : image => c)) ims)))).
  { unfold concat_images.
    rewrite (resize_pass _ (fun _ => c)) by (intros im Him; apply Hc; exact Him).
    apply mapM_ok_map. intros t Ht. apply zip_star_tuples in Ht as [Hl Hsub].
    rewrite length_map in Hl. rewrite <- Hl.
    apply np_concatenate_uniform.
    - destruct t; [|discriminate]. destruct ims; [congruence|discriminate].
    - intros b Hb. apply Hsub in Hb. apply in_concat in Hb as (s & Hs & Hb).
      apply in_map_iff in Hs as (s0 & <- & _).
      apply in_map_iff in Hb as (? & <- & _). reflexivity. }
  eexists; split; [exact E|]. split.
  - apply concat_images_length. exact E.
  - intros mh mw Hh Hw. apply Forall_forall. intros f Hf.
    apply in_map_iff in Hf as (t & <- & Ht). simpl.
    destruct Hh as [(a & Ha & Ea) Hle].
    destruct (Hc a Ha) as [_ Hcm].
    rewrite (Hcm mh mw (conj (ex_intro _ a (conj Ha Ea)) Hle) Hw). simpl. auto.
Qed.

(** C1 (amended).  For every non-empty list of N frame sequences of equal
    length L in which no frame needs a resize (all frames have the size
    (minH, minW)) or in which minH = minW and all frames are non-empty,
    [concat_images] returns exactly L composite frames, each of height minH
    and width minW * N, where minH and minW are the minima over all frames
    of all sequences.  For the sizes (10,10) and (8,12) these minima are
    minH = 8 and minW = 10. *)
Theorem concat_images_size :
  (forall ims L,
     ims <> [] ->
     Forall (fun s => length s = L) ims ->
     (forall mh mw, is_min height ims mh -> is_min width ims mw ->
        Forall (Forall (fun im => shape im = (mh, mw))) ims \/
        (mh = mw /\ Forall (Forall positive) ims)) ->
     exists frames,
       concat_images ims = Ok frames /\
       length frames = L /\
       forall mh mw, is_min height ims mh -> is_min width ims mw ->
         Forall (fun f => height f = mh /\ width f = mw * length ims) frames) /\
  (is_min height ex_10_8 8 /\ is_min width ex_10_8 10).
Proof.
  split.
  - intros ims L Hne Hlen Hfit.
    destruct (concat_images_fits ims Hne Hfit) as (frames & E & Hl & Hsz).
    exists frames. split; [exact E|]. split; [|exact Hsz].
    rewrite Hl. apply min_len_uniform; assumption.
  - unfold is_min, ex_10_8; simpl. split; split.
    + exists (mk_image 8 12); simpl; auto.
    + intros im H; repeat (destruct H as [<-|H]; [simpl; lia|]); contradiction.
    + exists (mk_image 10 10); simpl; auto.
    + intros im H; repeat (destruct H as [<-|H]; [simpl; lia|]); contradiction.
Qed.

Lemma concat_images_size_witness :
  exists frames,
    concat_images ex_10_8_square = Ok frames /\ length frames = 2 /\
    forall mh mw, is_min height ex_10_8_square mh -> is_min width ex_10_8_square mw ->
      Forall (fun f => height f = mh /\ width f = mw * length ex_10_8_square) frames.
Proof.
  apply (proj1 concat_images_size ex_10_8_square 2).
  - discriminate.
  - repeat constructor.
  - intros mh mw Hh Hw. right. split.
    + assert (is_min height ex_10_8_square 8 /\ is_min width ex_10_8_square 8) as [H1 H2].
      { unfold is_min, ex_10_8_square; simpl. split; split.
        - exists (mk_image 8 8); simpl; auto.
        - intros im H; repeat (destruct H as [<-|H]; [simpl; lia|]); contradiction.
        - exists (mk_image 8 8); simpl; auto.
        - intros im H; repeat (destruct H as [<-|H]; [simpl; lia|]); contradiction. }
      rewrite (is_min_unique _ _ _ _ Hh H1), (is_min_unique _ _ _ _ Hw H2). reflexivity.
    + unfold positive; repeat constructor; simpl; lia.
Defined.

(** On the sizes (10,10) and (8,12) the script returns two frames of size
    (10,16): neither (8,16) nor (minH, minW * 2) = (8,20).  With the sizes
    read as (width, height) it returns frames of height 8 and width 20. *)
Lemma concat_images_claimed_example :
  concat_images ex_10_8 = Ok [mk_image 10 16; mk_image 10 16] /\
  ~ (exists frames, concat_images ex_10_8 = Ok frames /\
                    Forall (fun f => height f = 8 /\ width f = 16) frames /\
                    length frames = 2) /\
  concat_images ex_10_8_wh = Ok [mk_image 8 20; mk_image 8 20].
Proof.
  split; [reflexivity|]. split; [|reflexivity].
  intros (frames & E & HF & _). vm_compute in E. injection E as <-.
  inversion HF as [|? ? [H _] _]. simpl in H. discriminate.
Qed.

(** C7.  The sequences of [ex_2_3_mixed] have 2 and 3 frames, so two
    composite frames are due; the script raises instead.  The frames of
    the second sequence are resized to shape (10,8), since [cv2.resize]
    reads its size argument as (width, height), and cannot be put next to
    the frames of shape (8,10). *)
Theorem concat_images_mixed_sizes_raise :
  min_len ex_2_3_mixed = 2 /\
  min_shape ex_2_3_mixed = (Some 8, Some 10) /\
  mapM (mapM (maybe_resize (min_shape ex_2_3_mixed))) ex_2_3_mixed =
    Ok [[mk_image 8 10; mk_image 8 10];
        [mk_image 10 8; mk_image 10 8; mk_image 10 8]] /\
  concat_images ex_2_3_mixed = Raise ValueError.
Proof. repeat split. Qed.

(** C9 (amended).  Called with an empty list of sequences, [concat_images]
    returns the empty list of frames. *)
Theorem concat_images_empty_returns : concat_images [] = Ok [].
Proof. reflexivity. Qed.

Lemma concat_images_empty_no_error : ~ (exists e, concat_images [] = Raise e).
Proof. intros (e & H). discriminate H. Qed.

(** ** load_images *)

(** C8 (amended).  If some path of the list does not name an existing
    file, [load_images] fails with OpenCV's error, raised by the colour
    conversion of the empty result of [cv2.imread], and returns no partial
    result; for a list of existing files that OpenCV can decode it returns
    the decoded images, one per path, in the order of the paths. *)
Theorem load_images_all_or_nothing (w : World) (image_fnames : list string) :
  ((exists f, In f image_fnames /\ isfile w f = false) ->
   load_images w image_fnames = Raise cv2_error) /\
  ((forall f, In f image_fnames -> isfile w f = true /\ image_data w f <> None) ->
   exists images,
     load_images w image_fnames = Ok images /\
     Forall2 (fun f im => image_data w f = Some im) image_fnames images).
Proof.
  unfold load_images. split.
  - intros (f & Hin & Hf).
    apply (mapM_raise _ _ _ f Hin).
    + unfold cv2_imread. rewrite Hf. reflexivity.
    + intros y e' H. destruct (cv2_imread w y); simpl in H; congruence.
  - intros H.
    destruct (mapM_total (fun f => cv2_cvtColor (cv2_imread w f)) image_fnames)
      as (images & E).
    + intros f Hf. destruct (H f Hf) as [H1 H2]. unfold cv2_imread. rewrite H1.
      destruct (image_data w f); [eexists; reflexivity | congruence].
    + exists images. split; [exact E|].
      apply mapM_Forall2 in E. eapply Forall2_impl; [|exact E].
      intros f im Hf. simpl in Hf. unfold cv2_imread in Hf.
      destruct (isfile w f); [|discriminate].
      destruct (image_data w f); simpl in Hf; congruence.
Qed.

Lemma load_images_all_or_nothing_witness :
  load_images ex_world ["r/b/pred/inputs/in_00000_00.jpg"; "r/missing.jpg"]%string
    = Raise cv2_error /\
  exists images,
    load_images ex_world ["r/b/pred/outputs/gen_00000_00.jpg";
                          "r/a/pred/outputs/gen_00000_01.jpg"]%string = Ok images /\
    Forall2 (fun f im => image_data ex_world f = Some im)
            ["r/b/pred/outputs/gen_00000_00.jpg";
             "r/a/pred/outputs/gen_00000_01.jpg"]%string images.
Proof.
  split.
  - apply (proj1 (load_images_all_or_nothing ex_world _)).
    exists "r/missing.jpg"%string. split; [simpl; auto | reflexivity].
  - apply (proj2 (load_images_all_or_nothing ex_world _)).
    intros f [<-|[<-|[]]]; split; (reflexivity || discriminate).
Defined.

(** A missing file does not make [load_images] raise [FileNotFoundError]. *)
Lemma load_images_missing_not_FileNotFound :
  (exists f, In f ["r/missing.jpg"%string] /\ isfile ex_world f = false) /\
  load_images ex_world ["r/missing.jpg"%string] <> Raise FileNotFoundError.
Proof.
  split.
  - exists "r/missing.jpg"%string. split; [left; reflexivity | reflexivity].
  - vm_compute. discriminate.
Qed.

(** ** load_metrics *)

Lemma slice_1_m1_shape {A} (r : list A) k :
  length r = k + 2 ->
  length (slice_1_m1 r) = k /\ exists id mean, r = id :: slice_1_m1 r ++ [mean].
Proof.
  intros H. unfold slice_1_m1.
  destruct r as [|id t]; [simpl in H; lia|]. simpl in H. simpl tl.
  destruct (exists_last (l := t)) as (m & mean & ->).
  { intros ->; simpl in H; lia. }
  rewrite removelast_last. rewrite length_app in H. simpl in H.
  split; [lia|]. eauto.
Qed.

(** C5.  For a metrics file that exists and whose rows are a header and
    data rows, all of k + 2 cells (an id, k metric cells, a mean) with
    numeric metric cells, [load_metrics] returns a matrix with one row per
    data row, in order, and k columns: the float values of the cells of the
    row without its first and its last cell.  With three data rows and
    k = 2 the matrix is 3 x 2. *)
Theorem load_metrics_strips (w : World) (prefix_fname : string)
    (header : list string) (data : list (list string)) (k : nat) :
  isfile w (String.append prefix_fname ".csv") = true ->
  csv_rows w (String.append prefix_fname ".csv") = header :: data ->
  length header = k + 2 ->
  Forall (fun r => length r = k + 2) data ->
  (forall r c, In r data -> In c (slice_1_m1 r) -> float32_of_str w c <> None) ->
  exists metric,
    load_metrics w prefix_fname = Ok metric /\
    length metric = length data /\
    Forall (fun mr => length mr = k) metric /\
    Forall2 (fun (r : list string) (mr : list float) =>
               (exists id mean, r = id :: slice_1_m1 r ++ [mean]) /\
               Forall2 (fun c q => float32_of_str w c = Some q) (slice_1_m1 r) mr)
            data metric.
Proof.
  intros Hfile Hrows Hh Hd Hparse.
  unfold load_metrics, open_csv. rewrite Hfile, Hrows. unfold np_array_slice.
  replace (forallb (fun r => length r =? length header) data) with true.
  2:{ symmetry. apply forallb_forall. intros r Hr. rewrite Forall_forall in Hd.
      rewrite (Hd r Hr), Hh. apply Nat.eqb_refl. }
  unfold astype_float32.
  set (conv := fun c => match float32_of_str w c with
                        | Some q => Ok q | None => Raise ValueError end).
  destruct (mapM_total (mapM conv) (map slice_1_m1 data)) as (metric & E).
  { intros cs Hcs. apply in_map_iff in Hcs as (r & <- & Hr).
    apply mapM_total. intros c Hc. unfold conv.
    destruct (float32_of_str w c) eqn:Ec; [eauto|].
    exfalso. apply (Hparse r c Hr Hc Ec). }
  exists metric. split; [exact E|].
  pose proof (mapM_Forall2 _ _ _ E) as HF.
  split; [rewrite (mapM_length _ _ _ E); apply length_map|].
  assert (HF2 : Forall2 (fun (r : list string) (mr : list float) =>
                  mapM conv (slice_1_m1 r) = Ok mr) data metric).
  { clear -HF. remember (map slice_1_m1 data) as l eqn:El.
    revert data El. induction HF; intros data El.
    - destruct data; [constructor|discriminate].
    - destruct data as [|r data']; [discriminate|]. simpl in El.
      injection El as -> ->. constructor; auto. }
  split.
  - clear -HF2 Hd. induction HF2 as [|r mr data metric Hr HF2 IH]; [constructor|].
    inversion Hd as [|? ? Hlen Hd']; subst. constructor; auto.
    rewrite (mapM_length _ _ _ Hr). apply (proj1 (slice_1_m1_shape r k Hlen)).
  - clear -HF2 Hd. induction HF2 as [|r mr data metric Hr HF2 IH]; [constructor|].
    inversion Hd as [|? ? Hlen Hd']; subst. constructor; auto. split.
    + apply (proj2 (slice_1_m1_shape r k Hlen)).
    + apply mapM_Forall2 in Hr. eapply Forall2_impl; [|exact Hr].
      intros c q Hc. unfold conv in Hc. simpl in Hc.
      destruct (float32_of_str w c); congruence.
Qed.

Lemma load_metrics_strips_witness :
  exists metric,
    load_metrics ex_world "r/a/pred/metrics/mse" = Ok metric /\
    length metric = 3 /\
    Forall (fun mr => length mr = 2) metric /\
    Forall2 (fun (r : list string) (mr : list float) =>
               (exists id mean, r = id :: slice_1_m1 r ++ [mean]) /\
               Forall2 (fun c q => float32_of_str ex_world c = Some q) (slice_1_m1 r) mr)
            [["0"; "1"; "3"; "2"]; ["1"; "2"; "4"; "3"]; ["2"; "3"; "2"; "2.5"]]%string
            metric.
Proof.
  apply (load_metrics_strips ex_world "r/a/pred/metrics/mse"
           ["id"; "t0"; "t1"; "mean"]%string
           [["0"; "1"; "3"; "2"]; ["1"; "2"; "4"; "3"]; ["2"; "3"; "2"; "2.5"]]%string 2).
  - reflexivity.
  - reflexivity.
  - reflexivity.
  - repeat constructor.
  - intros r c Hr Hc. simpl in Hr.
    repeat (destruct Hr as [<-|Hr];
            [simpl in Hc; repeat (destruct Hc as [<-|Hc]; [discriminate|]); contradiction|]).
    contradiction.
Defined.

(** The failures of [load_metrics]: a missing file and a cell that is not
    a number. *)
Lemma load_metrics_missing_file w prefix_fname :
  isfile w (String.append prefix_fname ".csv") = false ->
  load_metrics w prefix_fname = Raise FileNotFoundError.
Proof. intros H. unfold load_metrics, open_csv. rewrite H. reflexivity. Qed.

(** ** Method discovery *)

Section SortedFacts.
Context {A : Type}.
Variable ltb : A -> A -> bool.
Hypothesis ltb_asym : forall a b, ltb a b = true -> ltb b a = false.

Lemma insert_sorted_perm x l : Permutation (insert_sorted ltb x l) (x :: l).
Proof.
  induction l as [|y r IH]; simpl; [reflexivity|].
  destruct (ltb y x); [|reflexivity].
  rewrite IH. apply perm_swap.
Qed.

Lemma sorted_perm l : Permutation (sorted ltb l) l.
Proof.
  induction l as [|x r IH]; simpl; [reflexivity|].
  rewrite insert_sorted_perm. constructor. exact IH.
Qed.

Lemma insert_sorted_hd x y l :
  HdRel (not_after ltb) y l -> not_after ltb y x ->
  HdRel (not_after ltb) y (insert_sorted ltb x l).
Proof.
  intros Hl Hx. destruct l as [|z r]; simpl; [constructor; exact Hx|].
  destruct (ltb z x); constructor; [|exact Hx].
  inversion Hl; assumption.
Qed.

Lemma insert_sorted_Sorted x l :
  Sorted (not_after ltb) l -> Sorted (not_after ltb) (insert_sorted ltb x l).
Proof.
  induction 1 as [|y r Hr IH Hhd]; simpl; [repeat constructor|].
  destruct (ltb y x) eqn:E.
  - constructor; [exact IH|]. apply insert_sorted_hd; [exact Hhd|].
    unfold not_after. apply ltb_asym. exact E.
  - constructor; [constructor; assumption|]. constructor. exact E.
Qed.

Lemma sorted_Sorted l : Sorted (not_after ltb) (sorted ltb l).
Proof.
  induction l as [|x r IH]; simpl; [constructor|].
  apply insert_sorted_Sorted. exact IH.
Qed.

End SortedFacts.

Lemma string_le_trans a b c : string_le a b -> string_le b c -> string_le a c.
Proof.
  unfold string_le, String.leb. revert b c.
  induction a as [|x a IH]; intros [|y b] [|z c]; simpl; try congruence.
  unfold Ascii.compare.
  destruct (N.compare_spec (N_of_ascii x) (N_of_ascii y)) as [E1|E1|E1];
  destruct (N.compare_spec (N_of_ascii y) (N_of_ascii z)) as [E2|E2|E2];
  destruct (N.compare_spec (N_of_ascii x) (N_of_ascii z)) as [E3|E3|E3];
  try congruence; try lia; auto.
  apply IH.
Qed.

Lemma string_ltb_asym a b : String.ltb a b = true -> String.ltb b a = false.
Proof.
  unfold String.ltb. rewrite (String.compare_antisym b a).
  destruct (String.compare a b); simpl; congruence.
Qed.

Lemma string_not_after_le a b : not_after String.ltb a b -> string_le a b.
Proof.
  unfold not_after, string_le, String.ltb, String.leb.
  rewrite (String.compare_antisym b a).
  destruct (String.compare a b); simpl; congruence.
Qed.

Lemma sorted_strings_StronglySorted l : StronglySorted string_le (sorted String.ltb l).
Proof.
  apply Sorted_StronglySorted.
  - intros a b c. apply string_le_trans.
  - pose proof (sorted_Sorted String.ltb string_ltb_asym l) as H.
    induction H as [|x r Hr IH Hhd]; constructor; [exact IH|].
    destruct Hhd; constructor. apply string_not_after_le. assumption.
Qed.

Lemma in_list_In x l : in_list x l = true <-> In x l.
Proof.
  unfold in_list. rewrite existsb_exists. split.
  - intros (y & Hy & E). apply String.eqb_eq in E. subst; assumption.
  - intros H. exists x. split; [assumption | apply String.eqb_refl].
Qed.

Lemma list_remove_absent x l : in_list x l = false -> list_remove x l = l.
Proof.
  induction l as [|y r IH]; simpl; [reflexivity|].
  destruct (String.eqb x y); simpl; [discriminate|].
  intros H. rewrite IH; auto.
Qed.

Lemma list_remove_perm x l : in_list x l = true -> Permutation l (x :: list_remove x l).
Proof.
  induction l as [|y r IH]; simpl; [discriminate|].
  destruct (String.eqb x y) eqn:E; simpl.
  - apply String.eqb_eq in E. subst. reflexivity.
  - intros H. rewrite (IH H) at 1. apply perm_swap.
Qed.

Lemma in_list_remove_other x y l :
  x <> y -> in_list x (list_remove y l) = in_list x l.
Proof.
  intros Hne. induction l as [|z r IH]; simpl; [reflexivity|].
  destruct (String.eqb y z) eqn:E.
  - apply String.eqb_eq in E. subst z.
    apply String.eqb_neq in Hne. rewrite Hne. reflexivity.
  - simpl. rewrite IH. reflexivity.
Qed.

(** C6.  For every listing of the results directory, default method
    discovery puts [ground_truth] and then [repeat] first, each only when
    the listing contains it, followed by the remaining directories in
    lexicographic order; the result is a rearrangement of the candidate
    directories, which are the listing without the report directory [web].
    For the directories b, ground_truth, a, repeat the order is
    ground_truth, repeat, a, b. *)
Theorem default_method_dirs_order :
  (forall listing,
     exists rest,
       default_method_dirs listing = present_first listing ++ rest /\
       StronglySorted string_le rest /\
       Permutation (default_method_dirs listing) (candidates listing)) /\
  default_method_dirs ["b"; "ground_truth"; "a"; "repeat"]%string
    = ["ground_truth"; "repeat"; "a"; "b"]%string.
Proof.
  split; [|reflexivity].
  intros listing. unfold default_method_dirs, present_first, candidates.
  assert (E0 : (if in_list "web" listing then list_remove "web" listing else listing)
               = list_remove "web" listing).
  { destruct (in_list "web" listing) eqn:E; [reflexivity|].
    symmetry. apply list_remove_absent. exact E. }
  rewrite E0. set (u0 := list_remove "web" listing).
  assert (Eg : in_list "ground_truth" listing = in_list "ground_truth" u0).
  { symmetry. apply in_list_remove_other. discriminate. }
  assert (Er : in_list "repeat" listing = in_list "repeat" u0).
  { symmetry. apply in_list_remove_other. discriminate. }
  simpl. rewrite Eg, Er. clearbody u0. clear.
  destruct (in_list "ground_truth" u0) eqn:G; simpl.
  - rewrite (in_list_remove_other "repeat" "ground_truth") by discriminate.
    destruct (in_list "repeat" u0) eqn:R; simpl.
    + eexists. split; [reflexivity|]. split; [apply sorted_strings_StronglySorted|].
      rewrite sorted_perm.
      rewrite (list_remove_perm "ground_truth" u0 G) at 2.
      constructor.
      rewrite <- list_remove_perm; [reflexivity|].
      rewrite in_list_remove_other by discriminate. exact R.
    + eexists. split; [reflexivity|]. split; [apply sorted_strings_StronglySorted|].
      rewrite sorted_perm. symmetry. apply list_remove_perm. exact G.
  - destruct (in_list "repeat" u0) eqn:R; simpl.
    + eexists. split; [reflexivity|]. split; [apply sorted_strings_StronglySorted|].
      rewrite sorted_perm. symmetry. apply list_remove_perm. exact R.
    + eexists. split; [reflexivity|]. split; [apply sorted_strings_StronglySorted|].
      apply sorted_perm.
Qed.

(** The report directory is not a method. *)
Lemma default_method_dirs_drops_web :
  default_method_dirs ["b"; "web"; "repeat"; "a"]%string = ["repeat"; "a"; "b"]%string.
Proof. reflexivity. Qed.

(** ** Sorting the methods *)

Lemma zip4_spec cs names dirs s :
  zip4 cs (seq s (length names)) names dirs =
  map (fun k => (nth k cs (Num 0), s + k, nth k names EmptyString, nth k dirs EmptyString))
      (seq 0 (Nat.min (length cs) (Nat.min (length names) (length dirs)))).
Proof.
  unfold zip4. revert names dirs s.
  induction cs as [|c cs IH]; intros names dirs s; [reflexivity|].
  destruct names as [|n names]; [reflexivity|].
  destruct dirs as [|d dirs]; [reflexivity|].
  simpl. rewrite Nat.add_0_r. f_equal.
  rewrite (IH names dirs (S s)). rewrite <- seq_shift, map_map.
  apply map_ext. intros k. rewrite Nat.add_succ_r. reflexivity.
Qed.

(** *** The order of the floats *)

Lemma Qltb_lt x y : Qltb x y = true <-> (x < y)%Q.
Proof.
  unfold Qltb. rewrite negb_true_iff. split.
  - intros H. apply Qnot_le_lt. intros Hle. apply Qle_bool_iff in Hle. congruence.
  - intros H. destruct (Qle_bool y x) eqn:E; [|reflexivity].
    apply Qle_bool_iff in E. exfalso. exact (Qlt_not_le _ _ H E).
Qed.

Lemma f_eqb_sym a b : f_eqb a b = f_eqb b a.
Proof.
  destruct a as [x| | |], b as [y| | |]; simpl; try reflexivity.
  destruct (Qeq_bool x y) eqn:E, (Qeq_bool y x) eqn:E'; try reflexivity.
  - apply Qeq_bool_iff in E. symmetry in E. apply Qeq_bool_iff in E. congruence.
  - apply Qeq_bool_iff in E'. symmetry in E'. apply Qeq_bool_iff in E'. congruence.
Qed.

Lemma f_ltb_asym a b : f_ltb a b = true -> f_ltb b a = false.
Proof.
  destruct a as [x| | |], b as [y| | |]; simpl; try discriminate; try reflexivity.
  intros H. apply Qltb_lt in H. destruct (Qltb y x) eqn:E; [|reflexivity].
  apply Qltb_lt in E. exfalso. exact (Qlt_irrefl x (Qlt_trans _ _ _ H E)).
Qed.

Lemma f_lt_not_nan a b : f_lt a b -> not_nan a /\ not_nan b.
Proof. destruct a, b; simpl; try discriminate; split; reflexivity. Qed.

Lemma f_eq_not_nan a b : f_eq a b -> not_nan a /\ not_nan b.
Proof. destruct a, b; simpl; try discriminate; split; reflexivity. Qed.

Lemma f_lt_trans a b c : f_lt a b -> f_lt b c -> f_lt a c.
Proof.
  unfold f_lt.
  destruct a as [x| | |], b as [y| | |], c as [z| | |]; simpl;
    try discriminate; try reflexivity.
  rewrite !Qltb_lt. apply Qlt_trans.
Qed.

Lemma f_lt_eq a b c : f_lt a b -> f_eq b c -> f_lt a c.
Proof.
  unfold f_lt, f_eq.
  destruct a as [x| | |], b as [y| | |], c as [z| | |]; simpl;
    try discriminate; try reflexivity.
  rewrite !Qltb_lt. intros H1 H2. apply Qeq_bool_iff in H2. rewrite <- H2. exact H1.
Qed.

Lemma f_eq_lt a b c : f_eq a b -> f_lt b c -> f_lt a c.
Proof.
  unfold f_lt, f_eq.
  destruct a as [x| | |], b as [y| | |], c as [z| | |]; simpl;
    try discriminate; try reflexivity.
  rewrite !Qltb_lt. intros H1 H2. apply Qeq_bool_iff in H1. rewrite H1. exact H2.
Qed.

Lemma f_eq_trans a b c : f_eq a b -> f_eq b c -> f_eq a c.
Proof.
  unfold f_eq.
  destruct a as [x| | |], b as [y| | |], c as [z| | |]; simpl;
    try discriminate; try reflexivity.
  intros H1 H2. apply Qeq_bool_iff in H1, H2. apply Qeq_bool_iff.
  rewrite H1. exact H2.
Qed.

(** Floats other than NaN are totally ordered. *)
Lemma f_ltb_total a b :
  not_nan a -> not_nan b -> f_eqb b a = false -> f_ltb b a = false -> f_lt a b.
Proof.
  unfold not_nan, f_lt.
  destruct a as [x| | |], b as [y| | |]; simpl; try discriminate; try reflexivity.
  intros _ _ Hne Hlt. apply Qltb_lt.
  destruct (Qlt_le_dec x y) as [H|H]; [exact H|].
  apply Qle_lteq in H. destruct H as [H|H].
  - apply Qltb_lt in H. congruence.
  - apply Qeq_bool_iff in H. congruence.
Qed.

Lemma tuple_ltb_asym a b : tuple_ltb a b = true -> tuple_ltb b a = false.
Proof.
  destruct a as [[[c1 i1] n1] d1], b as [[[c2 i2] n2] d2]. unfold tuple_ltb.
  rewrite (f_eqb_sym c2 c1).
  destruct (f_eqb c1 c2) eqn:Ec; simpl.
  - rewrite (Nat.eqb_sym i2 i1).
    destruct (i1 =? i2) eqn:Ei; simpl.
    + rewrite (String.eqb_sym n2 n1).
      destruct (String.eqb n1 n2); simpl; apply string_ltb_asym.
    + rewrite !Nat.ltb_lt, Nat.ltb_ge. lia.
  - apply f_ltb_asym.
Qed.

Lemma tuple_not_after_le a b :
  key_isnan a = false -> key_isnan b = false ->
  not_after tuple_ltb a b -> key_le a b.
Proof.
  destruct a as [[[c1 i1] n1] d1], b as [[[c2 i2] n2] d2].
  unfold key_isnan, not_after, tuple_ltb, key_le, idx. simpl. intros Ha Hb.
  destruct (f_eqb c2 c1) eqn:Ec; simpl.
  - intros H. right. split; [unfold f_eq; rewrite f_eqb_sym; exact Ec|].
    destruct (i2 =? i1) eqn:Ei; simpl in H.
    + apply Nat.eqb_eq in Ei. lia.
    + apply Nat.ltb_ge in H. exact H.
  - intros H. left. apply f_ltb_total; assumption.
Qed.

Lemma key_le_trans a b c : key_le a b -> key_le b c -> key_le a c.
Proof.
  unfold key_le. intros [H1|[H1 H1']] [H2|[H2 H2']].
  - left. eapply f_lt_trans; eassumption.
  - left. eapply f_lt_eq; eassumption.
  - left. eapply f_eq_lt; eassumption.
  - right. split; [eapply f_eq_trans; eassumption | lia].
Qed.

Lemma existsb_none {A} (p : A -> bool) l :
  Forall (fun x => p x = false) l -> existsb p l = false.
Proof.
  induction 1 as [|x r Hx _ IH]; [reflexivity|]. simpl. rewrite Hx, IH. reflexivity.
Qed.

Lemma nth_not_nan (crit : list float) i :
  Forall not_nan crit -> not_nan (nth i crit (Num 0)).
Proof.
  intros H. revert i. induction H as [|c r Hc _ IH]; intros [|i]; simpl;
    try reflexivity; [exact Hc | apply IH].
Qed.

(** Without a NaN mean, [sorted] is the stable sort. *)
Lemma sorted_keys_numbers w l :
  Forall (fun t => key_isnan t = false) l -> sorted_keys w l = sorted tuple_ltb l.
Proof.
  intros H. unfold sorted_keys. rewrite (existsb_none key_isnan l H), andb_false_r.
  reflexivity.
Qed.

Lemma Sorted_key_le l :
  Forall (fun t => key_isnan t = false) l ->
  Sorted (not_after tuple_ltb) l -> Sorted key_le l.
Proof.
  intros HF H. induction H as [|x r Hr IH Hhd]; [constructor|].
  inversion HF as [|? ? Hx HF']; subst.
  constructor; [apply IH; exact HF'|].
  destruct Hhd as [|y r' Hxy]; constructor.
  inversion HF' as [|? ? Hy _]; subst.
  apply tuple_not_after_le; assumption.
Qed.

Lemma StronglySorted_map_NoDup {A B} (R : A -> A -> Prop) (R' : B -> B -> Prop)
      (f : A -> B) l :
  StronglySorted R l -> NoDup (map f l) ->
  (forall a b, In a l -> In b l -> R a b -> f a <> f b -> R' (f a) (f b)) ->
  StronglySorted R' (map f l).
Proof.
  induction 1 as [|a r Hr IH Hall]; intros Hnd HR; simpl; [constructor|].
  inversion Hnd as [|? ? Hnotin Hnd']; subst.
  constructor.
  - apply IH; [exact Hnd'|]. intros; apply HR; simpl; auto.
  - apply Forall_map. rewrite Forall_forall in *. intros b Hb.
    apply HR; simpl; auto.
    intros E. apply Hnotin. rewrite E. apply in_map. exact Hb.
Qed.

Lemma unzip4_nonempty l :
  l <> [] ->
  unzip4 l = Ok (map (fun t => fst (fst (fst t))) l, map idx l,
                 map (fun t => snd (fst t)) l, map (fun t => snd t) l).
Proof. destruct l; [congruence | reflexivity]. Qed.

(** C4 (amended).  For every non-empty list of methods none of whose
    means is NaN, sorting by the means of the chosen metric succeeds and
    returns the original indices of the methods in an order that is
    ascending by mean, ties broken by the original index (a rearrangement
    of 0 .. n-1 in which every index stands before the later ones by
    [key_before]); the mean, the name and the directory returned at each
    position are those of the original index returned at that position.
    For the means 0.5, 0.2, 0.2 the indices come out as 1, 2, 0. *)
Theorem sort_methods_order :
  (forall (w : World) (sort_criterion : list float) (names dirs : list string),
     sort_criterion <> [] -> names <> [] -> dirs <> [] ->
     Forall not_nan sort_criterion ->
     exists ids,
       sort_methods w sort_criterion names dirs =
         Ok (map (fun i => nth i sort_criterion (Num 0)) ids, ids,
             map (fun i => nth i names EmptyString) ids,
             map (fun i => nth i dirs EmptyString) ids) /\
       Permutation ids
         (seq 0 (Nat.min (length sort_criterion) (Nat.min (length names) (length dirs)))) /\
       StronglySorted (key_before sort_criterion) ids) /\
  (forall (w : World) names dirs,
     length names = 3 -> length dirs = 3 ->
     exists c n d,
       sort_methods w [Num (1 # 2); Num (1 # 5); Num (1 # 5)] names dirs =
         Ok (c, [1; 2; 0], n, d)).
Proof.
  split.
  - intros w crit names dirs Hc Hn Hd Hnum. unfold sort_methods.
    rewrite (zip4_spec crit names dirs 0).
    set (n := Nat.min (length crit) (Nat.min (length names) (length dirs))).
    change (fun k => (nth k crit (Num 0), 0 + k, nth k names EmptyString,
                      nth k dirs EmptyString))
      with (tuple_of crit names dirs).
    set (zs := map (tuple_of crit names dirs) (seq 0 n)).
    assert (Hzs : Forall (fun t => key_isnan t = false) zs).
    { unfold zs. apply Forall_map. apply Forall_forall. intros i _.
      exact (nth_not_nan crit i Hnum). }
    change (map (tuple_of crit names dirs) (seq 0 n)) with zs.
    rewrite (sorted_keys_numbers w zs Hzs).
    pose (ts := sorted tuple_ltb zs).
    change (sorted tuple_ltb zs) with ts.
    assert (Hperm : Permutation ts zs) by apply sorted_perm.
    assert (Hnum' : Forall (fun t => key_isnan t = false) ts).
    { eapply Permutation_Forall; [symmetry; exact Hperm | exact Hzs]. }
    assert (Hids : Permutation (map idx ts) (seq 0 n)).
    { rewrite Hperm. unfold zs. rewrite map_map. simpl. rewrite map_id. reflexivity. }
    assert (Hts : ts = map (tuple_of crit names dirs) (map idx ts)).
    { assert (HF : Forall (fun t => t = tuple_of crit names dirs (idx t)) ts).
      { eapply Permutation_Forall; [symmetry; exact Hperm|].
        unfold zs. apply Forall_map. apply Forall_forall. intros i _. reflexivity. }
      clear -HF. induction HF as [|t r Ht HF IH]; [reflexivity|].
      simpl. rewrite <- IH, <- Ht. reflexivity. }
    assert (Hne : ts <> []).
    { intros E. rewrite E in Hids. apply Permutation_length in Hids.
      rewrite length_seq in Hids. simpl in Hids.
      destruct crit, names, dirs; try congruence. simpl in n. unfold n in Hids. lia. }
    exists (map idx ts). split; [|split].
    + rewrite (unzip4_nonempty ts Hne). f_equal.
      rewrite Hts at 1 3 4. rewrite !map_map. reflexivity.
    + exact Hids.
    + apply (StronglySorted_map_NoDup key_le).
      * apply Sorted_StronglySorted; [intros a b c; apply key_le_trans|].
        apply Sorted_key_le; [exact Hnum'|].
        exact (sorted_Sorted tuple_ltb tuple_ltb_asym zs).
      * eapply Permutation_NoDup; [symmetry; exact Hids | apply seq_NoDup].
      * intros a b Ha Hb Hab Hneq.
        assert (Ea : a = tuple_of crit names dirs (idx a)).
        { rewrite Hts in Ha. apply in_map_iff in Ha as (i & <- & _). reflexivity. }
        assert (Eb : b = tuple_of crit names dirs (idx b)).
        { rewrite Hts in Hb. apply in_map_iff in Hb as (i & <- & _). reflexivity. }
        unfold key_le in Hab. rewrite Ea, Eb in Hab. simpl in Hab.
        unfold key_before. destruct Hab as [H|[H H']]; [left; exact H|].
        right. split; [exact H|]. unfold idx in *. simpl in H'. lia.
  - intros w [|n0 [|n1 [|n2 [|? ?]]]] [|d0 [|d1 [|d2 [|? ?]]]]; simpl; try discriminate.
    intros _ _. vm_compute. eauto.
Qed.

Lemma sort_methods_order_witness :
  (exists ids,
     sort_methods ex_world [Num (1 # 2); Num (1 # 5); Num (1 # 5)]
                  ["m0"; "m1"; "m2"]%string ["d0"; "d1"; "d2"]%string =
       Ok (map (fun i => nth i [Num (1 # 2); Num (1 # 5); Num (1 # 5)] (Num 0)) ids, ids,
           map (fun i => nth i ["m0"; "m1"; "m2"]%string EmptyString) ids,
           map (fun i => nth i ["d0"; "d1"; "d2"]%string EmptyString) ids) /\
     Permutation ids (seq 0 3) /\
     StronglySorted (key_before [Num (1 # 2); Num (1 # 5); Num (1 # 5)]) ids) /\
  (exists c n d,
     sort_methods ex_world [Num (1 # 2); Num (1 # 5); Num (1 # 5)]
                  ["m0"; "m1"; "m2"]%string ["d0"; "d1"; "d2"]%string
       = Ok (c, [1; 2; 0], n, d)).
Proof.
  split.
  - apply (proj1 sort_methods_order ex_world [Num (1 # 2); Num (1 # 5); Num (1 # 5)]
             ["m0"; "m1"; "m2"]%string ["d0"; "d1"; "d2"]%string); try discriminate.
    repeat constructor.
  - apply (proj2 sort_methods_order ex_world
             ["m0"; "m1"; "m2"]%string ["d0"; "d1"; "d2"]%string);
      reflexivity.
Defined.

(** With no method at all, the four-way unpacking of line 155 raises. *)
Lemma sort_methods_empty_raises :
  sort_methods ex_world [] [] [] = Raise ValueError /\
  ~ (exists r, sort_methods ex_world [] [] [] = Ok r).
Proof.
  split; [reflexivity|]. intros (r & H). discriminate H.
Qed.

(** A NaN mean, which a metrics file without data rows gives, is neither
    less than nor equal to any mean: the tuples are then not ordered by
    [<], and what [sorted] returns need not be ascending.  In the example
    world, which leaves such tuples where they stand, the means 0.5, NaN,
    0.2 keep their places and 0.5 stays before 0.2. *)
Lemma sort_methods_nan_mean :
  sort_methods ex_world [Num (1 # 2); NaN; Num (1 # 5)]
               ["m0"; "m1"; "m2"]%string ["d0"; "d1"; "d2"]%string =
    Ok ([Num (1 # 2); NaN; Num (1 # 5)], [0; 1; 2],
        ["m0"; "m1"; "m2"]%string, ["d0"; "d1"; "d2"]%string) /\
  ~ key_before [Num (1 # 2); NaN; Num (1 # 5)] 0 2.
Proof.
  split; [reflexivity|].
  unfold key_before, f_lt, f_eq. simpl. intros [H|[H _]]; discriminate H.
Qed.

(** ** Mean and standard error *)

Lemma pow2_pos e : (0 < pow2 e)%Q.
Proof.
  unfold pow2. destruct (0 <=? e)%Z eqn:E.
  - apply Z.leb_le in E. unfold Qlt. simpl. rewrite Z.mul_1_r.
    apply Z.pow_pos_nonneg; lia.
  - reflexivity.
Qed.




(** *** Rounding *)

Lemma nearest_even_error y :
  (Qabs (inject_Z (nearest_even y) - y) <= 1 # 2)%Q.
Proof.
  unfold nearest_even.
  pose proof (Qfloor_le y) as Hlo. pose proof (Qlt_floor y) as Hhi.
  set (m := Qfloor y) in *. rewrite inject_Z_plus in Hhi.
  change (inject_Z 1) with 1%Q in Hhi.
  destruct (Qcompare (y - inject_Z m) (1 # 2)) eqn:E.
  - apply Qeq_alt in E.
    destruct (Z.even m); [|rewrite inject_Z_plus; change (inject_Z 1) with 1%Q];
      apply Qabs_case; intros _; lra.
  - apply Qlt_alt in E. apply Qabs_case; intros _; lra.
  - apply Qgt_alt in E. rewrite inject_Z_plus. change (inject_Z 1) with 1%Q.
    apply Qabs_case; intros _; lra.
Qed.

(** Rounding a positive rational moves it by at most half a unit in the
    last place. *)
Lemma round_pos_nearest f q r :
  (0 < q)%Q -> round_pos f q = Num r ->
  (Qabs (r - q) <= pow2 (quantum f (ilog2 q)) * (1 # 2))%Q.
Proof.
  intros Hq. unfold round_pos, finish.
  set (u := quantum f (ilog2 q)).
  destruct (Qle_bool _ _); [discriminate|]. intros H. injection H as <-.
  pose proof (pow2_pos u) as Hp.
  pose proof (nearest_even_error (q / pow2 u)) as He.
  set (m := nearest_even (q / pow2 u)) in *.
  assert (E : (Qred (inject_Z m * pow2 u) - q == (inject_Z m - q / pow2 u) * pow2 u)%Q).
  { rewrite Qred_correct. field. lra. }
  rewrite (Qabs_wd _ _ E), Qabs_Qmult, (Qabs_pos (pow2 u)) by lra.
  rewrite (Qmult_comm (pow2 u)). apply Qmult_le_compat_r; lra.
Qed.

(** The mean is the float32 nearest to the quotient of the sum by the
    count, here for a positive sum: it is at most half a unit in the last
    place away. *)
Lemma np_mean_nearest (w : World) (metric : matrix) (S n m : Q) :
  np_sum w (cells_of metric) = Num S ->
  f_of_nat binary32 (length (cells_of metric)) = Num n ->
  (0 < S)%Q -> (0 < n)%Q ->
  np_mean w metric = Num m ->
  (Qabs (m - S / n) <= pow2 (quantum binary32 (ilog2 (S / n))) * (1 # 2))%Q.
Proof.
  intros HS Hn HS0 Hn0. unfold np_mean. rewrite HS, Hn. simpl f_div.
  assert (Hq : (0 < S / n)%Q).
  { apply Qlt_shift_div_l; [exact Hn0 | lra]. }
  replace (Qeq_bool n 0) with false.
  - unfold round. replace (Qcompare (S / n) 0) with Gt.
    + apply round_pos_nearest. exact Hq.
    + symmetry. apply Qgt_alt. exact Hq.
  - symmetry. destruct (Qeq_bool n 0) eqn:E; [|reflexivity].
    apply Qeq_bool_iff in E. lra.
Qed.

(** *** The standard error *)






(** ** Runs of main *)

(** C2.  A run without a sort specification exits with a non-zero status,
    whatever the results directory holds: the name [method_ids] is assigned
    under [if args.sort_by] only and read at line 189 on every path. *)
Theorem main_without_sort_by_fails (w : World) (args : Args) :
  sort_by args = None -> exit_status (run w args) = 1.
Proof.
  intros Hs. unfold exit_status, run, main, bind, emit, lift. simpl.
  destruct (discover_methods w args) as [nd|e]; [|reflexivity].
  unfold main_sort. rewrite Hs. unfold ret.
  unfold main_table, bind, emit, lift. simpl.
  destruct (infer_metric_names w (snd nd)); reflexivity.
Qed.

Lemma main_without_sort_by_fails_witness :
  sort_by ex_args_plain = None /\ exit_status (run ex_world ex_args_plain) = 1.
Proof.
  split; [reflexivity|].
  apply (main_without_sort_by_fails ex_world ex_args_plain). reflexivity.
Defined.

(** On the example directory, whose files are all present and well formed,
    the run without a sort specification stops with [NameError] after the
    two header rows of the table; the same run with one completes. *)
Lemma run_plain_NameError :
  run ex_world ex_args_plain =
    (Raise NameError,
     [AddHeader1; AddTable;
      AddRow [CStr ""; CStr "pred"] (Some [2; 1]);
      AddRow [CStr "id"; CStr "method"; CStr "mse (mean)"] None]).
Proof. vm_compute. reflexivity. Qed.

Lemma run_sorted_ok :
  fst (run ex_world ex_args_sorted) = Ok tt /\
  last (snd (run ex_world ex_args_sorted)) AddTable = Save.
Proof. vm_compute. auto. Qed.

(** *** The monad *)

Lemma bind_ok {A B} (m : M A) (k : A -> M B) s b s' :
  bind m k s = (Ok b, s') ->
  exists a s1, m s = (Ok a, s1) /\ k a s1 = (Ok b, s').
Proof.
  unfold bind. destruct (m s) as [[a|e] s1]; intros H; [eauto | discriminate].
Qed.

Lemma bind_inv {A B} (m : M A) (k : A -> M B) s r s' :
  bind m k s = (r, s') ->
  (exists e, m s = (Raise e, s') /\ r = Raise e) \/
  (exists a s1, m s = (Ok a, s1) /\ k a s1 = (r, s')).
Proof.
  unfold bind. destruct (m s) as [[a|e] s1]; intros H.
  - right; eauto.
  - left. injection H as <- <-. eauto.
Qed.

Lemma for_each_app {A S} (l1 l2 : list A) (body : A -> S -> M S) acc s :
  for_each (l1 ++ l2) body acc s =
  bind (for_each l1 body acc) (fun acc' => for_each l2 body acc') s.
Proof.
  revert acc s; induction l1 as [|x r IH]; intros acc s; simpl; [reflexivity|].
  unfold bind in *. destruct (body x acc s) as [[acc1|e] s1]; [|reflexivity].
  apply IH.
Qed.

Lemma last_opt_app {A} (l : list A) x : last_opt (l ++ [x]) = Some x.
Proof.
  induction l as [|y r IH]; [reflexivity|].
  simpl. destruct (r ++ [x]) eqn:E; [destruct r; discriminate | exact IH].
Qed.

Lemma last_opt_cases {A} (l : list A) :
  (l = [] /\ last_opt l = None) \/ exists l' x, l = l' ++ [x] /\ last_opt l = Some x.
Proof.
  destruct l as [|y r]; [left; auto|]. right.
  destruct (exists_last (l := y :: r)) as (l' & x & E); [discriminate|].
  exists l', x. rewrite E. split; [reflexivity | apply last_opt_app].
Qed.

(** A loop whose body establishes [Q x] of the loop-carried variables in
    the iteration for [x]: after the loop, [Q] holds for the last element. *)
Lemma for_each_last {A S} (body : A -> S -> M S) (Q : A -> S -> Prop) l acc s acc' s' :
  (forall x a t a' t', body x a t = (Ok a', t') -> Q x a') ->
  for_each l body acc s = (Ok acc', s') ->
  match last_opt l with
  | Some x => Q x acc'
  | None => acc' = acc
  end.
Proof.
  intros HQ H. destruct (last_opt_cases l) as [[-> ->]|(l' & x & -> & ->)].
  - simpl in H. unfold ret in H. congruence.
  - rewrite for_each_app in H. apply bind_ok in H as (a & s1 & _ & H).
    simpl in H. apply bind_ok in H as (a' & s2 & Hb & H).
    unfold ret in H. injection H as <- <-. eapply HQ. exact Hb.
Qed.

(** A property of the loop-carried variables that every iteration keeps. *)
Lemma for_each_inv {A S} (body : A -> S -> M S) (P : S -> Prop) l acc s acc' s' :
  (forall x a t a' t', body x a t = (Ok a', t') -> P a -> P a') ->
  P acc -> for_each l body acc s = (Ok acc', s') -> P acc'.
Proof.
  intros HP. revert acc s. induction l as [|x r IH]; intros acc s Hacc H; simpl in H.
  - unfold ret in H. congruence.
  - apply bind_ok in H as (a & s1 & Hb & H). eapply IH; [|exact H]. eapply HP; eauto.
Qed.

(** *** Image rows *)

Lemma sample_rows_app s t : sample_rows (s ++ t) = sample_rows s ++ sample_rows t.
Proof. unfold sample_rows. apply flat_map_app. Qed.

Lemma quiet_ret {A} (a : A) : quiet (ret a).
Proof. intros s r s' H. unfold ret in H. congruence. Qed.

Lemma quiet_lift {A} (x : result A) : quiet (lift x).
Proof. intros s r s' H. unfold lift in H. congruence. Qed.

Lemma quiet_emit e : is_add_images e = false -> quiet (emit e).
Proof.
  intros He s r s' H. unfold emit in H. injection H as _ <-.
  rewrite sample_rows_app. destruct e; simpl in *; try discriminate; apply app_nil_r.
Qed.

Lemma quiet_bind {A B} (m : M A) (k : A -> M B) :
  quiet m -> (forall a, quiet (k a)) -> quiet (bind m k).
Proof.
  intros Hm Hk s r s' H. apply bind_inv in H as [(e & H & _)|(a & s1 & H1 & H2)].
  - eapply Hm; eauto.
  - rewrite (Hk a _ _ _ H2). eapply Hm; eauto.
Qed.

Lemma quiet_for_each {A S} (l : list A) (body : A -> S -> M S) acc :
  (forall x a, quiet (body x a)) -> quiet (for_each l body acc).
Proof.
  intros Hb. revert acc. induction l as [|x r IH]; intros acc; simpl.
  - apply quiet_ret.
  - apply quiet_bind; [apply Hb | intros; apply IH].
Qed.

Lemma quiet_if {A} (b : bool) (m1 m2 : M A) :
  quiet m1 -> quiet m2 -> quiet (if b then m1 else m2).
Proof. destruct b; auto. Qed.

Create HintDb quiet.
#[local] Hint Resolve quiet_ret quiet_lift quiet_bind quiet_for_each quiet_if : quiet.
#[local] Hint Extern 1 (quiet (emit _)) => (apply quiet_emit; reflexivity) : quiet.

Lemma quiet_save_images fnames images : quiet (save_images fnames images).
Proof. unfold save_images. auto 10 with quiet. Qed.

Lemma quiet_save_gif w f images : quiet (save_gif w f images).
Proof. unfold save_gif. auto 10 with quiet. Qed.

Lemma quiet_ffmpeg_save_gif w f images : quiet (ffmpeg_save_gif w f images).
Proof. unfold ffmpeg_save_gif. auto 10 with quiet. Qed.

#[local] Hint Resolve quiet_save_images quiet_save_gif quiet_ffmpeg_save_gif : quiet.

Lemma quiet_output_step w task i name p acc : quiet (output_step w task i name p acc).
Proof. unfold output_step. auto 10 with quiet. Qed.

#[local] Hint Resolve quiet_output_step : quiet.

Lemma quiet_task_step w args loc image_dir i task st :
  quiet (task_step w args loc image_dir i task st).
Proof.
  unfold task_step.
  repeat (first [ apply quiet_bind; [|intros ?]
                | apply quiet_if
                | apply quiet_for_each; intros ? ? ]);
    auto 10 with quiet.
Qed.

Lemma task_step_txts w args loc image_dir i task st s st' s' :
  task_step w args loc image_dir i task st s = (Ok st', s') ->
  exists extra, txts (snd st') = txts (snd st) ++ extra.
Proof.
  unfold task_step. intros H.
  repeat (apply bind_ok in H as (? & ? & _ & H)).
  unfold ret in H. injection H as <- _. simpl. eauto.
Qed.

(** One iteration of the sample loop adds the image row of its sample when
    it completes, and none when it raises. *)
Lemma sample_step_rows w args loc image_dir tasks i hdr s r s' :
  sample_step w args loc image_dir tasks i hdr s = (r, s') ->
  sample_rows s' = sample_rows s ++ (if is_ok r then [i] else []).
Proof.
  unfold sample_step. intros H.
  apply bind_inv in H as [(e & H & ->)|(? & s1 & H1 & H)].
  { simpl. rewrite app_nil_r. eapply quiet_lift; eauto. }
  apply quiet_lift in H1.
  apply bind_inv in H as [(e & H & ->)|(? & s2 & H2 & H)].
  { simpl. rewrite app_nil_r, <- H1. revert H. apply quiet_if; auto with quiet. }
  assert (E2 : sample_rows s2 = sample_rows s).
  { rewrite <- H1. revert H2. apply quiet_if; auto with quiet. }
  apply bind_inv in H as [(e & H & ->)|(st & s3 & H3 & H)].
  { simpl. rewrite app_nil_r, <- E2. revert H.
    apply quiet_for_each. intros; apply quiet_task_step. }
  assert (E3 : sample_rows s3 = sample_rows s).
  { rewrite <- E2. revert H3. apply quiet_for_each. intros; apply quiet_task_step. }
  assert (Htx : exists rest, txts (snd st) = CInt i :: rest).
  { eapply (for_each_inv _ (fun st0 : Headers * RowCells =>
                               exists rest, txts (snd st0) = CInt i :: rest));
      [| |exact H3].
    - intros task a t a' t' Hb (rest & Hr).
      apply task_step_txts in Hb as (extra & ->). rewrite Hr. simpl. eauto.
    - simpl. eauto. }
  destruct Htx as (rest & Htx).
  apply bind_inv in H as [(e & H & ->)|(? & s4 & H4 & H)].
  { simpl. rewrite app_nil_r, <- E3. revert H. apply quiet_if; auto 10 with quiet. }
  assert (E4 : sample_rows s4 = sample_rows s).
  { rewrite <- E3. revert H4. apply quiet_if; auto 10 with quiet. }
  apply bind_inv in H as [(e & H & ->)|(? & s5 & H5 & H)].
  { unfold emit in H. discriminate. }
  unfold emit in H5. injection H5 as _ <-.
  apply bind_inv in H as [(e & H & ->)|(? & s6 & H6 & H)].
  { exfalso. destruct (_ =? _)%Z in H; [unfold emit in H | unfold ret in H]; discriminate. }
  unfold ret in H. injection H as <- <-. simpl.
  assert (E6 : sample_rows s6 =
               sample_rows (s4 ++ [AddImages (ims (snd st)) (txts (snd st)) (links (snd st))])).
  { revert H6. apply quiet_if; auto with quiet. }
  rewrite E6, sample_rows_app, E4. simpl. rewrite Htx. reflexivity.
Qed.

Lemma sample_loop_rows w args loc image_dir tasks n a hdr s r s' :
  for_each (seq a n) (sample_step w args loc image_dir tasks) hdr s = (r, s') ->
  exists k, k <= n /\ sample_rows s' = sample_rows s ++ seq a k /\
            (is_ok r = true -> k = n).
Proof.
  revert a hdr s. induction n as [|n IH]; intros a hdr s H; simpl in H.
  - unfold ret in H. injection H as <- <-. exists 0. simpl. rewrite app_nil_r. auto.
  - apply bind_inv in H as [(e & H & ->)|(hdr' & s1 & H1 & H)].
    + apply sample_step_rows in H. simpl in H. exists 0. simpl.
      split; [lia|]. split; [exact H | discriminate].
    + apply sample_step_rows in H1. simpl in H1.
      destruct (IH _ _ _ H) as (k & Hk & E & Hok).
      exists (S k). split; [lia|]. split.
      * rewrite E, H1, <- app_assoc. reflexivity.
      * intros Hr. rewrite (Hok Hr). reflexivity.
Qed.

(** The image loop adds the rows of the samples 0 .. k-1 for some k up to
    [num_samples], and of all of them when it completes. *)
Lemma main_images_rows w args loc n s r s' :
  num_samples loc = Some n ->
  main_images w args loc s = (r, s') ->
  exists k, k <= n /\ sample_rows s' = sample_rows s ++ seq 0 k /\ (r = Ok tt -> k = n).
Proof.
  intros Hn H. unfold main_images in H.
  apply bind_inv in H as [(e & H & ->)|(dir0 & s1 & H1 & H)].
  { apply quiet_lift in H. exists 0. simpl. rewrite app_nil_r.
    split; [lia|]. split; [exact H|discriminate]. }
  apply quiet_lift in H1.
  apply bind_inv in H as [(e & H & ->)|(tasks & s2 & H2 & H)].
  { apply quiet_lift in H. exists 0. simpl. rewrite app_nil_r.
    split; [lia|]. split; [congruence|discriminate]. }
  apply quiet_lift in H2.
  apply bind_inv in H as [(e & H & ->)|(? & s3 & H3 & H)].
  { unfold emit in H. discriminate. }
  apply (quiet_emit AddTable eq_refl) in H3.
  rewrite Hn in H.
  apply bind_inv in H as [(e & H & ->)|(n' & s4 & H4 & H)].
  { unfold lift in H. discriminate. }
  unfold lift in H4. injection H4 as <- <-.
  assert (E3 : sample_rows s3 = sample_rows s) by congruence.
  apply bind_inv in H as [(e & H & ->)|(hdr & s5 & H5 & H)].
  - apply sample_loop_rows in H as (k & Hk & E & _).
    exists k. split; [exact Hk|]. split; [congruence | discriminate].
  - apply sample_loop_rows in H5 as (k & Hk & E & Hok).
    unfold emit in H. injection H as <- <-.
    exists k. split; [exact Hk|]. split.
    + rewrite sample_rows_app, E, E3. simpl. apply app_nil_r.
    + intros _. apply Hok. reflexivity.
Qed.

(** *** The metrics table *)

Lemma metric_step_rows w args dir p acc s acc' s' :
  metric_step w args dir p acc s = (Ok acc', s') ->
  exists metric, load_metrics w (metrics_path dir p) = Ok metric /\
                 snd acc' = Some (num_rows metric).
Proof.
  unfold metric_step, metrics_path. intros H.
  apply bind_ok in H as (metric & s1 & H1 & H).
  unfold lift in H1. injection H1 as H1 _.
  unfold ret in H. injection H as <- _. simpl. eauto.
Qed.

Lemma method_step_rows w args pairs m ns s ns' s' :
  method_step w args pairs m ns s = (Ok ns', s') ->
  match last_opt pairs with
  | Some p => exists metric, load_metrics w (metrics_path (snd m) p) = Ok metric /\
                             ns' = Some (num_rows metric)
  | None => ns' = ns
  end.
Proof.
  unfold method_step. intros H.
  apply bind_ok in H as (acc & s1 & H1 & H).
  apply bind_ok in H as (? & s2 & _ & H). unfold ret in H. injection H as <- _.
  pose proof (for_each_last _
                (fun p (a : list cell * option nat) =>
                   exists metric, load_metrics w (metrics_path (snd m) p) = Ok metric /\
                                  snd a = Some (num_rows metric))
                _ _ _ _ _ (metric_step_rows w args (snd m)) H1) as HL.
  destruct (last_opt pairs); [exact HL | rewrite HL; reflexivity].
Qed.

Lemma table_loop_rows w args pairs methods ns s ns' s' :
  for_each methods (method_step w args pairs) ns s = (Ok ns', s') ->
  match last_opt methods, last_opt pairs with
  | Some m, Some p => exists metric, load_metrics w (metrics_path (snd m) p) = Ok metric /\
                                     ns' = Some (num_rows metric)
  | _, _ => ns' = ns
  end.
Proof.
  intros H. destruct (last_opt pairs) as [p|] eqn:Ep.
  - assert (Hb : forall m a t a' t',
               method_step w args pairs m a t = (Ok a', t') ->
               exists metric, load_metrics w (metrics_path (snd m) p) = Ok metric /\
                              a' = Some (num_rows metric)).
    { intros m a t a' t' Hm. apply method_step_rows in Hm. rewrite Ep in Hm. exact Hm. }
    pose proof (for_each_last _
                  (fun m (a : option nat) =>
                     exists metric, load_metrics w (metrics_path (snd m) p) = Ok metric /\
                                    a = Some (num_rows metric))
                  _ _ _ _ _ Hb H) as HL.
    destruct (last_opt methods); exact HL.
  - assert (E : ns' = ns).
    { eapply (for_each_inv _ (fun a => a = ns)); [|reflexivity|exact H].
      intros m a t a' t' Hb ->. apply method_step_rows in Hb. rewrite Ep in Hb. exact Hb. }
    destruct (last_opt methods); exact E.
Qed.

(** After the metrics table, [num_samples] is the row count of the matrix
    loaded last, and the image loop runs over that many samples. *)
Lemma main_table_num_samples (w : World) (args : Args)
    (loc loc' : Locals) (s s' : log) :
  main_table w args loc s = (Ok loc', s') ->
  exists pairs ids,
    infer_metric_names w (method_dirs loc) = Ok pairs /\
    method_ids loc = Some ids /\
    match last_opt (zip3 ids (method_names loc) (method_dirs loc)), last_opt pairs with
    | Some m, Some p =>
        exists metric,
          load_metrics w (metrics_path (snd m) p) = Ok metric /\
          num_samples loc' = Some (num_rows metric) /\
          forall r s'',
            main_images w args loc' s' = (r, s'') ->
            exists k, k <= num_rows metric /\
                      sample_rows s'' = sample_rows s' ++ seq 0 k /\
                      (r = Ok tt -> k = num_rows metric)
    | _, _ => num_samples loc' = num_samples loc
    end.
Proof.
  unfold main_table. intros H.
  apply bind_ok in H as (pairs & s1 & H1 & H).
  unfold lift in H1. injection H1 as H1 _.
  do 3 (apply bind_ok in H as (? & ? & _ & H)).
  apply bind_ok in H as (ids & s5 & H5 & H).
  assert (Hids : method_ids loc = Some ids).
  { unfold lift in H5. destruct (method_ids loc); [|discriminate]. congruence. }
  apply bind_ok in H as (ns & s6 & H6 & H).
  apply bind_ok in H as (? & s7 & _ & H). unfold ret in H. injection H as <- <-.
  exists pairs, ids. split; [exact H1|]. split; [exact Hids|].
  apply table_loop_rows in H6. simpl.
  destruct (last_opt (zip3 ids (method_names loc) (method_dirs loc))) as [m|]; [|exact H6].
  destruct (last_opt pairs) as [p|]; [|exact H6].
  destruct H6 as (metric & Hload & ->).
  exists metric. split; [exact Hload|]. split; [reflexivity|].
  intros r s'' Hrun. eapply main_images_rows; [|exact Hrun]. reflexivity.
Qed.

Lemma quiet_main_sort w args names dirs : quiet (main_sort w args names dirs).
Proof.
  unfold main_sort. destruct (sort_by args) as [[task_name metric_name]|];
    auto 10 with quiet.
Qed.

Lemma quiet_method_step w args pairs m ns : quiet (method_step w args pairs m ns).
Proof.
  unfold method_step.
  apply quiet_bind; [|intros; auto 10 with quiet].
  apply quiet_for_each. intros p acc. unfold metric_step. auto 10 with quiet.
Qed.

Lemma quiet_main_table w args loc : quiet (main_table w args loc).
Proof.
  unfold main_table.
  repeat (apply quiet_bind; [|intros ?]); auto with quiet.
  apply quiet_for_each. intros; apply quiet_method_step.
Qed.

Lemma main_sort_num_samples w args names dirs s loc s' :
  main_sort w args names dirs s = (Ok loc, s') -> num_samples loc = None.
Proof.
  unfold main_sort. destruct (sort_by args) as [[task_name metric_name]|]; intros H.
  - do 3 (apply bind_ok in H as (? & ? & _ & H)).
    unfold ret in H. injection H as <- _. reflexivity.
  - unfold ret in H. injection H as <- _. reflexivity.
Qed.

Lemma main_images_needs_num_samples w args loc s s' :
  main_images w args loc s = (Ok tt, s') -> exists n, num_samples loc = Some n.
Proof.
  unfold main_images. intros H.
  do 3 (apply bind_ok in H as (? & ? & _ & H)).
  apply bind_ok in H as (n & ? & Hn & _).
  unfold lift in Hn. destruct (num_samples loc); [eauto | discriminate].
Qed.

(** The phases of a run that completes and is not restricted to the
    metrics. *)
Lemma run_phases w args s :
  run w args = (Ok tt, s) -> only_metrics args = false ->
  exists nd loc s1 loc' s2,
    discover_methods w args = Ok nd /\
    main_sort w args (fst nd) (snd nd) [AddHeader1] = (Ok loc, s1) /\
    main_table w args loc s1 = (Ok loc', s2) /\
    main_images w args loc' s2 = (Ok tt, s) /\
    sample_rows s2 = [].
Proof.
  unfold run, main. intros H Honly.
  apply bind_ok in H as (? & s0 & H0 & H).
  unfold emit in H0. injection H0 as _ <-. simpl in H.
  apply bind_ok in H as (nd & s0' & Hnd & H).
  unfold lift in Hnd. injection Hnd as Hnd <-.
  apply bind_ok in H as (loc & s1 & Hsort & H).
  apply bind_ok in H as (loc' & s2 & Htab & H).
  rewrite Honly in H.
  exists nd, loc, s1, loc', s2. repeat split; try assumption.
  rewrite (quiet_main_table _ _ _ _ _ _ Htab), (quiet_main_sort _ _ _ _ _ _ _ Hsort).
  reflexivity.
Qed.

(** C10.  When the metrics table has been built, the variable
    [num_samples] holds the number of rows of the metrics matrix loaded
    last, which is the one of the last (task, metric) pair for the last
    method in table order, and is left unassigned when there is none.  The
    image loop that follows adds the image rows of the samples 0 .. k-1
    for some k up to that number of rows, and for exactly that number when
    the loop completes.  So the image rows of every run that completes
    without the metrics-only flag are those of the samples
    0 .. rows - 1 of that matrix: the samples are not counted from the
    image files. *)
Theorem num_samples_is_last_metrics_rows :
  (forall (w : World) (args : Args) (loc loc' : Locals) (s s' : log),
     main_table w args loc s = (Ok loc', s') ->
     exists pairs ids,
       infer_metric_names w (method_dirs loc) = Ok pairs /\
       method_ids loc = Some ids /\
       match last_opt (zip3 ids (method_names loc) (method_dirs loc)), last_opt pairs with
       | Some m, Some p =>
           exists metric,
             load_metrics w (metrics_path (snd m) p) = Ok metric /\
             num_samples loc' = Some (num_rows metric) /\
             forall r s'',
               main_images w args loc' s' = (r, s'') ->
               exists k, k <= num_rows metric /\
                         sample_rows s'' = sample_rows s' ++ seq 0 k /\
                         (r = Ok tt -> k = num_rows metric)
       | _, _ => num_samples loc' = num_samples loc
       end) /\
  (forall (w : World) (args : Args) (s : log),
     run w args = (Ok tt, s) -> only_metrics args = false ->
     exists nd loc s1 pairs ids m p metric,
       discover_methods w args = Ok nd /\
       main_sort w args (fst nd) (snd nd) [AddHeader1] = (Ok loc, s1) /\
       infer_metric_names w (method_dirs loc) = Ok pairs /\
       method_ids loc = Some ids /\
       last_opt (zip3 ids (method_names loc) (method_dirs loc)) = Some m /\
       last_opt pairs = Some p /\
       load_metrics w (metrics_path (snd m) p) = Ok metric /\
       sample_rows s = seq 0 (num_rows metric)).
Proof.
  split; [exact main_table_num_samples|].
  intros w args s Hrun Honly.
  destruct (run_phases w args s Hrun Honly)
    as (nd & loc & s1 & loc' & s2 & Hnd & Hsort & Htab & Himg & Hrows).
  destruct (main_table_num_samples w args loc loc' s1 s2 Htab)
    as (pairs & ids & Hp & Hi & H).
  destruct (main_images_needs_num_samples _ _ _ _ _ Himg) as (n & Hn).
  pose proof (main_sort_num_samples _ _ _ _ _ _ _ Hsort) as Hnone.
  destruct (last_opt (zip3 ids (method_names loc) (method_dirs loc))) as [m|] eqn:Em;
    [|congruence].
  destruct (last_opt pairs) as [p|] eqn:Ep; [|congruence].
  destruct H as (metric & Hload & _ & Hloop).
  destruct (Hloop _ _ Himg) as (k & _ & E & Hk).
  exists nd, loc, s1, pairs, ids, m, p, metric.
  repeat (split; [assumption|]).
  rewrite E, Hrows, (Hk eq_refl). reflexivity.
Qed.

Lemma num_samples_is_last_metrics_rows_witness :
  (main_table ex_world ex_args_sorted ex_locals [AddHeader1; AddHeader3 "pred" "mse"]
     = (Ok ex_locals_after, ex_log_after) /\
   exists pairs ids,
     infer_metric_names ex_world (method_dirs ex_locals) = Ok pairs /\
     method_ids ex_locals = Some ids /\
     match last_opt (zip3 ids (method_names ex_locals) (method_dirs ex_locals)),
           last_opt pairs with
     | Some m, Some p =>
         exists metric,
           load_metrics ex_world (metrics_path (snd m) p) = Ok metric /\
           num_samples ex_locals_after = Some (num_rows metric) /\
           forall r s'',
             main_images ex_world ex_args_sorted ex_locals_after ex_log_after = (r, s'') ->
             exists k, k <= num_rows metric /\
                       sample_rows s'' = sample_rows ex_log_after ++ seq 0 k /\
                       (r = Ok tt -> k = num_rows metric)
     | _, _ => num_samples ex_locals_after = num_samples ex_locals
     end) /\
  (run ex_world ex_args_sorted = (Ok tt, snd (run ex_world ex_args_sorted)) /\
   only_metrics ex_args_sorted = false /\
   exists nd loc s1 pairs ids m p metric,
     discover_methods ex_world ex_args_sorted = Ok nd /\
     main_sort ex_world ex_args_sorted (fst nd) (snd nd) [AddHeader1] = (Ok loc, s1) /\
     infer_metric_names ex_world (method_dirs loc) = Ok pairs /\
     method_ids loc = Some ids /\
     last_opt (zip3 ids (method_names loc) (method_dirs loc)) = Some m /\
     last_opt pairs = Some p /\
     load_metrics ex_world (metrics_path (snd m) p) = Ok metric /\
     sample_rows (snd (run ex_world ex_args_sorted)) = seq 0 (num_rows metric)).
Proof.
  assert (E1 : main_table ex_world ex_args_sorted ex_locals
                 [AddHeader1; AddHeader3 "pred" "mse"]
               = (Ok ex_locals_after, ex_log_after)) by (vm_compute; reflexivity).
  assert (E2 : run ex_world ex_args_sorted = (Ok tt, snd (run ex_world ex_args_sorted)))
    by (vm_compute; reflexivity).
  split.
  - split; [exact E1|].
    exact (proj1 num_samples_is_last_metrics_rows ex_world ex_args_sorted
             ex_locals ex_locals_after _ ex_log_after E1).
  - split; [exact E2|]. split; [reflexivity|].
    exact (proj2 num_samples_is_last_metrics_rows ex_world ex_args_sorted _ E2 eq_refl).
Defined.

(** The example run with a sort specification: the local variables after
    the sort are [ex_locals], the matrix loaded last has three rows, and the
    report gets the image rows of the samples 0, 1, 2. *)
Lemma run_sorted_sample_rows :
  fst (main_sort ex_world ex_args_sorted ["a"; "b"]%string ["r/a"; "r/b"]%string [])
    = Ok ex_locals /\
  load_metrics ex_world "r/a/pred/metrics/mse" =
    Ok [[Num 1; Num 3]; [Num 2; Num 4]; [Num 3; Num 2]] /\
  sample_rows (snd (run ex_world ex_args_sorted)) = [0; 1; 2].
Proof. vm_compute. auto. Qed.

(** * Further properties *)

(** ** concat_images *)

Lemma min_len_le {A} (ls : list (list A)) s : In s ls -> min_len ls <= length s.
Proof.
  induction ls as [|l ls' IH]; [intros []|].
  destruct ls' as [|l' ls''].
  - intros [<-|[]]. simpl. lia.
  - change (min_len (l :: l' :: ls'')) with (Nat.min (length l) (min_len (l' :: ls''))).
    intros [<-|Hin]; [lia|]. specialize (IH Hin). lia.
Qed.

(** X1.  Whenever [concat_images] returns, it returns exactly as many
    frames as the shortest sequence has, so no more than any sequence
    has: the frames of longer sequences beyond that are dropped. *)
Theorem concat_images_truncates (ims : list (list image)) (frames : list image) :
  concat_images ims = Ok frames ->
  length frames = min_len ims /\
  forall s, In s ims -> length frames <= length s.
Proof.
  intros H. pose proof (concat_images_length ims frames H) as E.
  split; [exact E|]. intros s Hs. rewrite E. apply min_len_le. exact Hs.
Qed.

Lemma concat_images_truncates_witness :
  concat_images ex_2_3_same = Ok [mk_image 8 16; mk_image 8 16] /\
  length [mk_image 8 16; mk_image 8 16] = min_len ex_2_3_same /\
  forall s, In s ex_2_3_same -> length [mk_image 8 16; mk_image 8 16] <= length s.
Proof.
  assert (E : concat_images ex_2_3_same = Ok [mk_image 8 16; mk_image 8 16])
    by reflexivity.
  split; [exact E|]. exact (concat_images_truncates _ _ E).
Defined.

Lemma mapM_In {A B} (f : A -> result B) l l' y :
  mapM f l = Ok l' -> In y l' -> exists x, In x l /\ f x = Ok y.
Proof.
  intros H. apply mapM_Forall2 in H. induction H as [|x y' r r' Hx Hr IH]; [intros []|].
  intros [<-|Hin]; [exists x; simpl; auto|].
  destruct (IH Hin) as (x' & Hx' & E). exists x'; simpl; auto.
Qed.

Lemma maybe_resize_shapes mh mw im r :
  maybe_resize (Some mh, Some mw) im = Ok r -> r = mk_image mh mw \/ r = mk_image mw mh.
Proof.
  unfold maybe_resize, shape_eqb, shape, cv2_resize. simpl.
  destruct ((height im =? mh) && (width im =? mw)) eqn:E.
  - intros H. injection H as <-. apply andb_true_iff in E as [E1 E2].
    apply Nat.eqb_eq in E1, E2. left. destruct im; simpl in *; subst; reflexivity.
  - destruct (_ || _); [discriminate|]. intros H. injection H as <-. right; reflexivity.
Qed.

Lemma resized_shapes mh mw ims res r :
  mapM (mapM (maybe_resize (Some mh, Some mw))) ims = Ok res ->
  In r (concat res) -> r = mk_image mh mw \/ r = mk_image mw mh.
Proof.
  intros H Hr. apply in_concat in Hr as (s' & Hs' & Hr).
  destruct (mapM_In _ _ _ _ H Hs') as (s & _ & Es).
  destruct (mapM_In _ _ _ _ Es Hr) as (im & _ & Eim).
  eapply maybe_resize_shapes; exact Eim.
Qed.

Lemma np_concatenate_heights t f :
  np_concatenate_axis1 t = Ok f ->
  exists a, In a t /\ forall b, In b t -> height b = height a.
Proof.
  destruct t as [|a rest]; [discriminate|]. simpl.
  destruct (forallb (fun b => height b =? height a) rest) eqn:E; [|discriminate].
  intros _. exists a. split; [auto|]. intros b [<-|Hb]; [reflexivity|].
  rewrite forallb_forall in E. apply Nat.eqb_eq. apply E. exact Hb.
Qed.

Lemma mapM_resize_length mins ims res :
  mapM (mapM (maybe_resize mins)) ims = Ok res -> length res = length ims.
Proof. apply mapM_length. Qed.

(** X2.  Every frame [concat_images] returns has height minH and width
    N * minW, or height minW and width N * minH, for the N sequences given
    and the minima minH, minW over all their frames: the second when the
    frames of that time step were resized, because [cv2.resize] is given
    (min_height, min_width) where it reads (width, height). *)
Theorem concat_images_frame_shapes (ims : list (list image)) (frames : list image)
    (mh mw : nat) :
  concat_images ims = Ok frames ->
  is_min height ims mh -> is_min width ims mw ->
  Forall (fun f => (height f = mh /\ width f = mw * length ims) \/
                   (height f = mw /\ width f = mh * length ims)) frames.
Proof.
  intros H Hh Hw. unfold concat_images in H.
  assert (Em : min_shape ims = (Some mh, Some mw)).
  { pose proof (min_shape_spec ims) as Hm.
    destruct (concat ims) as [|im0 r] eqn:Ec.
    - destruct Hh as [(a & Ha & _) _]. rewrite Ec in Ha. destruct Ha.
    - destruct Hm as (mh' & mw' & Em & Hh' & Hw').
      rewrite Em, (is_min_unique _ _ _ _ Hh Hh'), (is_min_unique _ _ _ _ Hw Hw').
      reflexivity. }
  rewrite Em in H.
  destruct (mapM (mapM (maybe_resize (Some mh, Some mw))) ims) as [res|] eqn:Er;
    [|discriminate].
  pose proof (mapM_resize_length _ _ _ Er) as Hlen.
  apply Forall_forall. intros f Hf.
  destruct (mapM_In _ _ _ _ H Hf) as (t & Ht & Ef).
  apply zip_star_tuples in Ht as [Htl Hsub]. rewrite Hlen in Htl.
  assert (Hshape : forall b, In b t -> b = mk_image mh mw \/ b = mk_image mw mh).
  { intros b Hb. eapply resized_shapes; [exact Er | apply Hsub; exact Hb]. }
  destruct (np_concatenate_heights _ _ Ef) as (a & Ha & Hsame).
  assert (Hne : t <> []) by (intros ->; destruct Ha).
  destruct (Hshape a Ha) as [Ea|Ea].
  - assert (Hall : forall b, In b t -> b = mk_image mh mw).
    { intros b Hb. destruct (Hshape b Hb) as [E|E]; [exact E|].
      specialize (Hsame b Hb). rewrite E, Ea in Hsame. simpl in Hsame.
      subst mw. exact E. }
    rewrite (np_concatenate_uniform _ _ Hne Hall) in Ef. injection Ef as <-.
    left. simpl. rewrite Htl. auto.
  - assert (Hall : forall b, In b t -> b = mk_image mw mh).
    { intros b Hb. destruct (Hshape b Hb) as [E|E]; [|exact E].
      specialize (Hsame b Hb). rewrite E, Ea in Hsame. simpl in Hsame.
      subst mw. exact E. }
    rewrite (np_concatenate_uniform _ _ Hne Hall) in Ef. injection Ef as <-.
    right. simpl. rewrite Htl. auto.
Qed.

Lemma concat_images_frame_shapes_witness :
  concat_images ex_per_step = Ok [mk_image 8 20; mk_image 10 16] /\
  is_min height ex_per_step 8 /\ is_min width ex_per_step 10 /\
  Forall (fun f => (height f = 8 /\ width f = 10 * length ex_per_step) \/
                   (height f = 10 /\ width f = 8 * length ex_per_step))
         [mk_image 8 20; mk_image 10 16].
Proof.
  assert (E : concat_images ex_per_step = Ok [mk_image 8 20; mk_image 10 16])
    by reflexivity.
  assert (Hh : is_min height ex_per_step 8).
  { unfold is_min, ex_per_step; simpl. split.
    - exists (mk_image 8 10); simpl; auto.
    - intros im H; repeat (destruct H as [<-|H]; [simpl; lia|]); contradiction. }
  assert (Hw : is_min width ex_per_step 10).
  { unfold is_min, ex_per_step; simpl. split.
    - exists (mk_image 8 10); simpl; auto.
    - intros im H; repeat (destruct H as [<-|H]; [simpl; lia|]); contradiction. }
  split; [exact E|]. split; [exact Hh|]. split; [exact Hw|].
  exact (concat_images_frame_shapes _ _ 8 10 E Hh Hw).
Defined.

Lemma nth_error_combine {A B} (l : list A) (l' : list B) t x y :
  nth_error l t = Some x -> nth_error l' t = Some y ->
  nth_error (combine l l') t = Some (x, y).
Proof.
  revert l l'. induction t as [|t IH]; intros [|a l] [|b l']; simpl; try discriminate.
  - intros H1 H2. injection H1 as ->. injection H2 as ->. reflexivity.
  - apply IH.
Qed.

(** The tuple [zip] yields at position [t] holds the [t]-th element of
    every list. *)
Lemma zip_star_column {A} (ls : list (list A)) t :
  t < min_len ls ->
  exists tup, nth_error (zip_star ls) t = Some tup /\
              forall l x, In l ls -> nth_error l t = Some x -> In x tup.
Proof.
  induction ls as [|l ls' IH]; [simpl; lia|].
  destruct ls' as [|l' ls''].
  - simpl. intros Ht. destruct (nth_error l t) as [x0|] eqn:E.
    + exists [x0]. split; [exact (map_nth_error (fun x => [x]) t l E)|].
      intros l0 x [<-|[]] Hx. rewrite E in Hx. injection Hx as ->. left; reflexivity.
    + apply nth_error_None in E. lia.
  - change (min_len (l :: l' :: ls'')) with (Nat.min (length l) (min_len (l' :: ls''))).
    change (zip_star (l :: l' :: ls'')) with
      (map (fun p => fst p :: snd p) (combine l (zip_star (l' :: ls'')))).
    intros Ht. destruct IH as (tup' & Etup & Hcol); [lia|].
    destruct (nth_error l t) as [x0|] eqn:E.
    + exists (x0 :: tup'). split.
      * exact (map_nth_error (fun p => fst p :: snd p) t
                 (combine l (zip_star (l' :: ls'')))
                 (nth_error_combine l _ t x0 tup' E Etup)).
      * intros l0 x [<-|Hin] Hx.
        -- rewrite E in Hx. injection Hx as ->. left; reflexivity.
        -- right. eapply Hcol; eassumption.
    + apply nth_error_None in E. lia.
Qed.

Lemma np_concatenate_mismatch t x y :
  In x t -> In y t -> height x <> height y -> np_concatenate_axis1 t = Raise ValueError.
Proof.
  destruct t as [|a rest]; [intros []|]. intros Hx Hy Hne. simpl.
  destruct (forallb (fun b => height b =? height a) rest) eqn:E; [|reflexivity].
  exfalso. rewrite forallb_forall in E.
  assert (Hall : forall b, In b (a :: rest) -> height b = height a).
  { intros b [<-|Hb]; [reflexivity|]. apply Nat.eqb_eq. apply E. exact Hb. }
  apply Hne. rewrite (Hall x Hx), (Hall y Hy). reflexivity.
Qed.

(** X3.  With non-empty frames and minH different from minW,
    [concat_images] raises [ValueError] as soon as, at some time step that
    all sequences reach, one sequence has a frame of the minimal shape and
    another one a frame of any other shape: the second is resized to
    (minW, minH) and the two heights differ. *)
Theorem concat_images_mixed_raises (ims : list (list image)) (mh mw t : nat)
    (s1 s2 : list image) (a b : image) :
  is_min height ims mh -> is_min width ims mw -> mh <> mw ->
  Forall (Forall positive) ims ->
  t < min_len ims ->
  In s1 ims -> In s2 ims ->
  nth_error s1 t = Some a -> nth_error s2 t = Some b ->
  shape a = (mh, mw) -> shape b <> (mh, mw) ->
  concat_images ims = Raise ValueError.
Proof.
  intros Hh Hw Hne Hpos Ht Hs1 Hs2 Ha Hb Sa Sb.
  assert (Hposc : forall im, In im (concat ims) -> positive im).
  { intros im Him. apply in_concat in Him as (s & Hs & Him).
    rewrite Forall_forall in Hpos. specialize (Hpos s Hs).
    rewrite Forall_forall in Hpos. auto. }
  assert (Em : min_shape ims = (Some mh, Some mw)).
  { pose proof (min_shape_spec ims) as Hm.
    destruct (concat ims) as [|im0 r] eqn:Ec.
    - destruct Hh as [(x & Hx & _) _]. rewrite Ec in Hx. destruct Hx.
    - destruct Hm as (mh' & mw' & Em & Hh' & Hw').
      rewrite Em, (is_min_unique _ _ _ _ Hh Hh'), (is_min_unique _ _ _ _ Hw Hw').
      reflexivity. }
  assert (Hmh : 0 < mh).
  { destruct Hh as [(x & Hx & <-) _]. apply (Hposc x Hx). }
  assert (Hmw : 0 < mw).
  { destruct Hw as [(x & Hx & <-) _]. apply (Hposc x Hx). }
  set (g := fun im => if shape_eqb (shape im) (mh, mw) then im else mk_image mw mh).
  assert (Hg : forall im, In im (concat ims) ->
                 maybe_resize (min_shape ims) im = Ok (g im)).
  { intros im Him. rewrite Em. unfold maybe_resize, g.
    destruct (shape_eqb (shape im) (mh, mw)); [reflexivity|].
    unfold cv2_resize. simpl. destruct (Hposc im Him) as [H1 H2].
    destruct mh; [lia|]. destruct mw; [lia|].
    destruct (height im); [lia|]. destruct (width im); [lia|]. reflexivity. }
  unfold concat_images. rewrite (resize_pass _ g ims Hg).
  destruct (zip_star_column (map (map g) ims) t) as (tup & Etup & Hcol).
  { rewrite (min_len_same_lengths ims (map (map g) ims)); [exact Ht|].
    clear. induction ims; constructor; [apply length_map | assumption]. }
  assert (Hga : In (g a) tup).
  { apply (Hcol (map g s1)); [apply in_map; exact Hs1 | apply map_nth_error; exact Ha]. }
  assert (Hgb : In (g b) tup).
  { apply (Hcol (map g s2)); [apply in_map; exact Hs2 | apply map_nth_error; exact Hb]. }
  apply (mapM_raise _ _ _ tup).
  - eapply nth_error_In; exact Etup.
  - apply (np_concatenate_mismatch tup (g a) (g b) Hga Hgb).
    unfold g, shape_eqb. rewrite Sa. simpl. rewrite !Nat.eqb_refl. simpl.
    destruct ((height b =? mh) && (width b =? mw)) eqn:E.
    + exfalso. apply Sb. apply andb_true_iff in E as [E1 E2].
      apply Nat.eqb_eq in E1, E2. unfold shape. congruence.
    + simpl. injection Sa as Sa _. rewrite Sa. exact Hne.
  - intros y e' H. destruct y as [|y0 yr]; simpl in H; [congruence|].
    destruct (forallb _ yr); congruence.
Qed.

Lemma concat_images_mixed_raises_witness :
  concat_images ex_2_3_mixed = Raise ValueError.
Proof.
  apply (concat_images_mixed_raises ex_2_3_mixed 8 10 0
           [mk_image 8 10; mk_image 8 10]
           [mk_image 10 10; mk_image 10 10; mk_image 10 10]
           (mk_image 8 10) (mk_image 10 10)).
  - unfold is_min, ex_2_3_mixed; simpl. split.
    + exists (mk_image 8 10); simpl; auto.
    + intros im H; repeat (destruct H as [<-|H]; [simpl; lia|]); contradiction.
  - unfold is_min, ex_2_3_mixed; simpl. split.
    + exists (mk_image 8 10); simpl; auto.
    + intros im H; repeat (destruct H as [<-|H]; [simpl; lia|]); contradiction.
  - lia.
  - unfold positive; repeat constructor; simpl; lia.
  - simpl; lia.
  - simpl; auto.
  - simpl; auto.
  - reflexivity.
  - reflexivity.
  - reflexivity.
  - discriminate.
Defined.

(** ** load_metrics *)

(** X4.  The failures of [load_metrics]: a missing file raises
    [FileNotFoundError]; a file without any row raises [IndexError]; a
    file with a data row whose number of cells differs from the header's
    raises [ValueError] under a numpy that refuses such rows (1.24 and
    later) and [IndexError] under an earlier one; a rectangular table with
    a non-numeric cell strictly between the first and the last column of a
    data row raises [ValueError]; a table with a header only loads as the
    matrix without rows. *)
Theorem load_metrics_failures (w : World) (prefix_fname : string) :
  (isfile w (String.append prefix_fname ".csv") = false ->
   load_metrics w prefix_fname = Raise FileNotFoundError) /\
  (isfile w (String.append prefix_fname ".csv") = true ->
   csv_rows w (String.append prefix_fname ".csv") = [] ->
   load_metrics w prefix_fname = Raise IndexError) /\
  (forall header data,
     isfile w (String.append prefix_fname ".csv") = true ->
     csv_rows w (String.append prefix_fname ".csv") = header :: data ->
     (exists r, In r data /\ length r <> length header) ->
     load_metrics w prefix_fname =
       Raise (if ragged_is_error w then ValueError else IndexError)) /\
  (forall header data,
     isfile w (String.append prefix_fname ".csv") = true ->
     csv_rows w (String.append prefix_fname ".csv") = header :: data ->
     Forall (fun r => length r = length header) data ->
     (exists r c, In r data /\ In c (slice_1_m1 r) /\ float32_of_str w c = None) ->
     load_metrics w prefix_fname = Raise ValueError) /\
  (forall header,
     isfile w (String.append prefix_fname ".csv") = true ->
     csv_rows w (String.append prefix_fname ".csv") = [header] ->
     load_metrics w prefix_fname = Ok []).
Proof.
  unfold load_metrics, open_csv. repeat split.
  - intros ->. reflexivity.
  - intros -> ->. reflexivity.
  - intros header data -> -> (r & Hr & Hlen). unfold np_array_slice.
    destruct (forallb (fun r0 => length r0 =? length header) data) eqn:E;
      [|destruct (ragged_is_error w); reflexivity].
    rewrite forallb_forall in E. specialize (E r Hr). apply Nat.eqb_eq in E. contradiction.
  - intros header data -> -> Hrect (r & c & Hr & Hc & Hnone). unfold np_array_slice.
    replace (forallb (fun r0 => length r0 =? length header) data) with true.
    2:{ symmetry. apply forallb_forall. intros r0 Hr0. rewrite Forall_forall in Hrect.
        rewrite (Hrect r0 Hr0). apply Nat.eqb_refl. }
    unfold astype_float32.
    assert (Hconv : forall y e',
               match float32_of_str w y with
               | Some q => Ok q
               | None => Raise ValueError
               end = Raise e' -> e' = ValueError).
    { intros y e' H. destruct (float32_of_str w y); congruence. }
    apply (mapM_raise _ _ _ (slice_1_m1 r)).
    + apply in_map. exact Hr.
    + apply (mapM_raise _ _ _ c Hc); [rewrite Hnone; reflexivity | exact Hconv].
    + intros cs e' H.
      destruct (mapM (fun c0 => match float32_of_str w c0 with
                                | Some q => Ok q
                                | None => Raise ValueError
                                end) cs) as [qs|e0] eqn:E; [discriminate|].
      injection H as <-.
      clear -E Hconv. induction cs as [|c0 cs IH]; simpl in E; [discriminate|].
      destruct (float32_of_str w c0) eqn:E0; [|congruence].
      destruct (mapM _ cs); [discriminate|]. injection E as <-. apply IH. reflexivity.
  - intros header -> ->. reflexivity.
Qed.

Lemma load_metrics_failures_witness :
  load_metrics ex_world "r/c/pred/metrics/mse" = Raise FileNotFoundError /\
  load_metrics (world_of_csv []) "m" = Raise IndexError /\
  load_metrics (world_of_csv [["id"; "t0"; "mean"]; ["0"; "1"]]%string) "m"
    = Raise ValueError /\
  load_metrics (world_of_csv_old_numpy [["id"; "t0"; "mean"]; ["0"; "1"]]%string) "m"
    = Raise IndexError /\
  load_metrics (world_of_csv [["id"; "t0"; "mean"]; ["0"; "abc"; "1"]]%string) "m"
    = Raise ValueError /\
  load_metrics (world_of_csv [["id"; "t0"; "mean"]]%string) "m" = Ok [].
Proof.
  split; [|split; [|split; [|split; [|split]]]].
  - apply (proj1 (load_metrics_failures ex_world "r/c/pred/metrics/mse")). reflexivity.
  - apply (proj1 (proj2 (load_metrics_failures (world_of_csv []) "m"))); reflexivity.
  - apply (proj1 (proj2 (proj2 (load_metrics_failures
             (world_of_csv [["id"; "t0"; "mean"]; ["0"; "1"]]%string) "m")))
             ["id"; "t0"; "mean"]%string [["0"; "1"]]%string); try reflexivity.
    exists ["0"; "1"]%string. split; [left; reflexivity | discriminate].
  - apply (proj1 (proj2 (proj2 (load_metrics_failures
             (world_of_csv_old_numpy [["id"; "t0"; "mean"]; ["0"; "1"]]%string) "m")))
             ["id"; "t0"; "mean"]%string [["0"; "1"]]%string); try reflexivity.
    exists ["0"; "1"]%string. split; [left; reflexivity | discriminate].
  - apply (proj1 (proj2 (proj2 (proj2 (load_metrics_failures
             (world_of_csv [["id"; "t0"; "mean"]; ["0"; "abc"; "1"]]%string) "m"))))
             ["id"; "t0"; "mean"]%string [["0"; "abc"; "1"]]%string); try reflexivity.
    + repeat constructor.
    + exists ["0"; "abc"; "1"]%string, "abc"%string.
      split; [left; reflexivity|]. split; [left; reflexivity | reflexivity].
  - apply (proj2 (proj2 (proj2 (proj2 (load_metrics_failures
             (world_of_csv [["id"; "t0"; "mean"]]%string) "m"))))
             ["id"; "t0"; "mean"]%string); reflexivity.
Defined.

(** ** save_images *)

Lemma for_each_emit {A} (f : A -> event) (l : list A) (s : log) :
  for_each l (fun p _ => emit (f p)) tt s = (Ok tt, s ++ map f l).
Proof.
  revert s. induction l as [|x r IH]; intros s; simpl.
  - unfold ret. rewrite app_nil_r. reflexivity.
  - unfold bind, emit at 1. rewrite IH, <- app_assoc. reflexivity.
Qed.

Lemma save_images_nonempty (image_fnames : list string) (images : list image) (s : log) :
  image_fnames <> [] ->
  save_images image_fnames images s =
    (Ok tt, s ++ map (fun p => WriteJpg (fst p) (snd p)) (combine image_fnames images)).
Proof.
  intros Hne. destruct image_fnames as [|f0 fs]; [congruence|].
  unfold save_images, bind, lift. simpl first.
  apply (for_each_emit (fun p : string * image => WriteJpg (fst p) (snd p))).
Qed.

(** ** Method discovery *)

Lemma default_method_dirs_perm listing :
  Permutation (default_method_dirs listing) (list_remove "web" listing).
Proof.
  unfold default_method_dirs.
  assert (E0 : (if in_list "web" listing then list_remove "web" listing else listing)
               = list_remove "web" listing).
  { destruct (in_list "web" listing) eqn:E; [reflexivity|].
    symmetry. apply list_remove_absent. exact E. }
  rewrite E0. generalize (list_remove "web" listing). intros u0. simpl.
  destruct (in_list "ground_truth" u0) eqn:G; simpl.
  - destruct (in_list "repeat" (list_remove "ground_truth" u0)) eqn:R; simpl.
    + rewrite sorted_perm. rewrite (list_remove_perm "ground_truth" u0 G) at 2.
      constructor. symmetry. apply list_remove_perm. exact R.
    + rewrite sorted_perm. symmetry. apply list_remove_perm. exact G.
  - destruct (in_list "repeat" u0) eqn:R; simpl.
    + rewrite sorted_perm. symmetry. apply list_remove_perm. exact R.
    + apply sorted_perm.
Qed.

Lemma list_remove_NoDup x l :
  NoDup l -> NoDup (list_remove x l) /\ forall y, In y (list_remove x l) <-> In y l /\ y <> x.
Proof.
  induction 1 as [|z r Hz Hr IH]; simpl.
  - split; [constructor|]. intros y. tauto.
  - destruct IH as [IH1 IH2]. destruct (String.eqb x z) eqn:E.
    + apply String.eqb_eq in E. subst z. split; [exact Hr|].
      intros y. split.
      * intros Hy. split; [right; exact Hy|]. intros ->. contradiction.
      * intros [[->|Hy] Hne]; [congruence | exact Hy].
    + apply String.eqb_neq in E. split.
      * constructor; [|exact IH1]. intros Hin. apply IH2 in Hin. tauto.
      * intros y. simpl. rewrite IH2. split.
        -- intros [->|[Hy Hne]]; [split; [left; reflexivity | congruence] | tauto].
        -- intros [[->|Hy] Hne]; [left; reflexivity | right; tauto].
Qed.

(** X6.  On a listing without repetitions, as a directory listing is,
    default method discovery returns every entry other than [web] exactly
    once and nothing else. *)
Theorem default_method_dirs_keeps_all (listing : list string) :
  NoDup listing ->
  NoDup (default_method_dirs listing) /\
  forall x, In x (default_method_dirs listing) <-> In x listing /\ x <> "web"%string.
Proof.
  intros Hnd. destruct (list_remove_NoDup "web" listing Hnd) as [H1 H2].
  pose proof (default_method_dirs_perm listing) as Hp. split.
  - eapply Permutation_NoDup; [symmetry; exact Hp | exact H1].
  - intros x. rewrite <- H2. split; apply Permutation_in; [exact Hp | symmetry; exact Hp].
Qed.

Lemma default_method_dirs_keeps_all_witness :
  NoDup ["b"; "web"; "repeat"; "a"]%string /\
  NoDup (default_method_dirs ["b"; "web"; "repeat"; "a"]%string) /\
  forall x, In x (default_method_dirs ["b"; "web"; "repeat"; "a"]%string) <->
            In x ["b"; "web"; "repeat"; "a"]%string /\ x <> "web"%string.
Proof.
  assert (H : NoDup ["b"; "web"; "repeat"; "a"]%string).
  { repeat constructor; simpl; intros F;
      repeat (destruct F as [F|F]; [discriminate|]); exact F. }
  split; [exact H|]. exact (default_method_dirs_keeps_all _ H).
Defined.

(** ** Sorting the methods *)

Lemma sorted_fixed {A} (ltb : A -> A -> bool) l :
  Sorted (not_after ltb) l -> sorted ltb l = l.
Proof.
  induction 1 as [|x r Hr IH Hhd]; [reflexivity|].
  simpl. rewrite IH. destruct Hhd as [|y r' Hxy]; [reflexivity|].
  simpl. unfold not_after in Hxy. rewrite Hxy. reflexivity.
Qed.

Lemma Sorted_map_seq {A} (R : A -> A -> Prop) (f : nat -> A) a n :
  (forall k, a <= k -> S k < a + n -> R (f k) (f (S k))) ->
  Sorted R (map f (seq a n)).
Proof.
  revert a. induction n as [|n IH]; intros a H; simpl; [constructor|].
  constructor.
  - apply IH. intros k Hk Hlt. apply H; lia.
  - destruct n; simpl; constructor. apply H; lia.
Qed.

Lemma Sorted_f_le_adjacent crit k :
  Sorted f_le crit -> S k < length crit ->
  f_le (nth k crit (Num 0)) (nth (S k) crit (Num 0)).
Proof.
  intros H. revert k. induction H as [|a r Hr IH Hhd]; intros k Hk; [simpl in Hk; lia|].
  destruct k as [|k].
  - destruct Hhd as [|b r' Hab]; [simpl in Hk; lia | exact Hab].
  - simpl in Hk. apply (IH k). lia.
Qed.

Lemma f_le_not_nan a b : f_le a b -> not_nan a /\ not_nan b.
Proof. intros [H|H]; [apply f_lt_not_nan | apply f_eq_not_nan]; exact H. Qed.

(** Two or more means in ascending order hold no NaN. *)
Lemma Sorted_f_le_not_nan crit :
  Sorted f_le crit -> 2 <= length crit -> Forall not_nan crit.
Proof.
  induction 1 as [|a r Hr IH Hhd]; intros Hlen; [constructor|].
  destruct Hhd as [|b r' Hab]; [simpl in Hlen; lia|].
  destruct (f_le_not_nan a b Hab) as [Ha Hb].
  constructor; [exact Ha|].
  destruct r' as [|c r'']; [constructor; [exact Hb | constructor]|].
  apply IH. simpl. lia.
Qed.

Lemma map_nth_seq {A} (l : list A) d :
  map (fun i => nth i l d) (seq 0 (length l)) = l.
Proof.
  induction l as [|a l IH]; [reflexivity|].
  simpl. f_equal. rewrite <- seq_shift, map_map. exact IH.
Qed.

(** X7.  Sorting methods whose means are already in ascending order
    changes nothing: the means, names and directories come back as given
    and the original indices are 0, 1, ..., n-1. *)
Theorem sort_methods_sorted_input (w : World) (sort_criterion : list float)
    (names dirs : list string) :
  sort_criterion <> [] ->
  length names = length sort_criterion ->
  length dirs = length sort_criterion ->
  Sorted f_le sort_criterion ->
  sort_methods w sort_criterion names dirs =
    Ok (sort_criterion, seq 0 (length sort_criterion), names, dirs).
Proof.
  intros Hne Hn Hd Hs. unfold sort_methods.
  rewrite (zip4_spec sort_criterion names dirs 0), Hn, Hd, !Nat.min_id.
  change (fun k => (nth k sort_criterion (Num 0), 0 + k,
                    nth k names EmptyString, nth k dirs EmptyString))
    with (tuple_of sort_criterion names dirs).
  match goal with |- context [sorted_keys w ?l] =>
    assert (Hsort : sorted_keys w l = sorted tuple_ltb l) end.
  { destruct (le_lt_dec 2 (length sort_criterion)) as [H2|H2].
    - apply sorted_keys_numbers. apply Forall_map. apply Forall_forall. intros i _.
      exact (nth_not_nan sort_criterion i (Sorted_f_le_not_nan sort_criterion Hs H2)).
    - unfold sorted_keys. rewrite length_map, length_seq.
      replace (2 <=? length sort_criterion) with false; [reflexivity|].
      symmetry. apply Nat.leb_gt. exact H2. }
  rewrite Hsort, sorted_fixed.
  - rewrite unzip4_nonempty.
    + rewrite !map_map. unfold tuple_of, idx. simpl.
      rewrite map_id, (map_nth_seq sort_criterion (Num 0)).
      rewrite <- Hn at 2. rewrite (map_nth_seq names EmptyString).
      rewrite <- Hd. rewrite (map_nth_seq dirs EmptyString). rewrite Hd. reflexivity.
    + destruct sort_criterion; [congruence | discriminate].
  - apply Sorted_map_seq. intros k _ Hk. simpl in Hk.
    pose proof (Sorted_f_le_adjacent sort_criterion k Hs Hk) as Hle.
    assert (E : (S k =? k) = false) by (apply Nat.eqb_neq; lia).
    assert (E' : (S k <? k) = false) by (apply Nat.ltb_ge; lia).
    unfold not_after, tuple_of, tuple_ltb. rewrite E, E'.
    destruct (f_eqb (nth (S k) sort_criterion (Num 0)) (nth k sort_criterion (Num 0)))
      eqn:Eq; [reflexivity|].
    cbn [negb]. destruct Hle as [Hlt|Heq].
    + apply f_ltb_asym. exact Hlt.
    + unfold f_eq in Heq. rewrite f_eqb_sym in Heq. congruence.
Qed.

Lemma sort_methods_sorted_input_witness :
  sort_methods ex_world [Num (1 # 5); Num (1 # 5); Num (1 # 2)]
               ["m0"; "m1"; "m2"]%string ["d0"; "d1"; "d2"]%string =
    Ok ([Num (1 # 5); Num (1 # 5); Num (1 # 2)],
        seq 0 (length [Num (1 # 5); Num (1 # 5); Num (1 # 2)]),
        ["m0"; "m1"; "m2"]%string, ["d0"; "d1"; "d2"]%string).
Proof.
  apply (sort_methods_sorted_input ex_world [Num (1 # 5); Num (1 # 5); Num (1 # 2)]
           ["m0"; "m1"; "m2"]%string ["d0"; "d1"; "d2"]%string).
  - discriminate.
  - reflexivity.
  - reflexivity.
  - apply Sorted_cons; [apply Sorted_cons; [apply Sorted_cons; constructor|]|].
    + apply HdRel_cons. left. reflexivity.
    + apply HdRel_cons. right. reflexivity.
Defined.

(** ** The header of the metrics table *)

Lemma Sorted_snoc {A} (R : A -> A -> Prop) l x d :
  Sorted R l -> (l <> [] -> R (last l d) x) -> Sorted R (l ++ [x]).
Proof.
  induction 1 as [|a r Hr IH Hhd]; intros Hx; simpl; [repeat constructor|].
  destruct r as [|b r'].
  - simpl. constructor; [repeat constructor|]. constructor. apply Hx. discriminate.
  - constructor.
    + apply IH. intros _. apply Hx. discriminate.
    + simpl. constructor. inversion Hhd; assumption.
Qed.

Lemma bump_last (l : list nat) k :
  l <> [] ->
  length (removelast l ++ [last l 0 + k]) = length l /\
  list_sum (removelast l ++ [last l 0 + k]) = list_sum l + k.
Proof.
  intros Hne. destruct (exists_last Hne) as (l' & x & ->).
  rewrite removelast_last, last_last, !length_app, !list_sum_app. simpl. lia.
Qed.

Lemma header_step_cases args txts spans task :
  header_step args (txts, spans) task =
  if String.eqb task (last txts EmptyString)
  then (txts, removelast spans ++ [last spans 0 + se_span args])
  else (txts ++ [task], spans ++ [se_span args]).
Proof.
  unfold header_step. simpl. destruct (String.eqb task (last txts EmptyString)); reflexivity.
Qed.

Lemma header_fold_inv args tasks txts spans :
  txts <> [] -> length txts = length spans ->
  Sorted (fun a b : string => a <> b) txts ->
  fst (fold_left (header_step args) tasks (txts, spans)) <> [] /\
  length (fst (fold_left (header_step args) tasks (txts, spans))) =
    length (snd (fold_left (header_step args) tasks (txts, spans))) /\
  list_sum (snd (fold_left (header_step args) tasks (txts, spans))) =
    list_sum spans + se_span args * length tasks /\
  Sorted (fun a b : string => a <> b)
         (fst (fold_left (header_step args) tasks (txts, spans))) /\
  (forall t, In t txts \/ In t tasks ->
             In t (fst (fold_left (header_step args) tasks (txts, spans)))).
Proof.
  revert txts spans. induction tasks as [|task r IH]; intros txts spans Hne Hlen Hs.
  - simpl. split; [exact Hne|]. split; [exact Hlen|]. split; [lia|].
    split; [exact Hs|]. intros t [H|[]]; exact H.
  - change (fold_left (header_step args) (task :: r) (txts, spans))
      with (fold_left (header_step args) r (header_step args (txts, spans) task)).
    rewrite header_step_cases.
    destruct (String.eqb task (last txts EmptyString)) eqn:E.
    + assert (Hsp : spans <> []) by (intros ->; destruct txts; [congruence|discriminate]).
      destruct (bump_last spans (se_span args) Hsp) as [L1 L2].
      destruct (IH txts (removelast spans ++ [last spans 0 + se_span args]) Hne
                  (eq_trans Hlen (eq_sym L1)) Hs) as (H1 & H2 & H3 & H4 & H5).
      split; [exact H1|]. split; [exact H2|]. split; [rewrite H3, L2; simpl; lia|].
      split; [exact H4|].
      intros t [H|[<-|H]]; [apply H5; auto | | apply H5; auto].
      apply H5. left. apply String.eqb_eq in E. rewrite E.
      destruct (exists_last Hne) as (l' & x & ->). rewrite last_last.
      apply in_or_app; right; left; reflexivity.
    + destruct (IH (txts ++ [task]) (spans ++ [se_span args])) as (H1 & H2 & H3 & H4 & H5).
      * destruct txts; discriminate.
      * rewrite !length_app, Hlen. reflexivity.
      * apply (Sorted_snoc _ _ _ EmptyString Hs). intros _ Heq.
        apply String.eqb_neq in E. congruence.
      * split; [exact H1|]. split; [exact H2|].
        split; [rewrite H3, list_sum_app; simpl; lia|]. split; [exact H4|].
        intros t [H|[<-|H]]; apply H5; auto;
          left; apply in_or_app; [left; exact H | right; left; reflexivity].
Qed.

Lemma subheader_cells_length args pairs :
  length (subheader_cells args pairs) = 2 + se_span args * length pairs.
Proof.
  unfold subheader_cells, se_span. simpl. do 2 f_equal.
  induction pairs as [|p r IH]; simpl; [lia|].
  rewrite length_app, IH. destruct (show_se args); simpl; lia.
Qed.

(** X8.  In the header row of the metrics table the names and the column
    spans are equally many, the spans add up to the number of cells of the
    sub-header row (two for id and method, then one or two per metric), no
    two neighbouring names are equal, and every task name occurs. *)
Theorem table_header_spans (args : Args) (pairs : list (string * string)) :
  length (fst (table_header args (map fst pairs))) =
    length (snd (table_header args (map fst pairs))) /\
  list_sum (snd (table_header args (map fst pairs))) =
    length (subheader_cells args pairs) /\
  Sorted (fun a b : string => a <> b) (fst (table_header args (map fst pairs))) /\
  (forall p, In p pairs -> In (fst p) (fst (table_header args (map fst pairs)))).
Proof.
  unfold table_header.
  destruct (header_fold_inv args (map fst pairs) [EmptyString] [2])
    as (_ & H2 & H3 & H4 & H5).
  - discriminate.
  - reflexivity.
  - repeat constructor.
  - split; [exact H2|]. split; [|split; [exact H4|]].
    + rewrite H3, subheader_cells_length, length_map. simpl. lia.
    + intros p Hp. apply H5. right. apply in_map. exact Hp.
Qed.

Lemma table_header_spans_witness :
  length (fst (table_header ex_args_sorted (map fst ex_found))) =
    length (snd (table_header ex_args_sorted (map fst ex_found))) /\
  list_sum (snd (table_header ex_args_sorted (map fst ex_found))) =
    length (subheader_cells ex_args_sorted ex_found) /\
  Sorted (fun a b : string => a <> b)
         (fst (table_header ex_args_sorted (map fst ex_found))) /\
  In "eval"%string (fst (table_header ex_args_sorted (map fst ex_found))).
Proof.
  destruct (table_header_spans ex_args_sorted ex_found) as (H1 & H2 & H3 & H4).
  split; [exact H1 | split; [exact H2 | split; [exact H3 |]]].
  apply (H4 ("eval", "psnr")%string). simpl. tauto.
Defined.

(** ** The rows of the metrics table *)

Lemma metric_step_ok w args dir p acc s acc' s' :
  metric_step w args dir p acc s = (Ok acc', s') ->
  s' = s /\
  exists metric, load_metrics w (metrics_path dir p) = Ok metric /\
                 fst acc' = fst acc ++ metric_cells w args metric.
Proof.
  unfold metric_step, metrics_path, metric_cells. intros H.
  apply bind_ok in H as (metric & s1 & H1 & H).
  unfold lift in H1. injection H1 as H1 <-.
  unfold ret in H. injection H as <- <-. split; [reflexivity|].
  exists metric. split; [exact H1 | reflexivity].
Qed.

Lemma metric_loop_ok w args dir pairs acc s acc' s' :
  for_each pairs (metric_step w args dir) acc s = (Ok acc', s') ->
  s' = s /\
  exists metrics,
    Forall2 (fun p metric => load_metrics w (metrics_path dir p) = Ok metric) pairs metrics /\
    fst acc' = fst acc ++ flat_map (metric_cells w args) metrics.
Proof.
  revert acc s. induction pairs as [|p r IH]; intros acc s H; simpl in H.
  - unfold ret in H. injection H as <- <-. split; [reflexivity|].
    exists []. split; [constructor | simpl; rewrite app_nil_r; reflexivity].
  - apply bind_ok in H as (acc1 & s1 & H1 & H).
    apply metric_step_ok in H1 as (-> & metric & Hload & E1).
    destruct (IH _ _ H) as (-> & metrics & HF & E2).
    split; [reflexivity|]. exists (metric :: metrics). split; [constructor; assumption|].
    rewrite E2, E1, <- app_assoc. reflexivity.
Qed.

(** What one method contributes to the table: a row with its original
    index, its name and the cells of its metrics, all of which load. *)
Lemma method_step_ok w args pairs m ns s ns' s' :
  method_step w args pairs m ns s = (Ok ns', s') ->
  exists metrics,
    Forall2 (fun p metric => load_metrics w (metrics_path (snd m) p) = Ok metric)
            pairs metrics /\
    s' = s ++ [AddRow (CInt (fst (fst m)) :: CStr (snd (fst m))
                         :: flat_map (metric_cells w args) metrics) None].
Proof.
  unfold method_step. intros H.
  apply bind_ok in H as (acc & s1 & H1 & H).
  apply metric_loop_ok in H1 as (-> & metrics & HF & E).
  apply bind_ok in H as (? & s2 & H2 & H). unfold ret in H. injection H as _ <-.
  unfold emit in H2. injection H2 as _ <-.
  exists metrics. split; [exact HF|]. simpl in E. rewrite E. reflexivity.
Qed.

Lemma table_loop_ok w args pairs methods ns s ns' s' :
  for_each methods (method_step w args pairs) ns s = (Ok ns', s') ->
  exists rows,
    s' = s ++ rows /\
    Forall2 (fun m row =>
               exists metrics,
                 Forall2 (fun p metric =>
                            load_metrics w (metrics_path (snd m) p) = Ok metric)
                         pairs metrics /\
                 row = AddRow (CInt (fst (fst m)) :: CStr (snd (fst m))
                                 :: flat_map (metric_cells w args) metrics) None)
            methods rows.
Proof.
  revert ns s. induction methods as [|m r IH]; intros ns s H; simpl in H.
  - unfold ret in H. injection H as _ <-. exists []. rewrite app_nil_r. split; constructor.
  - apply bind_ok in H as (ns1 & s1 & H1 & H).
    apply method_step_ok in H1 as (metrics & HF & ->).
    destruct (IH _ _ H) as (rows & -> & HR).
    eexists (_ :: rows). rewrite <- app_assoc. split; [reflexivity|].
    constructor; [|exact HR]. exists metrics. split; [exact HF | reflexivity].
Qed.

Lemma main_table_ok w args loc s loc' s' :
  main_table w args loc s = (Ok loc', s') ->
  exists pairs ids rows,
    infer_metric_names w (method_dirs loc) = Ok pairs /\
    method_ids loc = Some ids /\
    s' = s ++ [AddTable;
               AddRow (map CStr (fst (table_header args (map fst pairs))))
                      (Some (snd (table_header args (map fst pairs))));
               AddRow (subheader_cells args pairs) None]
           ++ rows ++ [Save] /\
    Forall2 (fun m row =>
               exists metrics,
                 Forall2 (fun p metric =>
                            load_metrics w (metrics_path (snd m) p) = Ok metric)
                         pairs metrics /\
                 row = AddRow (CInt (fst (fst m)) :: CStr (snd (fst m))
                                 :: flat_map (metric_cells w args) metrics) None)
            (zip3 ids (method_names loc) (method_dirs loc)) rows /\
    method_ids loc' = method_ids loc /\
    method_names loc' = method_names loc /\
    method_dirs loc' = method_dirs loc.
Proof.
  unfold main_table. intros H.
  apply bind_ok in H as (pairs & s1 & H1 & H).
  unfold lift in H1. injection H1 as H1 <-.
  apply bind_ok in H as (? & s2 & H2 & H). unfold emit in H2. injection H2 as _ <-.
  apply bind_ok in H as (? & s3 & H3 & H). unfold emit in H3. injection H3 as _ <-.
  apply bind_ok in H as (? & s4 & H4 & H). unfold emit in H4. injection H4 as _ <-.
  apply bind_ok in H as (ids & s5 & H5 & H).
  assert (Hids : method_ids loc = Some ids /\ s5 = ((s ++ [AddTable]) ++
             [AddRow (map CStr (fst (fold_left (header_step args) (map fst pairs)
                                          ([EmptyString], [2]))))
                     (Some (snd (fold_left (header_step args) (map fst pairs)
                                          ([EmptyString], [2]))))]) ++
             [AddRow (subheader_cells args pairs) None]).
  { unfold lift in H5. destruct (method_ids loc); [|discriminate].
    injection H5 as -> <-. auto. }
  destruct Hids as [Hids ->].
  apply bind_ok in H as (ns & s6 & H6 & H).
  apply table_loop_ok in H6 as (rows & -> & HR).
  apply bind_ok in H as (? & s7 & H7 & H). unfold emit in H7. injection H7 as _ <-.
  unfold ret in H. injection H as <- <-.
  exists pairs, ids, rows. split; [exact H1|]. split; [exact Hids|].
  split; [|split; [exact HR|simpl; auto]].
  unfold table_header. rewrite <- !app_assoc. reflexivity.
Qed.

(** X9.  When the metrics table is completed, the report has received, in
    this order: a new table, the header row, the sub-header row, one row
    per method in method order, and a flush.  The row of a method holds
    its original index, its name and, for every inferred (task, metric)
    pair in order, the mean (and the standard error when requested) of the
    matrix loaded for that method and pair; the method list itself is left
    as it was. *)
Theorem main_table_rows (w : World) (args : Args) (loc loc' : Locals) (s s' : log) :
  main_table w args loc s = (Ok loc', s') ->
  exists pairs ids rows,
    infer_metric_names w (method_dirs loc) = Ok pairs /\
    method_ids loc = Some ids /\
    s' = s ++ [AddTable;
               AddRow (map CStr (fst (table_header args (map fst pairs))))
                      (Some (snd (table_header args (map fst pairs))));
               AddRow (subheader_cells args pairs) None]
           ++ rows ++ [Save] /\
    Forall2 (fun m row =>
               exists metrics,
                 Forall2 (fun p metric =>
                            load_metrics w (metrics_path (snd m) p) = Ok metric)
                         pairs metrics /\
                 row = AddRow (CInt (fst (fst m)) :: CStr (snd (fst m))
                                 :: flat_map (metric_cells w args) metrics) None)
            (zip3 ids (method_names loc) (method_dirs loc)) rows /\
    method_ids loc' = method_ids loc /\
    method_names loc' = method_names loc /\
    method_dirs loc' = method_dirs loc.
Proof. exact (main_table_ok w args loc s loc' s'). Qed.

Lemma main_table_rows_witness :
  main_table ex_world ex_args_sorted ex_locals [] =
    (Ok (mk_Locals (Some [1; 0]) ["b"; "a"]%string ["r/b"; "r/a"]%string (Some 3)),
     [AddTable;
      AddRow [CStr ""; CStr "pred"] (Some [2; 1]);
      AddRow [CStr "id"; CStr "method"; CStr "mse (mean)"] None;
      AddRow [CInt 1; CStr "b"; CMean4 (Num 1)] None;
      AddRow [CInt 0; CStr "a"; CMean4 (Num (5 # 2))] None;
      Save]) /\
  exists pairs ids rows,
    infer_metric_names ex_world (method_dirs ex_locals) = Ok pairs /\
    method_ids ex_locals = Some ids /\
    [AddTable;
     AddRow [CStr ""; CStr "pred"] (Some [2; 1]);
     AddRow [CStr "id"; CStr "method"; CStr "mse (mean)"] None;
     AddRow [CInt 1; CStr "b"; CMean4 (Num 1)] None;
     AddRow [CInt 0; CStr "a"; CMean4 (Num (5 # 2))] None;
     Save]
    = [] ++ [AddTable;
             AddRow (map CStr (fst (table_header ex_args_sorted (map fst pairs))))
                    (Some (snd (table_header ex_args_sorted (map fst pairs))));
             AddRow (subheader_cells ex_args_sorted pairs) None]
         ++ rows ++ [Save] /\
    Forall2 (fun m row =>
               exists metrics,
                 Forall2 (fun p metric =>
                            load_metrics ex_world (metrics_path (snd m) p) = Ok metric)
                         pairs metrics /\
                 row = AddRow (CInt (fst (fst m)) :: CStr (snd (fst m))
                                 :: flat_map (metric_cells ex_world ex_args_sorted) metrics) None)
            (zip3 ids (method_names ex_locals) (method_dirs ex_locals)) rows /\
    method_ids (mk_Locals (Some [1; 0]) ["b"; "a"]%string ["r/b"; "r/a"]%string (Some 3))
      = method_ids ex_locals /\
    method_names (mk_Locals (Some [1; 0]) ["b"; "a"]%string ["r/b"; "r/a"]%string (Some 3))
      = method_names ex_locals /\
    method_dirs (mk_Locals (Some [1; 0]) ["b"; "a"]%string ["r/b"; "r/a"]%string (Some 3))
      = method_dirs ex_locals.
Proof.
  assert (E : main_table ex_world ex_args_sorted ex_locals [] =
    (Ok (mk_Locals (Some [1; 0]) ["b"; "a"]%string ["r/b"; "r/a"]%string (Some 3)),
     [AddTable;
      AddRow [CStr ""; CStr "pred"] (Some [2; 1]);
      AddRow [CStr "id"; CStr "method"; CStr "mse (mean)"] None;
      AddRow [CInt 1; CStr "b"; CMean4 (Num 1)] None;
      AddRow [CInt 0; CStr "a"; CMean4 (Num (5 # 2))] None;
      Save])) by (vm_compute; reflexivity).
  split; [exact E|]. exact (main_table_rows _ _ _ _ _ _ E).
Defined.

(** X10.  The metrics table is completed only if every method has every
    (task, metric) file inferred from the first method: when a file of
    some method fails to load, [main_table] raises. *)
Theorem main_table_needs_all_metrics (w : World) (args : Args) (loc : Locals) (s : log)
    (pairs : list (string * string)) (ids : list nat)
    (m : nat * string * string) (p : string * string) (e : exn) :
  infer_metric_names w (method_dirs loc) = Ok pairs ->
  method_ids loc = Some ids ->
  In m (zip3 ids (method_names loc) (method_dirs loc)) ->
  In p pairs ->
  load_metrics w (metrics_path (snd m) p) = Raise e ->
  is_ok (fst (main_table w args loc s)) = false.
Proof.
  intros Hp Hi Hm Hin Hload.
  destruct (main_table w args loc s) as [[loc'|e'] s'] eqn:E; [|reflexivity].
  exfalso. apply main_table_ok in E as (pairs' & ids' & rows & Hp' & Hi' & _ & HR & _).
  rewrite Hp in Hp'. injection Hp' as <-. rewrite Hi in Hi'. injection Hi' as <-.
  clear -HR Hm Hin Hload.
  induction HR as [|m0 row ms rows (metrics & HF & _) HR IH]; [destruct Hm|].
  destruct Hm as [->|Hm]; [|exact (IH Hm)].
  clear -HF Hin Hload. induction HF as [|p0 metric ps mts Hp0 HF IH]; [destruct Hin|].
  destruct Hin as [->|Hin]; [congruence | exact (IH Hin)].
Qed.

Lemma main_table_needs_all_metrics_witness :
  is_ok (fst (main_table ex_world ex_args_sorted
                (mk_Locals (Some [0; 1]) ["a"; "c"]%string ["r/a"; "r/c"]%string None) []))
    = false.
Proof.
  apply (main_table_needs_all_metrics ex_world ex_args_sorted
           (mk_Locals (Some [0; 1]) ["a"; "c"]%string ["r/a"; "r/c"]%string None) []
           [("pred", "mse")]%string [0; 1] (1, "c", "r/c")%string ("pred", "mse")%string
           FileNotFoundError).
  - reflexivity.
  - reflexivity.
  - simpl. auto.
  - simpl. auto.
  - reflexivity.
Defined.

(** ** What a run appends to the report *)

Lemma only_emits_ret {A} P (a : A) : only_emits P (ret a).
Proof.
  intros s r s' H. unfold ret in H. injection H as _ <-.
  exists []. rewrite app_nil_r. split; constructor.
Qed.

Lemma only_emits_lift {A} P (x : result A) : only_emits P (lift x).
Proof.
  intros s r s' H. unfold lift in H. injection H as _ <-.
  exists []. rewrite app_nil_r. split; constructor.
Qed.

Lemma only_emits_emit (P : event -> Prop) e : P e -> only_emits P (emit e).
Proof.
  intros He s r s' H. unfold emit in H. injection H as _ <-.
  exists [e]. split; [reflexivity | repeat constructor; exact He].
Qed.

Lemma only_emits_bind {A B} P (m : M A) (k : A -> M B) :
  only_emits P m -> (forall a, only_emits P (k a)) -> only_emits P (bind m k).
Proof.
  intros Hm Hk s r s' H. apply bind_inv in H as [(e & H & _)|(a & s1 & H1 & H2)].
  - eapply Hm; eauto.
  - destruct (Hm _ _ _ H1) as (t1 & -> & F1). destruct (Hk a _ _ _ H2) as (t2 & -> & F2).
    exists (t1 ++ t2). rewrite app_assoc. split; [reflexivity | apply Forall_app; auto].
Qed.

Lemma only_emits_for_each {A S} P (l : list A) (body : A -> S -> M S) acc :
  (forall x a, only_emits P (body x a)) -> only_emits P (for_each l body acc).
Proof.
  intros Hb. revert acc. induction l as [|x r IH]; intros acc; simpl.
  - apply only_emits_ret.
  - apply only_emits_bind; [apply Hb | intros; apply IH].
Qed.

Lemma only_emits_if {A} P (b : bool) (m1 m2 : M A) :
  only_emits P m1 -> only_emits P m2 -> only_emits P (if b then m1 else m2).
Proof. destruct b; auto. Qed.

Ltac only_emits_steps :=
  repeat (first [ apply only_emits_ret
                | apply only_emits_lift
                | apply only_emits_emit; simpl; auto; fail
                | apply only_emits_if
                | apply only_emits_for_each; intros ? ?
                | apply only_emits_bind; [|intros ?] ]).

Lemma only_emits_main_sort P w args names dirs :
  (forall t m, P (AddHeader3 t m)) -> only_emits P (main_sort w args names dirs).
Proof.
  intros HP. unfold main_sort. destruct (sort_by args) as [[task_name metric_name]|];
    only_emits_steps; try (apply only_emits_emit; apply HP).
Qed.

Lemma only_emits_main_table P w args loc :
  P AddTable -> P Save -> (forall txts spans, P (AddRow txts spans)) ->
  only_emits P (main_table w args loc).
Proof.
  intros H1 H2 H3. unfold main_table, method_step, metric_step.
  only_emits_steps; try (apply only_emits_emit; auto).
Qed.

Lemma only_emits_task_step P w args loc image_dir i task st :
  (forall f im, P (WriteJpg f im)) -> (forall f fr, P (WriteGif f fr)) ->
  only_emits P (task_step w args loc image_dir i task st).
Proof.
  intros H1 H2. unfold task_step, save_images, save_gif, ffmpeg_save_gif, output_step.
  only_emits_steps; try (apply only_emits_emit; auto).
Qed.

(** X11.  A run restricted to the metrics never loads, composes or writes
    an image: whatever its outcome, its log holds no image row, no written
    image or animation and no progress line. *)
Theorem only_metrics_no_image_event (w : World) (args : Args) :
  only_metrics args = true ->
  Forall (fun e => is_image_event e = false) (snd (run w args)).
Proof.
  intros Honly.
  assert (H : only_emits (fun e => is_image_event e = false) (main w args)).
  { unfold main. rewrite Honly.
    apply only_emits_bind; [apply only_emits_emit; reflexivity | intros _].
    apply only_emits_bind; [apply only_emits_lift | intros nd].
    apply only_emits_bind; [apply only_emits_main_sort; reflexivity | intros loc].
    apply only_emits_bind; [apply only_emits_main_table; reflexivity | intros loc'].
    apply only_emits_ret. }
  unfold run. destruct (main w args []) as [r s] eqn:E.
  destruct (H _ _ _ E) as (t & -> & F). exact F.
Qed.

Lemma only_metrics_no_image_event_witness :
  Forall (fun e => is_image_event e = false)
         (snd (run ex_world (mk_Args "r" None None None (Some ("pred", "mse")%string)
                                     false 16 false true))).
Proof.
  apply (only_metrics_no_image_event ex_world
           (mk_Args "r" None None None (Some ("pred", "mse")%string) false 16 false true)).
  reflexivity.
Defined.

(** X12.  A run that completes has flushed the report as its last action. *)
Theorem completed_run_ends_with_save (w : World) (args : Args) (s : log) :
  run w args = (Ok tt, s) -> exists s0, s = s0 ++ [Save].
Proof.
  unfold run, main. intros H.
  apply bind_ok in H as (? & s0 & _ & H).
  apply bind_ok in H as (nd & s1 & _ & H).
  apply bind_ok in H as (loc & s2 & _ & H).
  apply bind_ok in H as (loc' & s3 & Htab & H).
  destruct (only_metrics args).
  - unfold ret in H. injection H as <-.
    apply main_table_ok in Htab as (pairs & ids & rows & _ & _ & -> & _).
    eexists. rewrite !app_assoc. reflexivity.
  - unfold main_images in H.
    do 5 (apply bind_ok in H as (? & ? & _ & H)).
    unfold emit in H. injection H as <-. eexists. reflexivity.
Qed.

Lemma completed_run_ends_with_save_witness :
  run ex_world ex_args_sorted = (Ok tt, snd (run ex_world ex_args_sorted)) /\
  exists s0, snd (run ex_world ex_args_sorted) = s0 ++ [Save].
Proof.
  assert (E : run ex_world ex_args_sorted = (Ok tt, snd (run ex_world ex_args_sorted)))
    by (vm_compute; reflexivity).
  split; [exact E|]. exact (completed_run_ends_with_save _ _ _ E).
Defined.

(** ** The image phase *)

Lemma count_saves_app s t : count_saves (s ++ t) = count_saves s + count_saves t.
Proof. unfold count_saves. rewrite filter_app, length_app. reflexivity. Qed.

Lemma count_saves_none t : Forall (fun e => is_save e = false) t -> count_saves t = 0.
Proof.
  unfold count_saves. induction 1 as [|e r He Hr IH]; [reflexivity|].
  simpl. rewrite He. exact IH.
Qed.

Lemma only_emits_count {A} (m : M A) s r s' :
  only_emits (fun e => is_save e = false) m -> m s = (r, s') ->
  count_saves s' = count_saves s.
Proof.
  intros Hm H. destruct (Hm _ _ _ H) as (t & -> & F).
  rewrite count_saves_app, (count_saves_none t F). lia.
Qed.

Lemma div_succ (x b : Z) :
  (0 <= x)%Z -> (0 < b)%Z ->
  ((x + 1) / b = x / b + (if (x + 1) mod b =? 0 then 1 else 0))%Z.
Proof.
  intros Hx Hb.
  pose proof (Z.div_mod x b ltac:(lia)) as E.
  pose proof (Z.mod_pos_bound x b Hb) as Hr.
  destruct (Z.eq_dec (x mod b + 1) b) as [Hfull|Hpart].
  - assert (Hd : (x / b + 1 = (x + 1) / b)%Z) by (apply (Z.div_unique _ _ _ 0); lia).
    assert (Hm : (0 = (x + 1) mod b)%Z) by (apply (Z.mod_unique _ _ (x / b + 1)); lia).
    rewrite <- Hm, <- Hd. reflexivity.
  - assert (Hd : (x / b = (x + 1) / b)%Z)
      by (apply (Z.div_unique _ _ _ (x mod b + 1)); lia).
    assert (Hm : (x mod b + 1 = (x + 1) mod b)%Z)
      by (apply (Z.mod_unique _ _ (x / b)); lia).
    rewrite <- Hm, <- Hd.
    destruct (Z.eqb_spec (x mod b + 1) 0); lia.
Qed.

Lemma sample_step_saves w args loc image_dir tasks i hdr s hdr' s' :
  sample_step w args loc image_dir tasks i hdr s = (Ok hdr', s') ->
  count_saves s' =
    count_saves s + (if (Z.of_nat (i + 1) mod batch_size args =? 0)%Z then 1 else 0).
Proof.
  unfold sample_step. intros H.
  apply bind_ok in H as (? & s1 & H1 & H).
  unfold lift in H1. injection H1 as _ <-.
  apply bind_ok in H as (? & s2 & H2 & H).
  apply only_emits_count in H2; [|only_emits_steps; apply only_emits_emit; reflexivity].
  apply bind_ok in H as (st & s3 & H3 & H).
  apply only_emits_count in H3;
    [|apply only_emits_for_each; intros; apply only_emits_task_step; reflexivity].
  apply bind_ok in H as (? & s4 & H4 & H).
  apply only_emits_count in H4; [|only_emits_steps; apply only_emits_emit; reflexivity].
  apply bind_ok in H as (? & s5 & H5 & H).
  apply only_emits_count in H5; [|apply only_emits_emit; reflexivity].
  apply bind_ok in H as (? & s6 & H6 & H).
  unfold ret in H. injection H as _ <-.
  destruct (Z.of_nat (i + 1) mod batch_size args =? 0)%Z.
  - unfold emit in H6. injection H6 as _ <-.
    rewrite count_saves_app. change (count_saves [Save]) with 1. lia.
  - unfold ret in H6. injection H6 as _ <-. lia.
Qed.

Lemma sample_loop_saves w args loc image_dir tasks n a hdr s hdr' s' :
  (0 < batch_size args)%Z ->
  for_each (seq a n) (sample_step w args loc image_dir tasks) hdr s = (Ok hdr', s') ->
  (Z.of_nat (count_saves s') =
   Z.of_nat (count_saves s) + (Z.of_nat (a + n) / batch_size args
                               - Z.of_nat a / batch_size args))%Z.
Proof.
  intros Hb. revert a hdr s. induction n as [|n IH]; intros a hdr s H; simpl in H.
  - unfold ret in H. injection H as _ <-. rewrite Nat.add_0_r. lia.
  - apply bind_ok in H as (hdr1 & s1 & H1 & H).
    apply sample_step_saves in H1. apply IH in H.
    rewrite H, H1. replace (S a + n) with (a + S n) by lia.
    pose proof (div_succ (Z.of_nat a) (batch_size args) ltac:(lia) Hb) as Hd.
    replace (Z.of_nat (S a)) with (Z.of_nat a + 1)%Z by lia.
    replace (Z.of_nat (a + 1)) with (Z.of_nat a + 1)%Z by lia.
    rewrite Hd. destruct ((Z.of_nat a + 1) mod batch_size args =? 0)%Z; lia.
Qed.

(** X13.  With a positive batch size, an image phase that completes over
    n samples flushes the report once after every full batch of samples
    and once more at the end: n / batch_size + 1 times in all. *)
Theorem main_images_flush_count (w : World) (args : Args) (loc : Locals)
    (n : nat) (s s' : log) :
  (0 < batch_size args)%Z ->
  num_samples loc = Some n ->
  main_images w args loc s = (Ok tt, s') ->
  (Z.of_nat (count_saves s') =
   Z.of_nat (count_saves s) + Z.of_nat n / batch_size args + 1)%Z.
Proof.
  intros Hb Hn H. unfold main_images in H.
  apply bind_ok in H as (dir0 & s1 & H1 & H). unfold lift in H1. injection H1 as _ <-.
  apply bind_ok in H as (tasks & s2 & H2 & H). unfold lift in H2. injection H2 as _ <-.
  apply bind_ok in H as (? & s3 & H3 & H). unfold emit in H3. injection H3 as _ <-.
  rewrite Hn in H.
  apply bind_ok in H as (n' & s4 & H4 & H). unfold lift in H4. injection H4 as <- <-.
  apply bind_ok in H as (hdr & s5 & H5 & H).
  apply (sample_loop_saves _ _ _ _ _ _ _ _ _ _ _ Hb) in H5.
  unfold emit in H. injection H as <-.
  rewrite count_saves_app, Nat2Z.inj_add, H5, count_saves_app.
  change (count_saves [Save]) with 1. change (count_saves [AddTable]) with 0.
  change (Z.of_nat 0 / batch_size args)%Z with (0 / batch_size args)%Z.
  rewrite Z.div_0_l by lia. simpl Nat.add. lia.
Qed.

Lemma main_images_flush_count_witness :
  (0 < batch_size (mk_Args "r" None None None (Some ("pred", "mse")%string)
                           false 2 false false))%Z /\
  (Z.of_nat (count_saves
               (snd (main_images ex_world
                       (mk_Args "r" None None None (Some ("pred", "mse")%string)
                                false 2 false false)
                       ex_locals_after []))) =
   Z.of_nat (count_saves []) + Z.of_nat 3 / 2 + 1)%Z.
Proof.
  split; [reflexivity|].
  apply (main_images_flush_count ex_world
           (mk_Args "r" None None None (Some ("pred", "mse")%string) false 2 false false)
           ex_locals_after 3 []).
  - reflexivity.
  - reflexivity.
  - vm_compute. reflexivity.
Defined.

Lemma mapM_raise_kind {A B} (f : A -> result B) l e e0 :
  (forall x e', f x = Raise e' -> e' = e0) -> mapM f l = Raise e -> e = e0.
Proof.
  intros Hf. induction l as [|x r IH]; simpl; [discriminate|].
  destruct (f x) eqn:E.
  - destruct (mapM f r); [discriminate|]. intros H. injection H as <-. apply IH. reflexivity.
  - intros H. injection H as <-. eapply Hf; exact E.
Qed.

(** X14.  With batch size 0 and at least one sample, the image phase
    cannot complete and loads or writes no file: it raises [IndexError]
    while it infers the task names, or [ZeroDivisionError] in the first
    iteration, after it has opened the second table. *)
Theorem main_images_batch_size_zero (w : World) (args : Args) (loc : Locals)
    (n : nat) (s : log) :
  batch_size args = 0%Z ->
  num_samples loc = Some (S n) ->
  main_images w args loc s = (Raise IndexError, s) \/
  main_images w args loc s = (Raise ZeroDivisionError, s ++ [AddTable]).
Proof.
  intros Hb Hn. unfold main_images, bind, lift.
  destruct (first (method_dirs loc)) as [dir0|e] eqn:E0.
  - destruct (mapM _ _) as [tasks|e] eqn:E1.
    + right. unfold emit at 1. rewrite Hn. simpl seq. simpl for_each.
      unfold bind, sample_step, bind, lift. rewrite Hb. reflexivity.
    + left. apply mapM_raise_kind with (e0 := IndexError) in E1; [subst; reflexivity|].
      intros x e' H. unfold second_to_last in H.
      destruct (rev (split_slash x)) as [|? [|? ?]]; congruence.
  - left. unfold first in E0. destruct (method_dirs loc); congruence.
Qed.

Lemma main_images_batch_size_zero_witness :
  main_images ex_world (mk_Args "r" None None None (Some ("pred", "mse")%string)
                                false 0 false false) ex_locals_after []
    = (Raise IndexError, []) \/
  main_images ex_world (mk_Args "r" None None None (Some ("pred", "mse")%string)
                                false 0 false false) ex_locals_after []
    = (Raise ZeroDivisionError, [] ++ [AddTable]).
Proof.
  apply (main_images_batch_size_zero ex_world
           (mk_Args "r" None None None (Some ("pred", "mse")%string) false 0 false false)
           ex_locals_after 2 []); reflexivity.
Defined.

Lemma only_emits_bind_post {A B} P (Q : A -> Prop) (m : M A) (k : A -> M B) :
  only_emits P m ->
  (forall s a s', m s = (Ok a, s') -> Q a) ->
  (forall a, Q a -> only_emits P (k a)) ->
  only_emits P (bind m k).
Proof.
  intros Hm HQ Hk s r s' H. apply bind_inv in H as [(e & H & _)|(a & s1 & H1 & H2)].
  - eapply Hm; eauto.
  - destruct (Hm _ _ _ H1) as (t1 & -> & F1).
    destruct (Hk a (HQ _ _ _ H1) _ _ _ H2) as (t2 & -> & F2).
    exists (t1 ++ t2). rewrite app_assoc. split; [reflexivity | apply Forall_app; auto].
Qed.

(** What one task adds to the cells of an image row: the same entries to
    the images and to the links, and as many empty captions. *)
Lemma task_step_cells w args loc image_dir i task st s st' s' :
  task_step w args loc image_dir i task st s = (Ok st', s') ->
  exists added,
    ims (snd st') = ims (snd st) ++ added /\
    links (snd st') = links (snd st) ++ added /\
    txts (snd st') = txts (snd st) ++ repeat CNone (length added).
Proof.
  unfold task_step. intros H.
  repeat (apply bind_ok in H as (? & ? & _ & H)).
  unfold ret in H. injection H as <- _. simpl.
  eexists. split; [reflexivity|]. split; [reflexivity|].
  rewrite length_app, !length_map. reflexivity.
Qed.

Lemma only_emits_sample_step_aligned w args loc image_dir tasks i hdr :
  only_emits aligned (sample_step w args loc image_dir tasks i hdr).
Proof.
  unfold sample_step.
  apply only_emits_bind; [apply only_emits_lift | intros _].
  apply only_emits_bind; [only_emits_steps; apply only_emits_emit; exact I | intros _].
  apply (only_emits_bind_post aligned
           (fun st : Headers * RowCells =>
              ims (snd st) = links (snd st) /\
              length (txts (snd st)) = length (ims (snd st)))).
  - apply only_emits_for_each. intros. apply only_emits_task_step; intros; exact I.
  - intros s st s' H.
    eapply (for_each_inv _ (fun st0 : Headers * RowCells =>
                               ims (snd st0) = links (snd st0) /\
                               length (txts (snd st0)) = length (ims (snd st0))));
      [| |exact H].
    + intros task a t a' t' Hb [E1 E2].
      apply task_step_cells in Hb as (added & -> & -> & ->).
      rewrite !length_app, repeat_length, E2, E1. split; reflexivity.
    + simpl. split; reflexivity.
  - intros st [E1 E2].
    apply only_emits_bind; [only_emits_steps; apply only_emits_emit; exact I | intros _].
    apply only_emits_bind; [apply only_emits_emit; simpl; auto | intros _].
    only_emits_steps; try (apply only_emits_emit; exact I).
Qed.

(** X15.  Every image row a run adds to the report is lined up: its list
    of links is its list of images, and it has one caption per image.  In
    fact every event of every run, whatever its outcome, satisfies
    [aligned]. *)
Theorem run_image_rows_aligned (w : World) (args : Args) :
  Forall aligned (snd (run w args)).
Proof.
  assert (H : only_emits aligned (main w args)).
  { unfold main.
    apply only_emits_bind; [apply only_emits_emit; exact I | intros _].
    apply only_emits_bind; [apply only_emits_lift | intros nd].
    apply only_emits_bind; [apply only_emits_main_sort; intros; exact I | intros loc].
    apply only_emits_bind; [apply only_emits_main_table; intros; exact I | intros loc'].
    apply only_emits_if; [apply only_emits_ret|].
    unfold main_images.
    apply only_emits_bind; [apply only_emits_lift | intros dir0].
    apply only_emits_bind; [apply only_emits_lift | intros tasks].
    apply only_emits_bind; [apply only_emits_emit; exact I | intros _].
    apply only_emits_bind; [apply only_emits_lift | intros n].
    apply only_emits_bind; [|intros _; apply only_emits_emit; exact I].
    apply only_emits_for_each. intros. apply only_emits_sample_step_aligned. }
  unfold run. destruct (main w args []) as [r s] eqn:E.
  destruct (H _ _ _ E) as (t & -> & F). exact F.
Qed.

(** ** File names *)

Lemma chars_append a b : chars (String.append a b) = chars a ++ chars b.
Proof. unfold chars. induction a as [|c a IH]; simpl; [reflexivity | rewrite IH; reflexivity]. Qed.

Lemma chars_str l : chars (str l) = l.
Proof. apply list_ascii_of_string_of_list_ascii. Qed.

Lemma str_chars s : str (chars s) = s.
Proof. apply string_of_list_ascii_of_string. Qed.

Lemma chars_length s : length (chars s) = String.length s.
Proof. unfold chars. induction s as [|c s IH]; simpl; [reflexivity | rewrite IH; reflexivity]. Qed.

Lemma chars_cat parts : chars (cat parts) = concat (map chars parts).
Proof.
  unfold cat. induction parts as [|x r IH]; [reflexivity|].
  destruct r as [|y r'].
  - simpl. rewrite app_nil_r. reflexivity.
  - change (String.concat EmptyString (x :: y :: r'))
      with (String.append x (String.append EmptyString
                               (String.concat EmptyString (y :: r')))).
    rewrite !chars_append, IH. reflexivity.
Qed.

Lemma rsplit_at_none sep l : ~ In sep l -> rsplit_at sep l = None.
Proof.
  induction l as [|c r IH]; intros H; [reflexivity|]. simpl.
  rewrite IH by (intros F; apply H; right; exact F).
  destruct (Ascii.eqb_spec c sep) as [->|]; [|reflexivity].
  exfalso. apply H. left; reflexivity.
Qed.

Lemma rsplit_at_last sep a b :
  ~ In sep b -> rsplit_at sep (a ++ sep :: b) = Some (a ++ [sep], b).
Proof.
  intros H. induction a as [|c a IH]; simpl.
  - rewrite (rsplit_at_none sep b H), Ascii.eqb_refl. reflexivity.
  - rewrite IH. reflexivity.
Qed.

Lemma forallb_false_In {A} (p : A -> bool) l x : In x l -> p x = false -> forallb p l = false.
Proof.
  intros Hin Hx. destruct (forallb p l) eqn:E; [|reflexivity].
  rewrite forallb_forall in E. rewrite (E x Hin) in Hx. discriminate.
Qed.

(** The stem of a frame file: name, underscore, sample index, underscore,
    frame index. *)
Lemma splitext_frame dirpart name idx dd ext :
  ~ In slash name -> ~ In slash idx -> ~ In slash dd ->
  ~ In dot idx -> ~ In dot dd ->
  ~ In slash ext -> ~ In dot ext ->
  dirpart = [] \/ (exists d, dirpart = d ++ [slash]) ->
  os_path_splitext
    (str (dirpart ++ name ++ "_"%char :: idx ++ "_"%char :: dd ++ dot :: ext)) =
  (str (dirpart ++ name ++ "_"%char :: idx ++ "_"%char :: dd), str (dot :: ext)).
Proof.
  intros Hn Hi Hd Hi' Hd' He He' Hdir.
  set (stem := name ++ "_"%char :: idx ++ "_"%char :: dd).
  assert (Hbase : ~ In slash (stem ++ dot :: ext)).
  { unfold stem. rewrite !in_app_iff. simpl. rewrite !in_app_iff. simpl.
    unfold slash, dot in *. intuition discriminate. }
  assert (Hdot : rsplit_at dot (stem ++ dot :: ext) = Some (stem ++ [dot], ext))
    by (apply rsplit_at_last; exact He').
  assert (Hstem : forallb (fun c => Ascii.eqb c dot) stem = false).
  { apply (forallb_false_In _ _ "_"%char); [|reflexivity].
    unfold stem. apply in_or_app. right. left. reflexivity. }
  unfold os_path_splitext. rewrite chars_str.
  replace (dirpart ++ name ++ "_"%char :: idx ++ "_"%char :: dd ++ dot :: ext)
    with (dirpart ++ stem ++ dot :: ext)
    by (unfold stem; rewrite <- !app_assoc; simpl; rewrite <- !app_assoc; reflexivity).
  destruct Hdir as [->|(d & ->)].
  - simpl app. rewrite (rsplit_at_none slash _ Hbase), Hdot, removelast_last, Hstem.
    reflexivity.
  - rewrite <- app_assoc. simpl app. rewrite (rsplit_at_last slash d _ Hbase).
    rewrite Hdot, removelast_last, Hstem. rewrite <- app_assoc. reflexivity.
Qed.

(** X16.  For a frame file [dir/name_iiiii_ff.jpg], whose sample index has
    five characters and whose frame index has two, none of them a slash or
    a dot, the output kind of line 236 is [name], and the animation name of
    lines 250-251 is [dir/name_iiiii.gif]. *)
Theorem frame_file_names (dir name idx dd : string) :
  ~ In slash (chars name) -> ~ In slash (chars idx) -> ~ In slash (chars dd) ->
  ~ In dot (chars idx) -> ~ In dot (chars dd) ->
  String.length idx = 5 -> String.length dd = 2 ->
  output_kind (cat [dir; "/"; name; "_"; idx; "_"; dd; ".jpg"]%string) = name /\
  String.append
    (drop_last 3 (fst (os_path_splitext
                         (cat [dir; "/"; name; "_"; idx; "_"; dd; ".jpg"]%string))))
    ".gif"
  = cat [dir; "/"; name; "_"; idx; ".gif"]%string.
Proof.
  intros Hn Hi Hd Hi' Hd' Li Ld.
  assert (Ef : cat [dir; "/"; name; "_"; idx; "_"; dd; ".jpg"]%string =
               str (chars dir ++ slash :: chars name ++ "_"%char :: chars idx
                      ++ "_"%char :: chars dd ++ dot :: chars "jpg")).
  { rewrite <- (str_chars (cat _)). f_equal. rewrite chars_cat. simpl.
    rewrite <- ?app_assoc. simpl. rewrite <- ?app_assoc. reflexivity. }
  assert (Hjpg1 : ~ In slash (chars "jpg")) by (simpl; unfold slash; intuition discriminate).
  assert (Hjpg2 : ~ In dot (chars "jpg")) by (simpl; unfold dot; intuition discriminate).
  split.
  - unfold output_kind, os_path_basename. rewrite Ef, chars_str.
    rewrite (rsplit_at_last slash (chars dir)).
    2:{ repeat first [rewrite in_app_iff | progress simpl].
        unfold slash, dot in *. intuition discriminate. }
    pose proof (splitext_frame [] (chars name) (chars idx) (chars dd) (chars "jpg")
                  Hn Hi Hd Hi' Hd' Hjpg1 Hjpg2 (or_introl eq_refl)) as Hsp.
    match goal with |- context [os_path_splitext ?a] =>
      replace (os_path_splitext a)
        with (str (chars name ++ "_"%char :: chars idx ++ "_"%char :: chars dd),
              str (dot :: chars "jpg"))
        by (symmetry; exact Hsp)
    end. clear Hsp.
    simpl fst. unfold drop_last. rewrite chars_str. simpl app.
    rewrite length_app. simpl length. rewrite length_app. simpl length.
    rewrite !chars_length, Li, Ld.
    replace (String.length name + S (5 + S 2) - 9) with (length (chars name) + 0)
      by (rewrite chars_length; lia).
    rewrite firstn_app_2. simpl. rewrite app_nil_r. apply str_chars.
  - rewrite Ef.
    change (chars dir ++ slash :: chars name ++ "_"%char :: chars idx
              ++ "_"%char :: chars dd ++ dot :: chars "jpg")
      with (chars dir ++ [slash] ++ chars name ++ "_"%char :: chars idx
              ++ "_"%char :: chars dd ++ dot :: chars "jpg").
    rewrite (app_assoc (chars dir) [slash]).
    rewrite (splitext_frame (chars dir ++ [slash]) (chars name) (chars idx) (chars dd)
               (chars "jpg") Hn Hi Hd Hi' Hd' Hjpg1 Hjpg2
               (or_intror (ex_intro _ (chars dir) eq_refl))).
    simpl fst. unfold drop_last. rewrite chars_str.
    rewrite <- (str_chars (cat _)). rewrite <- (str_chars ".gif").
    rewrite <- (str_chars (String.append _ _)), chars_append, !chars_str.
    f_equal. rewrite chars_cat. simpl.
    replace ((chars dir ++ [slash]) ++ chars name ++ "_"%char :: chars idx
               ++ "_"%char :: chars dd)
      with (((chars dir ++ [slash]) ++ chars name ++ "_"%char :: chars idx)
              ++ "_"%char :: chars dd)
      by (rewrite <- ?app_assoc; simpl; rewrite <- ?app_assoc; reflexivity).
    rewrite length_app. simpl length. rewrite (chars_length dd), Ld.
    replace (length ((chars dir ++ [slash]) ++ chars name ++ "_"%char :: chars idx) + 3 - 3)
      with (length ((chars dir ++ [slash]) ++ chars name ++ "_"%char :: chars idx) + 0)
      by lia.
    rewrite firstn_app_2. simpl firstn. rewrite app_nil_r.
    rewrite <- ?app_assoc. simpl. rewrite <- ?app_assoc. reflexivity.
Qed.

Lemma frame_file_names_witness :
  output_kind (cat ["r/a/pred/outputs"; "/"; "gen_image"; "_"; "00012"; "_"; "03";
                    ".jpg"]%string) = "gen_image"%string /\
  String.append
    (drop_last 3 (fst (os_path_splitext
                         (cat ["r/a/pred/outputs"; "/"; "gen_image"; "_"; "00012"; "_";
                               "03"; ".jpg"]%string))))
    ".gif"
  = cat ["r/a/pred/outputs"; "/"; "gen_image"; "_"; "00012"; ".gif"]%string.
Proof.
  apply (frame_file_names "r/a/pred/outputs" "gen_image" "00012" "03");
    try reflexivity;
    simpl; unfold slash, dot; intuition discriminate.
Defined.

(** ** Task and metric names *)

Lemma split_slash_aux_plain cur b :
  ~ In slash b -> split_slash_aux cur b = [str (rev cur ++ b)].
Proof.
  revert cur. induction b as [|c b IH]; intros cur H; simpl.
  - rewrite app_nil_r. reflexivity.
  - destruct (Ascii.eqb_spec c slash) as [->|Hc]; [exfalso; apply H; left; reflexivity|].
    rewrite IH by (intros F; apply H; right; exact F).
    simpl. rewrite <- app_assoc. reflexivity.
Qed.

Lemma split_slash_aux_last cur a b :
  ~ In slash b ->
  split_slash_aux cur (a ++ slash :: b) = split_slash_aux cur a ++ [str b].
Proof.
  intros H. revert cur. induction a as [|c a IH]; intros cur; simpl.
  - rewrite ?Ascii.eqb_refl, (split_slash_aux_plain [] b H). reflexivity.
  - destruct (Ascii.eqb c slash); [rewrite IH; reflexivity | apply IH].
Qed.

Lemma rstrip_slash_one a c :
  c <> slash -> rstrip_slash ((a ++ [c]) ++ [slash]) = a ++ [c].
Proof.
  intros Hc. unfold rstrip_slash. rewrite !rev_app_distr. simpl.
  rewrite ?Ascii.eqb_refl.
  destruct (Ascii.eqb_spec c slash); [contradiction|].
  simpl. rewrite rev_involutive. reflexivity.
Qed.

Lemma metric_of_file dir0 p :
  well_named p ->
  (let (head, tail) := os_path_split (metric_file dir0 p) in
   match second_to_last (split_slash head) with
   | Raise e => Raise e
   | Ok task_name => Ok (task_name, fst (os_path_splitext tail))
   end) = Ok p.
Proof.
  destruct p as [t m]. intros (_ & Ht & Hm & c & Hc & Hcd). simpl fst in *. simpl snd in *.
  assert (Ef : metric_file dir0 (t, m) =
               str ((chars dir0 ++ slash :: chars t ++ chars "/metrics")
                      ++ slash :: chars m ++ dot :: chars "csv")).
  { unfold metric_file. rewrite <- (str_chars (cat _)). f_equal. rewrite chars_cat.
    simpl. rewrite <- ?app_assoc. simpl. rewrite <- ?app_assoc. reflexivity. }
  assert (Hcsv1 : ~ In slash (chars "csv")) by (simpl; unfold slash; intuition discriminate).
  assert (Hcsv2 : ~ In dot (chars "csv")) by (simpl; unfold dot; intuition discriminate).
  assert (Htail : ~ In slash (chars m ++ dot :: chars "csv")).
  { rewrite in_app_iff. simpl. unfold slash, dot in *. intuition discriminate. }
  unfold os_path_split. rewrite Ef, chars_str, (rsplit_at_last slash _ _ Htail).
  replace (forallb (fun c0 => Ascii.eqb c0 slash)
             ((chars dir0 ++ slash :: chars t ++ chars "/metrics") ++ [slash]))
    with false.
  2:{ symmetry. apply (forallb_false_In _ _ "m"%char); [|reflexivity].
      rewrite !in_app_iff. simpl. rewrite !in_app_iff. simpl. tauto. }
  assert (Hstrip : rstrip_slash ((chars dir0 ++ slash :: chars t ++ chars "/metrics")
                                   ++ [slash])
                   = chars dir0 ++ slash :: chars t ++ chars "/metrics").
  { replace (chars dir0 ++ slash :: chars t ++ chars "/metrics")
      with ((chars dir0 ++ slash :: chars t ++ chars "/metric") ++ ["s"%char])
      by (rewrite <- ?app_assoc; simpl; rewrite <- ?app_assoc; reflexivity).
    apply rstrip_slash_one. unfold slash. discriminate. }
  rewrite Hstrip.
  assert (Hsplit : second_to_last
                     (split_slash (str (chars dir0 ++ slash :: chars t ++ chars "/metrics")))
                   = Ok t).
  { unfold split_slash. rewrite chars_str.
    replace (chars dir0 ++ slash :: chars t ++ chars "/metrics")
      with ((chars dir0 ++ slash :: chars t) ++ slash :: chars "metrics")
      by (rewrite <- ?app_assoc; reflexivity).
    rewrite split_slash_aux_last by (simpl; unfold slash; intuition discriminate).
    rewrite (split_slash_aux_last [] (chars dir0) (chars t) Ht).
    unfold second_to_last. rewrite !rev_app_distr. simpl. rewrite str_chars. reflexivity. }
  rewrite Hsplit.
  assert (Hext : os_path_splitext (str (chars m ++ dot :: chars "csv")) = (m, ".csv"%string)).
  { unfold os_path_splitext. rewrite chars_str, (rsplit_at_none slash _ Htail).
    rewrite (rsplit_at_last dot (chars m) _ Hcsv2), removelast_last.
    replace (forallb (fun c0 => Ascii.eqb c0 dot) (chars m)) with false.
    - simpl app. rewrite str_chars. reflexivity.
    - symmetry. apply (forallb_false_In _ _ c Hc).
      destruct (Ascii.eqb_spec c dot); [contradiction | reflexivity]. }
  rewrite Hext. reflexivity.
Qed.

Lemma mapM_map_inverse {A B} (f : B -> result A) (g : A -> B) l :
  (forall x, In x l -> f (g x) = Ok x) -> mapM f (map g l) = Ok l.
Proof.
  induction l as [|x r IH]; intros H; simpl; [reflexivity|].
  rewrite (H x (or_introl eq_refl)), IH; [reflexivity|].
  intros y Hy. apply H. right. exact Hy.
Qed.

Lemma ends_with_slash_chars s a t :
  chars s = a ++ chars t -> t <> EmptyString -> ~ In slash (chars t) ->
  ends_with_slash s = false.
Proof.
  intros Hs Hne Hns. unfold ends_with_slash. rewrite Hs, rev_app_distr.
  destruct (rev (chars t)) as [|c r] eqn:E.
  - exfalso. apply Hne. rewrite <- (str_chars t).
    apply (f_equal (@rev ascii)) in E. rewrite rev_involutive in E. rewrite E. reflexivity.
  - simpl. destruct (Ascii.eqb_spec c slash) as [->|]; [|reflexivity].
    exfalso. apply Hns. apply in_rev. rewrite E. left. reflexivity.
Qed.

Lemma path_join_plain a b :
  a <> EmptyString -> ends_with_slash a = false -> ~ In slash (chars b) ->
  path_join a b = String.append a (String slash b).
Proof.
  intros Ha Hs Hb. unfold path_join.
  replace (starts_with_slash b) with false.
  - rewrite Hs. destruct (String.eqb_spec a EmptyString); [contradiction | reflexivity].
  - destruct b as [|c b]; [reflexivity|]. simpl.
    destruct (Ascii.eqb_spec c slash) as [->|]; [|reflexivity].
    exfalso. apply Hb. left. reflexivity.
Qed.

Lemma append_nonempty a b : b <> EmptyString -> String.append a b <> EmptyString.
Proof. destruct a; simpl; [auto | discriminate]. Qed.

(** The file [load_metrics] opens for a method directory and a
    well-named pair is the metrics file of the layout. *)
Lemma metrics_path_file dir p :
  dir <> EmptyString -> ends_with_slash dir = false -> well_named p ->
  String.append (metrics_path dir p) ".csv" = metric_file dir p.
Proof.
  destruct p as [t m]. intros Hd Hs (Ht0 & Ht & Hm & _). simpl fst in *. simpl snd in *.
  unfold metrics_path, path_join4, path_join3. simpl fst. simpl snd.
  rewrite (path_join_plain dir t Hd Hs Ht).
  rewrite (path_join_plain _ "metrics").
  - rewrite path_join_plain.
    + unfold metric_file. rewrite <- (str_chars (String.append _ _)).
      rewrite <- (str_chars (cat _)). f_equal.
      rewrite chars_cat, !chars_append. simpl.
      rewrite ?chars_append. simpl. rewrite <- ?app_assoc. simpl.
      rewrite <- ?app_assoc. reflexivity.
    + apply append_nonempty. discriminate.
    + apply (ends_with_slash_chars _ (chars dir ++ slash :: chars t ++ [slash]) "metrics");
        [|discriminate | simpl; unfold slash; intuition discriminate].
      rewrite ?chars_append. simpl. rewrite ?chars_append. simpl.
      rewrite <- ?app_assoc. simpl. rewrite <- ?app_assoc. reflexivity.
    + exact Hm.
  - apply append_nonempty. discriminate.
  - apply (ends_with_slash_chars _ (chars dir ++ [slash]) t); [|exact Ht0 | exact Ht].
    rewrite chars_append. simpl. rewrite <- app_assoc. reflexivity.
  - simpl. unfold slash. intuition discriminate.
Qed.

(** X17. Lines 160-168 read the layout back: when the glob under the first
    method directory returns the metrics files of well-named (task, metric)
    pairs, the inferred pairs are exactly those pairs, in the order of their
    sorted file names, and the file [load_metrics] later opens for an
    inferred pair under that directory is the file that was found. *)
Theorem infer_metric_names_layout (w : World) (dir0 : string) (rest : list string)
    (found : list (string * string)) :
  glob w (String.append (glob_escape dir0) "/*/metrics/*.csv")
    = map (metric_file dir0) found ->
  Forall well_named found ->
  dir0 <> EmptyString -> ends_with_slash dir0 = false ->
  exists pairs,
    infer_metric_names w (dir0 :: rest) = Ok pairs /\
    Permutation pairs found /\
    map (metric_file dir0) pairs = sorted String.ltb (map (metric_file dir0) found) /\
    forall p, In p pairs ->
      String.append (metrics_path dir0 p) ".csv" = metric_file dir0 p.
Proof.
  intros Hg Hwn Hd Hs.
  destruct (Permutation_map_inv (metric_file dir0) found
              (sorted_perm String.ltb (map (metric_file dir0) found)))
    as (pairs & Hmap & Hperm).
  assert (Hwn' : Forall well_named pairs).
  { rewrite Forall_forall in *. intros p Hp. apply Hwn.
    apply (Permutation_in p (Permutation_sym Hperm) Hp). }
  exists pairs. split; [|split; [|split]].
  - unfold infer_metric_names, first. cbv iota. rewrite Hg, Hmap.
    apply mapM_map_inverse. intros p Hp. apply metric_of_file.
    rewrite Forall_forall in Hwn'. apply Hwn'. exact Hp.
  - apply Permutation_sym. exact Hperm.
  - symmetry. exact Hmap.
  - intros p Hp. apply metrics_path_file; [exact Hd | exact Hs |].
    rewrite Forall_forall in Hwn'. apply Hwn'. exact Hp.
Qed.

Lemma infer_metric_names_layout_witness :
  exists pairs,
    infer_metric_names (world_of_glob (map (metric_file "r/a") ex_found)) ["r/a"%string]
      = Ok pairs /\
    Permutation pairs ex_found /\
    map (metric_file "r/a") pairs
      = sorted String.ltb (map (metric_file "r/a") ex_found) /\
    forall p, In p pairs ->
      String.append (metrics_path "r/a" p) ".csv" = metric_file "r/a" p.
Proof.
  apply (infer_metric_names_layout
           (world_of_glob (map (metric_file "r/a") ex_found)) "r/a" [] ex_found).
  - reflexivity.
  - unfold ex_found, well_named.
    repeat constructor; simpl; try discriminate;
      try (unfold slash; intuition discriminate).
    + exists "s"%char. split; [tauto | unfold dot; discriminate].
    + exists "m"%char. split; [tauto | unfold dot; discriminate].
    + exists "p"%char. split; [tauto | unfold dot; discriminate].
  - discriminate.
  - reflexivity.
Defined.

(** ** Missing frames *)

(** X18. A sample that lacks frames of a task under the first method stops
    the run with [IndexError]: without input frames nothing is written
    (line 31), and with readable input frames but no output frame the input
    frames are copied to the image directory before the failure (line 250). *)
Theorem task_step_missing_frames (w : World) (args : Args) (loc : Locals)
    (image_dir : string) (sample_ind : nat) (task_name : string)
    (st : Headers * RowCells) (s : log) (dir0 : string) (rest : list string) :
  method_dirs loc = dir0 :: rest ->
  (glob w (inputs_pattern dir0 task_name sample_ind) = [] ->
   task_step w args loc image_dir sample_ind task_name st s = (Raise IndexError, s)) /\
  (forall images,
     glob w (inputs_pattern dir0 task_name sample_ind) <> [] ->
     load_images w (sorted String.ltb (glob w (inputs_pattern dir0 task_name sample_ind)))
       = Ok images ->
     glob w (outputs_pattern dir0 task_name sample_ind) = [] ->
     task_step w args loc image_dir sample_ind task_name st s =
       (Raise IndexError,
        s ++ map (fun p => WriteJpg (fst p) (snd p))
               (combine (web_input_fnames image_dir task_name
                           (sorted String.ltb
                              (glob w (inputs_pattern dir0 task_name sample_ind))))
                        images))).
Proof.
  intros Hd. unfold inputs_pattern, outputs_pattern, web_input_fnames. split.
  - intros Hin. unfold task_step, bind, lift. rewrite Hd. simpl first. cbv iota.
    rewrite Hin. reflexivity.
  - intros images Hin Hload Hout. unfold task_step, bind, lift. rewrite Hd.
    simpl first. cbv iota. rewrite Hload. cbv iota.
    rewrite save_images_nonempty.
    + rewrite Hout. reflexivity.
    + intros E. apply Hin.
      apply (f_equal (@length string)) in E. rewrite !length_map in E.
      apply length_zero_iff_nil in E.
      apply Permutation_nil.
      match type of E with sorted _ ?l = [] =>
        pose proof (sorted_perm String.ltb l) as P end.
      rewrite E in P. exact P.
Qed.

Lemma task_step_missing_frames_witness :
  task_step ex_world ex_args_sorted ex_locals_after "r/web/images" 7 "pred"
            (ex_row_start 7) [AddTable]
    = (Raise IndexError, [AddTable]) /\
  task_step ex_world_inputs_only ex_args_sorted ex_locals_after "r/web/images" 0 "pred"
            (ex_row_start 0) [AddTable]
    = (Raise IndexError,
       [AddTable; WriteJpg "r/web/images/pred/inputs/in_00000_00.jpg" (mk_image 8 8)]).
Proof.
  split.
  - apply (proj1 (task_step_missing_frames ex_world ex_args_sorted ex_locals_after
                    "r/web/images" 7 "pred" (ex_row_start 7) [AddTable]
                    "r/b" ["r/a"%string] eq_refl)).
    reflexivity.
  - apply (proj2 (task_step_missing_frames ex_world_inputs_only ex_args_sorted
                    ex_locals_after "r/web/images" 0 "pred" (ex_row_start 0) [AddTable]
                    "r/b" ["r/a"%string] eq_refl) [mk_image 8 8]).
    + vm_compute. discriminate.
    + reflexivity.
    + reflexivity.
Defined.
